(** * hier_config: the text parser, the sorted traversals, the flat dump and
    the rule-driven passes of [HConfig] (hier_config/__init__.py), embedded
    as Rocq functions over a tree of configuration lines.

    Python objects are addressed by reference; here a node of the tree is
    addressed by the chain of child positions that leads from it up to the
    root (innermost position first), so that [parent] is the tail of the
    chain and the root is the empty chain.  Exceptions are values of [exn];
    a method that mutates [self] and may raise returns the tree as it stands
    together with the exception, if any. *)

From Stdlib Require Import ZArith Ascii String DecimalString Lia.
From stdpp Require Import base option list gmap sets strings.

Set Warnings "-register-all,-clear-no-such-hyp".
Local Open Scope string_scope.
Local Open Scope Z_scope.
Local Open Scope list_scope.

(** ** Python string primitives used by the source (ASCII text) *)
Module PyStr.

(** [str.isspace] on one character: TAB..CR, FS..US and the blank. *)
Definition is_space (c : ascii) : bool :=
  let n := nat_of_ascii c in
  (((9 <=? n)%nat && (n <=? 13)%nat) || ((28 <=? n)%nat && (n <=? 31)%nat)
   || (n =? 32)%nat).

(** The line boundaries of [str.splitlines]: LF, VT, FF, CR, FS, GS, RS. *)
Definition is_linebreak (c : ascii) : bool :=
  let n := nat_of_ascii c in
  (((10 <=? n)%nat && (n <=? 13)%nat) || ((28 <=? n)%nat && (n <=? 30)%nat)).

Definition is_empty (s : string) : bool :=
  match s with EmptyString => true | String _ _ => false end.

Fixpoint lstrip (s : string) : string :=
  match s with
  | EmptyString => EmptyString
  | String c r => if is_space c then lstrip r else s
  end.

Fixpoint rstrip (s : string) : string :=
  match s with
  | EmptyString => EmptyString
  | String c r =>
      let r' := rstrip r in
      if is_empty r' && is_space c then EmptyString else String c r'
  end.

Definition startswith (s p : string) : bool := String.prefix p s.

(** [sub in s] *)
Fixpoint contains (s sub : string) : bool :=
  String.prefix sub s
  || match s with EmptyString => false | String _ r => contains r sub end.

(** [s.split()]: the maximal runs of non-blank characters. *)
Fixpoint split (s : string) : list string :=
  match s with
  | EmptyString => []
  | String c r =>
      if is_space c then split r
      else match r with
           | EmptyString => [String c EmptyString]
           | String c' _ =>
               if is_space c' then String c EmptyString :: split r
               else match split r with
                    | w :: ws => String c w :: ws
                    | [] => [String c EmptyString]
                    end
           end
  end.

(** [s.splitlines()]: CR LF counts as one boundary and a final boundary
    opens no further line. *)
Fixpoint splitlines (s : string) : list string :=
  match s with
  | EmptyString => []
  | String c r =>
      if is_linebreak c then
        match r with
        | String c' r' =>
            if ((nat_of_ascii c =? 13)%nat && (nat_of_ascii c' =? 10)%nat)%bool
            then EmptyString :: splitlines r'
            else EmptyString :: splitlines r
        | EmptyString => [EmptyString]
        end
      else match splitlines r with
           | l :: ls => String c l :: ls
           | [] => [String c EmptyString]
           end
  end.

(** [sep.join(l)] *)
Definition join (sep : string) (l : list string) : string := String.concat sep l.

(** [' ' * n] *)
Fixpoint spaces (n : nat) : string :=
  match n with O => EmptyString | S n' => String " "%char (spaces n') end.

(** [s[:n]] *)
Fixpoint slice_to (n : nat) (s : string) : string :=
  match n, s with
  | S n', String c r => String c (slice_to n' r)
  | _, _ => EmptyString
  end.

Definition len (s : string) : Z := Z.of_nat (String.length s).

End PyStr.

(** ** The tree *)

(** One configuration line: the attributes of [HConfigChild] that the code
    of [HConfig] reads or writes. *)
Inductive HConfigChild : Type := mkChild {
  text : string;
  tags : gset string;
  comments : gset string;
  new_in_config : bool;
  order_weight : Z;
  real_indent_level : option Z;
  children : list HConfigChild
}.

(** The root, [HConfig]: it has children and, during a parse, an indent
    level, and no text. *)
Record HConfig : Type := mkRoot {
  root_real_indent_level : option Z;
  root_children : list HConfigChild
}.

(** A reference to a node: child positions from the node up to the root. *)
Definition ref : Type := list nat.

Inductive exn : Type :=
| KeyError (key : string)
| AssertionError
| AttributeError
| TypeError
| ValueError
| StopIteration.

Definition set_children (n : HConfigChild) (cs : list HConfigChild) : HConfigChild :=
  mkChild (text n) (tags n) (comments n) (new_in_config n) (order_weight n)
          (real_indent_level n) cs.

Definition set_real_indent_level (z : option Z) (n : HConfigChild) : HConfigChild :=
  mkChild (text n) (tags n) (comments n) (new_in_config n) (order_weight n)
          z (children n).

Definition set_order_weight_of (w : Z) (n : HConfigChild) : HConfigChild :=
  mkChild (text n) (tags n) (comments n) (new_in_config n) w
          (real_indent_level n) (children n).

Definition set_payload (tg cm : gset string) (nw : bool) (n : HConfigChild) : HConfigChild :=
  mkChild (text n) tg cm nw (order_weight n) (real_indent_level n) (children n).

(** Paths run the other way, from the root down: [rev r] for a reference [r]. *)
Fixpoint children_at (p : list nat) (f : list HConfigChild) : list HConfigChild :=
  match p with
  | [] => f
  | i :: q => match f !! i with
              | Some n => children_at q (children n)
              | None => []
              end
  end.

Fixpoint node_at (p : list nat) (f : list HConfigChild) : option HConfigChild :=
  match p with
  | [] => None
  | i :: q => match f !! i with
              | Some n => match q with [] => Some n | _ :: _ => node_at q (children n) end
              | None => None
              end
  end.

(** Replace the child list found at the end of path [p] by [g] of it. *)
Fixpoint alter_children_at (g : list HConfigChild → list HConfigChild)
    (p : list nat) (f : list HConfigChild) : list HConfigChild :=
  match p with
  | [] => g f
  | i :: q => alter (λ n, set_children n (alter_children_at g q (children n))) i f
  end.

(** Replace the node found at the end of path [p] by [g] of it. *)
Fixpoint alter_node_at (g : HConfigChild → HConfigChild)
    (p : list nat) (f : list HConfigChild) : list HConfigChild :=
  match p with
  | [] => f
  | i :: q =>
      match q with
      | [] => alter g i f
      | _ :: _ => alter (λ n, set_children n (alter_node_at g q (children n))) i f
      end
  end.

Fixpoint valid_path (p : list nat) (f : list HConfigChild) : Prop :=
  match p with
  | [] => True
  | i :: q => match f !! i with
              | Some n => valid_path q (children n)
              | None => False
              end
  end.

Definition children_of (t : HConfig) (r : ref) : list HConfigChild :=
  children_at (rev r) (root_children t).

Definition node_of (t : HConfig) (r : ref) : option HConfigChild :=
  node_at (rev r) (root_children t).

Definition valid_ref (t : HConfig) (r : ref) : Prop :=
  valid_path (rev r) (root_children t).

Definition alter_node (g : HConfigChild → HConfigChild) (r : ref) (t : HConfig) : HConfig :=
  mkRoot (root_real_indent_level t) (alter_node_at g (rev r) (root_children t)).

Definition alter_children (g : list HConfigChild → list HConfigChild) (r : ref)
    (t : HConfig) : HConfig :=
  mkRoot (root_real_indent_level t) (alter_children_at g (rev r) (root_children t)).

(** [x.real_indent_level] for the root or a line. *)
Definition real_indent_level_of (t : HConfig) (r : ref) : option Z :=
  match r with
  | [] => root_real_indent_level t
  | _ :: _ => n ← node_of t r; real_indent_level n
  end.

(** [x.real_indent_level = z] *)
Definition assign_real_indent_level (t : HConfig) (r : ref) (z : Z) : HConfig :=
  match r with
  | [] => mkRoot (Some z) (root_children t)
  | _ :: _ => alter_node (set_real_indent_level (Some z)) r t
  end.

(** ** The node primitive, [HConfigBase] (hier_config/base.py) *)

(** Modelled from the spec: the constructor of the root, hier_config/base.py
    is not among the sources.  A new tree has no children (section 3). *)
Definition HConfig_new : HConfig := mkRoot None [].

(** Modelled from the spec: the constructor of a line, hier_config/base.py is
    not among the sources.  Section 3 gives a new node empty tags and
    comments, the default order weight 500 and no children; its indent level
    is set by the parser only. *)
Definition new_child (txt : string) : HConfigChild :=
  mkChild txt ∅ ∅ false 500 None [].

(** Modelled from the spec: [depth()] of hier_config/base.py, one more than
    the parent's (section 3); the root's is 0 ([HConfig.depth]). *)
Definition depth (r : ref) : Z := Z.of_nat (length r).

(** Modelled from the spec: [parent] of hier_config/base.py.  Every node but
    the root has one parent, the root has none (section 3). *)
Definition parent (r : ref) : option ref :=
  match r with
  | [] => None
  | _ :: up => Some up
  end.

(** Modelled from the spec: [lineage()] of hier_config/base.py, the ancestor
    chain, outermost first, and the node itself last (sections 3 and 4.2);
    the root is no member of it, as the comment in [load_from_dump] has it:
    the first member is the parent of a line of depth 2. *)
Fixpoint lineage (r : ref) : list ref :=
  match r with
  | [] => []
  | _ :: up => lineage up ++ [r]
  end.

(** Position of the first child whose text is [txt]. *)
Fixpoint index_of_text (txt : string) (cs : list HConfigChild) : option nat :=
  match cs with
  | [] => None
  | c :: cs' => if decide (text c = txt) then Some O
                else S <$> index_of_text txt cs'
  end.

(** Modelled from the spec: [text in node] of hier_config/base.py, whether a
    direct child has that text (section 4.5). *)
Definition has_child (cs : list HConfigChild) (txt : string) : bool :=
  bool_decide (is_Some (index_of_text txt cs)).

(** Modelled from the spec: [add_child(text, alert_on_duplicate, idx,
    force_duplicate)] of hier_config/base.py on the child list of a node.  A
    new child is appended (children are ordered by insertion, section 3);
    unless [force_duplicate] is set, a child of the same text is returned
    instead of a second one (section 4.8: only [load_from_dump] never
    coalesces with a same-text sibling).  Gives the new child list and the
    position of the child. *)
Definition add_child_to (cs : list HConfigChild) (txt : string) (force_duplicate : bool)
    : list HConfigChild * nat :=
  match (if force_duplicate then None else index_of_text txt cs) with
  | Some i => (cs, i)
  | None => (cs ++ [new_child txt], length cs)
  end.

(** [x.add_child(...)] for the node or root [x] at reference [r]. *)
Definition add_child (t : HConfig) (r : ref) (txt : string) (force_duplicate : bool)
    : HConfig * ref :=
  (alter_children (λ cs, (add_child_to cs txt force_duplicate).1) r t,
   (add_child_to (children_of t r) txt force_duplicate).2 :: r).

(** Modelled from the spec: [del_child_by_text(text)] of hier_config/base.py,
    which removes every direct child of that text (section 4.5). *)
Definition del_child_by_text (cs : list HConfigChild) (txt : string) : list HConfigChild :=
  filter (λ c, text c ≠ txt) cs.

(** ** Options and rules *)

Record sub_rule : Type := mkSub { search : string; replace : string }.

Record indent_rule : Type := mkIndent {
  start_expression : string;
  end_expression : string
}.

Inductive match_kind : Type := Equals | Startswith | Endswith | Contains | Regex.

(** One level of a lineage rule: a match kind, possibly negated, and its
    expression (section 3). *)
Record specifier : Type := mkSpec {
  kind : match_kind;
  negated : bool;
  expression : string
}.

Definition lineage_rule : Type := list specifier.

Record ordering_rule : Type := mkOrdering {
  ordering_lineage : lineage_rule;
  order : Z
}.

Record exiting_rule : Type := mkExiting {
  exiting_lineage : lineage_rule;
  exit_text : string
}.

(** [self.options]: a dictionary with at most the five keys of section 3.
    A key that is absent is [None]; reading it raises [KeyError]. *)
Record Options : Type := mkOptions {
  full_text_sub : option (list sub_rule);
  per_line_sub : option (list sub_rule);
  indent_adjust : option (list indent_rule);
  ordering : option (list ordering_rule);
  sectional_exiting : option (list exiting_rule)
}.

(** The local variables of [load_from_string], and the tree. *)
Record pstate : Type := mkState {
  tree : HConfig;
  current_section : ref;
  most_recent_item : ref;
  indent_adjust_now : Z;
  end_indent_adjust : list string;
  temp_banner : list string;
  in_banner : bool;
  banner_end_lines : list string;
  banner_end_contains : list string
}.

Definition newline : string := String (ascii_of_nat 10) EmptyString.

Section WithRegex.

(** Python's [re.sub(pattern, repl, string)] and the truth value of
    [re.search(pattern, string)], for patterns that compile. *)
Variable re_sub : string → string → string → string.
Variable re_search : string → string → bool.
(** The positive form of a negated command, for [strip_negation]. *)
Variable strip_negation_of : string → string.

(** *** RuleEngine *)

Definition specifier_test (s : specifier) (txt : string) : bool :=
  let hit :=
    match kind s with
    | Equals => bool_decide (txt = expression s)
    | Startswith => PyStr.startswith txt (expression s)
    | Endswith => PyStr.startswith (String.rev txt) (String.rev (expression s))
    | Contains => PyStr.contains txt (expression s)
    | Regex => re_search (expression s) txt
    end in
  if negated s then negb hit else hit.

Fixpoint positions_match (rule : lineage_rule) (texts : list string) : bool :=
  match rule, texts with
  | [], [] => true
  | s :: rule', txt :: texts' => specifier_test s txt && positions_match rule' texts'
  | _, _ => false
  end.

(** Modelled from the spec: [lineage_test(rule, strip_negation)] of
    hier_config/base.py, on the texts of the lineage of a node, outermost
    first (section 4.2): position by position against the specifier of the
    same position, all of them matching. *)
Definition lineage_test (rule : lineage_rule) (strip_negation : bool)
    (texts : list string) : bool :=
  positions_match rule
    (if strip_negation then strip_negation_of <$> texts else texts).

(** The texts of the lineage of the node at [r], outermost first. *)
Definition lineage_texts (t : HConfig) (r : ref) : list string :=
  omap (λ a, text <$> node_of t a) (lineage r).

(** *** TextParser: [load_from_string] *)

Definition end_of_banner_test (end_lines end_contains : list string)
    (config_line : string) : bool :=
  if PyStr.startswith config_line "^" then true
  else if bool_decide (config_line ∈ end_lines) then true
  else if existsb (λ c, PyStr.contains config_line c) end_contains then true
  else false.

(** [while this_indent <= current_section.real_indent_level:
       current_section = current_section.parent] *)
Fixpoint walk_up (t : HConfig) (this_indent : Z) (r : ref) : exn + ref :=
  match real_indent_level_of t r with
  | None => inl TypeError
  | Some lvl =>
      if bool_decide (this_indent ≤ lvl) then
        match r with
        | [] => inl AttributeError
        | _ :: up => walk_up t this_indent up
        end
      else inr r
  end.

(** The [in_banner] branch of the loop body. *)
Definition banner_line (st : pstate) (line : string) : pstate :=
  let tb := if bool_decide (line ≠ "!") then temp_banner st ++ [line]
            else temp_banner st in
  if end_of_banner_test (banner_end_lines st) (banner_end_contains st) line then
    let added := add_child (tree st) [] (PyStr.join newline tb) false in
    mkState (assign_real_indent_level added.1 added.2 0) [] added.2
            (indent_adjust_now st) (end_indent_adjust st)
            [] false (banner_end_lines st) (banner_end_contains st)
  else
    mkState (tree st) (current_section st) (most_recent_item st)
            (indent_adjust_now st) (end_indent_adjust st)
            tb true (banner_end_lines st) (banner_end_contains st).

(** The start of a banner: the third word gives the end markers. *)
Definition banner_start (st : pstate) (line : string) : pstate :=
  let banner_words := PyStr.split line in
  match banner_words !! 2%nat with
  | Some w =>
      mkState (tree st) (current_section st) (most_recent_item st)
              (indent_adjust_now st) (end_indent_adjust st)
              (temp_banner st ++ [line]) true
              (banner_end_lines st ++ [PyStr.slice_to 1 w; PyStr.slice_to 2 w])
              (banner_end_contains st ++ [w])
  | None =>
      mkState (tree st) (current_section st) (most_recent_item st)
              (indent_adjust_now st) (end_indent_adjust st)
              (temp_banner st ++ [line]) true
              (banner_end_lines st) (banner_end_contains st)
  end.

(** The indent accounting after a node has been placed. *)
Definition adjust_indent (rules : list indent_rule) (line : string)
    (acc : Z) (pending : list string) : Z * list string :=
  let started :=
    match List.find (λ e, re_search (start_expression e) line) rules with
    | Some e => (acc + 1, pending ++ [end_expression e])
    | None => (acc, pending)
    end in
  match started.2 with
  | e :: rest => if re_search e line then (started.1 - 1, rest) else started
  | [] => started
  end.

(** Tree placement of a line of effective indent [this_indent]. *)
Definition place_line (opts : Options) (st : pstate) (this_indent : Z)
    (line : string) : pstate * option exn :=
  match walk_up (tree st) this_indent (current_section st) with
  | inl e => (st, Some e)
  | inr section =>
      match real_indent_level_of (tree st) (most_recent_item st) with
      | None => (st, Some TypeError)
      | Some lvl =>
          let section' :=
            if bool_decide (this_indent > lvl) then most_recent_item st
            else section in
          let added := add_child (tree st) section' line false in
          let t' := assign_real_indent_level added.1 added.2 this_indent in
          match indent_adjust opts with
          | None =>
              (mkState t' section' added.2
                       (indent_adjust_now st) (end_indent_adjust st)
                       (temp_banner st) (in_banner st)
                       (banner_end_lines st) (banner_end_contains st),
               Some (KeyError "indent_adjust"))
          | Some rules =>
              let adj := adjust_indent rules line (indent_adjust_now st)
                                       (end_indent_adjust st) in
              (mkState t' section' added.2 adj.1 adj.2
                       (temp_banner st) (in_banner st)
                       (banner_end_lines st) (banner_end_contains st),
               None)
          end
      end
  end.

(** The text of a line as the loop body works on it: blanks squeezed, the
    leading ones kept, the [per_line_sub] rewrites, trailing blanks cut. *)
Definition normalize_line (subs : list sub_rule) (line : string) : string :=
  let actual_indent :=
    (String.length line - String.length (PyStr.lstrip line))%nat in
  let line1 := (PyStr.spaces actual_indent
                 +:+ PyStr.join " " (PyStr.split line)) in
  PyStr.rstrip
    (fold_left (λ l sub, re_sub (search sub) (replace sub) l) subs line1).

(** [this_indent = len(line) - len(line.lstrip()) + indent_adjust] *)
Definition effective_indent (st : pstate) (line : string) : Z :=
  PyStr.len line - PyStr.len (PyStr.lstrip line) + indent_adjust_now st.

(** The loop body outside a banner, for a line that starts none. *)
Definition normal_line (opts : Options) (st : pstate) (line : string)
    : pstate * option exn :=
  match per_line_sub opts with
  | None => (st, Some (KeyError "per_line_sub"))
  | Some subs =>
      let line' := normalize_line subs line in
      if PyStr.is_empty line' then (st, None)
      else place_line opts st (effective_indent st line') (PyStr.lstrip line')
  end.

(** One turn of [for line in config_text.splitlines()]. *)
Definition parse_line (opts : Options) (st : pstate) (line : string)
    : pstate * option exn :=
  if in_banner st then (banner_line st line, None)
  else if PyStr.startswith line "banner " then (banner_start st line, None)
  else normal_line opts st line.

Fixpoint parse_lines (opts : Options) (st : pstate) (lines : list string)
    : pstate * option exn :=
  match lines with
  | [] => (st, None)
  | line :: rest =>
      match parse_line opts st line with
      | (st', None) => parse_lines opts st' rest
      | (st', Some e) => (st', Some e)
      end
  end.

Definition initial_state (t : HConfig) : pstate :=
  mkState (assign_real_indent_level t [] (-1)) [] [] 0 [] [] false
          ["EOF"; "%"; "!"] [].

(** [load_from_string(config_text)] on the tree [t]: the tree afterwards,
    and the exception raised, if any. *)
Definition load_from_string (opts : Options) (config_text : string) (t : HConfig)
    : HConfig * option exn :=
  match full_text_sub opts with
  | None => (t, Some (KeyError "full_text_sub"))
  | Some subs =>
      let config_text' :=
        fold_left (λ s sub, re_sub (search sub) (replace sub) s) subs config_text in
      match parse_lines opts (initial_state t) (PyStr.splitlines config_text') with
      | (st, Some e) => (tree st, Some e)
      | (st, None) =>
          if in_banner st then (tree st, Some AssertionError)
          else (tree st, None)
      end
  end.

(** *** SortedTraversal *)

(** Modelled from the spec: the order of [sorted(children)], for which
    hier_config/base.py compares lines: by order weight, lines of equal
    weight staying in insertion order (section 4.7).  An insertion sort
    that puts an element before the first one that is not smaller. *)
Fixpoint insert_by {A : Type} (key : A → Z) (x : A) (l : list A) : list A :=
  match l with
  | [] => [x]
  | y :: l' => if bool_decide (key y < key x) then y :: insert_by key x l'
               else x :: l
  end.

Definition sorted_by {A : Type} (key : A → Z) (l : list A) : list A :=
  foldr (insert_by key) [] l.

(** Modelled from the spec: [all_children_sorted()] of hier_config/base.py
    below the line [n] at reference [here]: the children in sorted order,
    each followed by its own sorted descendants (section 4.7, recursively
    pre-order).  Each line comes with its reference. *)
Fixpoint all_children_sorted_below (here : ref) (n : HConfigChild)
    : list (ref * HConfigChild) :=
  concat
    (snd <$> sorted_by fst
       ((fix each (i : nat) (cs : list HConfigChild) :=
           match cs with
           | [] => []
           | c :: cs' =>
               (order_weight c,
                (i :: here, c) :: all_children_sorted_below (i :: here) c)
               :: each (S i) cs'
           end) O (children n))).

(** [self.all_children_sorted()] on the root. *)
Definition all_children_sorted (t : HConfig) : list (ref * HConfigChild) :=
  concat
    (snd <$> sorted_by fst
       (imap (λ i c, (order_weight c,
                      ([i], c) :: all_children_sorted_below [i] c))
             (root_children t))).

(** [for ancestor in child.lineage():
       if ancestor in yielded: continue
       yield ancestor; yielded.add(ancestor)] *)
Fixpoint yield_lineage (lin : list ref) (yielded : gset ref)
    : list ref * gset ref :=
  match lin with
  | [] => ([], yielded)
  | ancestor :: rest =>
      if bool_decide (ancestor ∈ yielded) then yield_lineage rest yielded
      else let r := yield_lineage rest ({[ancestor]} ∪ yielded) in
           (ancestor :: r.1, r.2)
  end.

(** The sets [yielded] and [matched] of the filtered traversal.  They hold
    node objects, which are told apart by their place in the tree. *)
Record marks : Type := mkMarks { yielded : gset ref; matched : gset ref }.

(** One turn of the loop over [self.all_children_sorted()]: the lines it
    yields, and the sets afterwards. *)
Definition visit (rules : list lineage_rule) (t : HConfig) (m : marks)
    (child : ref) : list ref * marks :=
  if existsb (λ ancestor, bool_decide (ancestor ∈ matched m)) (lineage child)
  then ([child], mkMarks ({[child]} ∪ yielded m) (matched m))
  else
    match List.find (λ rule, lineage_test rule false (lineage_texts t child)) rules with
    | Some _ =>
        let r := yield_lineage (lineage child) (yielded m) in
        (r.1, mkMarks r.2 ({[child]} ∪ matched m))
    | None => ([], m)
    end.

Fixpoint filtered_pass (rules : list lineage_rule) (t : HConfig) (m : marks)
    (seq : list ref) : list ref :=
  match seq with
  | [] => []
  | child :: rest =>
      let r := visit rules t m child in
      r.1 ++ filtered_pass rules t r.2 rest
  end.

(** The sets [yielded] and [matched] once the loop has gone over [seq]. *)
Definition marks_after (rules : list lineage_rule) (t : HConfig) (m : marks)
    (seq : list ref) : marks :=
  fold_left (λ m' child, (visit rules t m' child).2) seq m.

(** The lines yielded by [all_children_sorted_with_lineage_rules(rules)],
    in the order they are yielded. *)
Definition all_children_sorted_with_lineage_rules (rules : list lineage_rule)
    (t : HConfig) : list ref :=
  filtered_pass rules t (mkMarks ∅ ∅) (fst <$> all_children_sorted t).

(** *** Serializer *)

(** One dictionary of a dump. *)
Record dump_item : Type := mkItem {
  item_depth : Z;
  item_text : string;
  item_tags : list string;
  item_comments : list string;
  item_new_in_config : bool
}.

Definition item_of (r : ref) (child : HConfigChild) : dump_item :=
  mkItem (depth r) (text child) (elements (tags child))
         (elements (comments child)) (new_in_config child).

(** [dump(lineage_rules)]: an absent or empty rule list is false. *)
Definition dump (t : HConfig) (lineage_rules : option (list lineage_rule))
    : list dump_item :=
  match lineage_rules with
  | Some (rule :: rules) =>
      omap (λ r, item_of r <$> node_of t r)
           (all_children_sorted_with_lineage_rules (rule :: rules) t)
  | _ => (λ rc, item_of rc.1 rc.2) <$> all_children_sorted t
  end.

(** [next(islice(it, start, stop))] *)
Definition islice_next {A : Type} (it : list A) (start stop : Z) : exn + A :=
  if bool_decide (start < 0 ∨ stop < 0) then inl ValueError
  else match (if bool_decide (start < stop) then it !! Z.to_nat start else None) with
       | Some x => inr x
       | None => inl StopIteration
       end.

(** The parent that [load_from_dump] picks for an item of depth [d]. *)
Definition parent_for (last_item : ref) (d : Z) : exn + ref :=
  if bool_decide (d = 1) then inr []
  else if bool_decide (depth last_item = d) then
    match parent last_item with
    | Some p => inr p
    | None => inl AttributeError
    end
  else if bool_decide (depth last_item + 1 = d) then inr last_item
  else islice_next (lineage last_item) (d - 2) (d - 1).

(** The loop of [load_from_dump]: the tree, [last_item] and the exception
    raised, if any, when it stops. *)
Fixpoint load_items (t : HConfig) (last_item : ref) (items : list dump_item)
    : HConfig * ref * option exn :=
  match items with
  | [] => (t, last_item, None)
  | item :: rest =>
      match parent_for last_item (item_depth item) with
      | inl e => (t, last_item, Some e)
      | inr p =>
          let added := add_child t p (item_text item) true in
          let t' := alter_node
                      (set_payload (list_to_set (item_tags item))
                                   (list_to_set (item_comments item))
                                   (item_new_in_config item))
                      added.2 added.1 in
          load_items t' added.2 rest
      end
  end.

(** [load_from_dump(dump)] on the tree [t]. *)
Definition load_from_dump (items : list dump_item) (t : HConfig)
    : HConfig * option exn :=
  let r := load_items t [] items in (r.1.1, r.2).

(** *** SectionalExiter *)

(** The body of the loop over the rules, for the line [child] whose
    lineage has the texts [texts]. *)
Definition exit_rule_on (texts : list string) (child : HConfigChild)
    (rule : exiting_rule) : HConfigChild :=
  if lineage_test (exiting_lineage rule) false texts then
    let cs := if has_child (children child) (exit_text rule)
              then del_child_by_text (children child) (exit_text rule)
              else children child in
    let added := add_child_to cs (exit_text rule) false in
    set_children child (alter (set_order_weight_of 999) added.2 added.1)
  else child.

(** Modelled from the spec: the walk of [all_children()] of
    hier_config/base.py, a generator over the child lists as they are when
    the walk reaches them: each child, then its descendants (section 4.5,
    every node).  The body of [add_sectional_exiting] runs on each line
    before the walk goes below it.  [fuel] bounds the depth of the walk. *)
Fixpoint exit_walk (fuel : nat) (rules : list exiting_rule) (above : list string)
    (cs : list HConfigChild) : option (list HConfigChild) :=
  match fuel with
  | O => None
  | S fuel' =>
      mapM (λ child,
              let texts := above ++ [text child] in
              let child' := fold_left (exit_rule_on texts) rules child in
              set_children child' <$> exit_walk fuel' rules texts (children child'))
           cs
  end.

(** [add_sectional_exiting()]: [None] when [fuel] is too small. *)
Definition add_sectional_exiting (fuel : nat) (opts : Options) (t : HConfig)
    : option (HConfig * option exn) :=
  match root_children t with
  | [] => Some (t, None)
  | _ :: _ =>
      match sectional_exiting opts with
      | None => Some (t, Some (KeyError "sectional_exiting"))
      | Some rules =>
          cs ← exit_walk fuel rules [] (root_children t);
          Some (mkRoot (root_real_indent_level t) cs, None)
      end
  end.

(** Every line at or below [n], whose ancestors have the texts [above], and
    which a rule matches, has exactly one child with the exit text of the
    rule, of order weight 999. *)
Inductive exits_ok (rules : list exiting_rule) : list string → HConfigChild → Prop :=
| exits_ok_node (above : list string) (n : HConfigChild) :
    (∀ rule, rule ∈ rules →
       lineage_test (exiting_lineage rule) false (above ++ [text n]) = true →
       ∃ c, filter (λ c, text c = exit_text rule) (children n) = [c]
            ∧ order_weight c = 999) →
    Forall (exits_ok rules (above ++ [text n])) (children n) →
    exits_ok rules above n.

(** The exit texts of the rules that match a line whose lineage has the
    texts [texts]. *)
Definition matching_exit_texts (texts : list string) (rules : list exiting_rule)
    : list string :=
  exit_text <$> filter (λ rule, lineage_test (exiting_lineage rule) false texts = true) rules.

Definition exits_ok_tree (rules : list exiting_rule) (t : HConfig) : Prop :=
  Forall (exits_ok rules []) (root_children t).

(** Every line at or below [n], whose ancestors have the texts [above], and
    which a rule matches, has an exit line of order weight 999 as the last of
    its children in sorted order, when no child of it has a greater
    weight. *)
Inductive exits_last (rules : list exiting_rule) : list string → HConfigChild → Prop :=
| exits_last_node (above : list string) (n : HConfigChild) :
    ((∃ rule, rule ∈ rules
              ∧ lineage_test (exiting_lineage rule) false (above ++ [text n]) = true) →
     Forall (λ c, order_weight c ≤ 999) (children n) →
     ∃ c, last (sorted_by order_weight (children n)) = Some c
          ∧ order_weight c = 999
          ∧ text c ∈ matching_exit_texts (above ++ [text n]) rules) →
    Forall (exits_last rules (above ++ [text n])) (children n) →
    exits_last rules above n.

(** *** ACLTransformer *)

(** Modelled from the spec: equality of lines, hier_config/base.py is not
    among the sources (section 6): the same text, tags, comments and
    [new_in_config], and equal children. *)
Fixpoint HConfigChild_eqb (a b : HConfigChild) : bool :=
  bool_decide (text a = text b) && bool_decide (tags a = tags b)
  && bool_decide (comments a = comments b)
  && bool_decide (new_in_config a = new_in_config b)
  && (fix all2 (l1 l2 : list HConfigChild) :=
        match l1, l2 with
        | [], [] => true
        | x :: l1', y :: l2' => HConfigChild_eqb x y && all2 l1' l2'
        | _, _ => false
        end) (children a) (children b).

(** [l.remove(x)]: the first element equal to [x] goes. *)
Fixpoint list_remove (x : HConfigChild) (l : list HConfigChild) : list HConfigChild :=
  match l with
  | [] => []
  | y :: l' => if HConfigChild_eqb y x then l' else y :: list_remove x l'
  end.

(** [for entry in acl.children:
       if entry.text.startswith('remark'): acl.children.remove(entry)]
    The iterator of a Python list holds a position [i] into the list as it
    is now, and stops when the position is past its end.  Every turn moves
    the position on and the list never grows, so [length cs] turns are
    enough as [fuel]. *)
Fixpoint remove_remarks_loop (fuel : nat) (i : nat) (cs : list HConfigChild)
    : list HConfigChild :=
  match fuel with
  | O => cs
  | S fuel' =>
      match cs !! i with
      | None => cs
      | Some entry =>
          remove_remarks_loop fuel' (S i)
            (if PyStr.startswith (text entry) "remark" then list_remove entry cs
             else cs)
      end
  end.

(** Modelled from the spec: the test of [get_children('startswith', e)] of
    hier_config/base.py, which gives the children whose text starts with [e]
    (section 4.6: the nodes that begin an access-list block). *)
Definition get_children_startswith (e : string) (c : HConfigChild) : bool :=
  PyStr.startswith (text c) e.

(** [_remove_acl_remarks()]: the loop runs on every child of the root that
    [get_children] gives, and leaves the others as they are. *)
Definition _remove_acl_remarks (t : HConfig) : HConfig :=
  mkRoot (root_real_indent_level t)
    ((λ acl, if get_children_startswith "ip access-list " acl
             then set_children acl
                    (remove_remarks_loop (length (children acl)) O (children acl))
             else acl) <$> root_children t).

(** [x.text = txt] and [x.tags = tg] for a line [x]. *)
Definition set_text (txt : string) (n : HConfigChild) : HConfigChild :=
  mkChild txt (tags n) (comments n) (new_in_config n) (order_weight n)
          (real_indent_level n) (children n).

Definition set_tags (tg : gset string) (n : HConfigChild) : HConfigChild :=
  mkChild (text n) tg (comments n) (new_in_config n) (order_weight n)
          (real_indent_level n) (children n).

(** [text.startswith(prefixes)] for a tuple of prefixes. *)
Definition startswith_any (s : string) (prefixes : list string) : bool :=
  existsb (PyStr.startswith s) prefixes.

(** ["{} {}".format(sn, text)] for an integer [sn]. *)
Definition numbered (sn : Z) (txt : string) : string :=
  NilZero.string_of_int (Z.to_int sn) +:+ " " +:+ txt.

(** [for sub_child in child.children:
       if sub_child.text.startswith(acl_line_sw):
           sub_child.text = "{} {}".format(sn, sub_child.text)
           sn += 10] *)
Fixpoint number_entries (acl_line_sw : list string) (sn : Z) (cs : list HConfigChild)
    : list HConfigChild :=
  match cs with
  | [] => []
  | sub_child :: rest =>
      if startswith_any (text sub_child) acl_line_sw
      then set_text (numbered sn (text sub_child)) sub_child
           :: number_entries acl_line_sw (sn + 10) rest
      else sub_child :: number_entries acl_line_sw sn rest
  end.

(** The prefixes of the entries that get a number, for the [os] of the
    host. *)
Definition acl_line_sw (os : string) : list string :=
  if bool_decide (os = "ios") then ["permit"; "deny"]
  else ["permit"; "deny"; "remark"].

(** [_add_acl_sequence_numbers()], where [os] is [self.host.os]. *)
Definition _add_acl_sequence_numbers (os : string) (t : HConfig) : HConfig :=
  mkRoot (root_real_indent_level t)
    ((λ child, if PyStr.startswith (text child) "ip access-list"
               then set_children child
                      (number_entries (acl_line_sw os) 10 (children child))
               else child) <$> root_children t).

(** [entry.text = ' '.join(entry.text.split()[2:])] on the entries that
    start with [sequence]. *)
Definition rm_sequence_number (entry : HConfigChild) : HConfigChild :=
  if PyStr.startswith (text entry) "sequence"
  then set_text (PyStr.join " " (drop 2 (PyStr.split (text entry)))) entry
  else entry.

(** [_rm_ipv6_acl_sequence_numbers()] *)
Definition _rm_ipv6_acl_sequence_numbers (t : HConfig) : HConfig :=
  mkRoot (root_real_indent_level t)
    ((λ acl, if get_children_startswith "ipv6 access-list " acl
             then set_children acl (rm_sequence_number <$> children acl)
             else acl) <$> root_children t).

(** *** Orderer *)

(** The body of the loop over the rules of [set_order_weight], for the line
    [child] whose lineage has the texts [texts]. *)
Definition order_rule_on (texts : list string) (child : HConfigChild)
    (rule : ordering_rule) : HConfigChild :=
  if lineage_test (ordering_lineage rule) false texts
  then set_order_weight_of (order rule) child
  else child.

(** The walk of [all_children()] for [set_order_weight], on the line [n],
    whose ancestors have the texts [above], and on the lines below it.  The
    body changes no child list and no text, so the walk meets the lines
    that the tree had before. *)
Fixpoint order_walk (rules : list ordering_rule) (above : list string)
    (n : HConfigChild) : HConfigChild :=
  let texts := above ++ [text n] in
  set_children (fold_left (order_rule_on texts) rules n)
    (order_walk rules texts <$> children n).

(** [set_order_weight()]: the options are read when the walk gives its
    first line. *)
Definition set_order_weight (opts : Options) (t : HConfig) : HConfig * option exn :=
  match root_children t with
  | [] => (t, None)
  | _ :: _ =>
      match ordering opts with
      | None => (t, Some (KeyError "ordering"))
      | Some rules =>
          (mkRoot (root_real_indent_level t) (order_walk rules [] <$> root_children t),
           None)
      end
  end.

(** The order weight that the rules give a line of weight [w] whose
    lineage has the texts [texts]: that of the last rule that matches, and
    [w] when none does. *)
Definition weight_after (rules : list ordering_rule) (texts : list string) (w : Z) : Z :=
  default w
    (order <$> last (filter (λ rule, lineage_test (ordering_lineage rule) false texts = true)
                            rules)).

(** *** Tagger *)







(** *** The lines of the filtered traversal *)

(** Some rule matches the line at [r]. *)
Definition rule_hit (rules : list lineage_rule) (t : HConfig) (r : ref) : Prop :=
  Exists (λ rule, lineage_test rule false (lineage_texts t r) = true) rules.

(** Among the lines [seq], a line that a rule matches is the line at [r],
    an ancestor of it, or a line below it. *)
Definition wanted_among (rules : list lineage_rule) (t : HConfig) (seq : list ref)
    (r : ref) : Prop :=
  Exists (λ h, rule_hit rules t h ∧ (h `suffix_of` r ∨ r `suffix_of` h)) seq.

(** *** The tree as a whole *)

(** [HConfig.tags]:
    [t = set()
     for child in self.children: t.update(child.tags)] *)
Definition HConfig_tags (t : HConfig) : gset string :=
  fold_left (λ acc child, acc ∪ tags child) (root_children t) ∅.

(** [HConfig.tags = value]:
    [for child in self.children: child.tags = value] *)
Definition HConfig_set_tags (value : gset string) (t : HConfig) : HConfig :=
  mkRoot (root_real_indent_level t) (set_tags value <$> root_children t).

(** [HConfig.__eq__(other)]: the children of both trees in sorted order,
    pair by pair. *)
Definition HConfig_eq (self other : HConfig) : bool :=
  if bool_decide (length (root_children self) ≠ length (root_children other))
  then false
  else forallb (λ p, HConfigChild_eqb p.1 p.2)
         (zip (sorted_by order_weight (root_children self))
              (sorted_by order_weight (root_children other))).

End WithRegex.

(** ** Notions the properties are stated with *)

(** The cursor goes up from [r] to [r'] for an indent [this_indent]: every
    section left behind has a level that is not smaller than the indent, and
    the one where it stops has a smaller level. *)
Inductive ascends (t : HConfig) (this_indent : Z) : ref → ref → Prop :=
| ascends_stop (r : ref) (lvl : Z) :
    real_indent_level_of t r = Some lvl →
    lvl < this_indent →
    ascends t this_indent r r
| ascends_step (i : nat) (up r' : ref) (lvl : Z) :
    real_indent_level_of t (i :: up) = Some lvl →
    this_indent ≤ lvl →
    ascends t this_indent up r' →
    ascends t this_indent (i :: up) r'.

(** The node at [r] and all its ancestors, the root too, have an indent
    level. *)
Definition levels_known (t : HConfig) (r : ref) : Prop :=
  ∀ r', r' `suffix_of` r → is_Some (real_indent_level_of t r').

(** What holds of the local variables of [load_from_string] between two
    turns of its loop. *)
Record parser_inv (st : pstate) : Prop := mkParserInv {
  inv_root : root_real_indent_level (tree st) = Some (-1);
  inv_section_valid : valid_ref (tree st) (current_section st);
  inv_recent_valid : valid_ref (tree st) (most_recent_item st);
  inv_section_levels : levels_known (tree st) (current_section st);
  inv_recent_levels : levels_known (tree st) (most_recent_item st);
  inv_adjust : indent_adjust_now st = Z.of_nat (length (end_indent_adjust st));
  inv_end_lines : Forall (λ l, l ∈ banner_end_lines st) ["EOF"; "%"; "!"]
}.

(** Whether the lines end inside a banner: a line that starts with the
    banner keyword opened one, and no later line met an end marker.
    [inside] tells whether a banner is open before the first line. *)
Fixpoint ends_inside_banner (inside : bool) (end_lines end_contains : list string)
    (lines : list string) : bool :=
  match lines with
  | [] => inside
  | line :: rest =>
      if inside then
        ends_inside_banner (negb (end_of_banner_test end_lines end_contains line))
                           end_lines end_contains rest
      else if PyStr.startswith line "banner " then
        match PyStr.split line !! 2%nat with
        | Some w =>
            ends_inside_banner true
              (end_lines ++ [PyStr.slice_to 1 w; PyStr.slice_to 2 w])
              (end_contains ++ [w]) rest
        | None => ends_inside_banner true end_lines end_contains rest
        end
      else ends_inside_banner false end_lines end_contains rest
  end.

(** Options with every key present and no rule. *)
Definition empty_options : Options :=
  mkOptions (Some []) (Some []) (Some []) (Some []) (Some []).

(** What [re] does on the examples below: a pattern without metacharacters
    is found where it is a substring, and the examples hold no rewrite rule,
    so that [re.sub] is never called on them. *)
Definition literal_search (pattern s : string) : bool := PyStr.contains s pattern.
Definition literal_sub (pattern repl s : string) : string := s.

(** The two examples of section 8. *)
Definition interfaces_example : string :=
  "interface GigabitEthernet0/1" +:+ newline +:+
  " description uplink" +:+ newline +:+
  " no shutdown" +:+ newline +:+
  "interface GigabitEthernet0/2" +:+ newline +:+
  " shutdown" +:+ newline.

Definition banner_example : string :=
  "banner motd ^C" +:+ newline +:+
  "Welcome to the device" +:+ newline +:+
  "^C" +:+ newline.

(** The children of a section after [x = section.add_child(line, ...)] and
    [x.real_indent_level = z], where [k] is the position of [x]. *)
Definition placing (txt : string) (force : bool) (z : Z) (k : nat)
    (cs : list HConfigChild) : list HConfigChild :=
  alter (set_real_indent_level (Some z)) k (add_child_to cs txt force).1.

(** A line as the parser leaves it: the defaults of a new line, the indent
    level [lvl] and the children [cs]. *)
Definition parsed (txt : string) (lvl : Z) (cs : list HConfigChild) : HConfigChild :=
  mkChild txt ∅ ∅ false 500 (Some lvl) cs.

(** A banner that the text does not close. *)
Definition unterminated_banner_example : string :=
  "banner motd ^C" +:+ newline +:+ "Welcome to the device" +:+ newline.

(** Options without the key [ordering]. *)
Definition options_without_ordering : Options :=
  mkOptions (Some []) (Some []) (Some []) None (Some []).

(** Options without the key [indent_adjust]. *)
Definition options_without_indent_adjust : Options :=
  mkOptions (Some []) (Some []) None (Some []) (Some []).

(** Two lines that leave the parser inside a banner. *)
Definition banner_open_lines : list string := ["banner motd ^C"; "Welcome"].

(** An access list with two remarks in a row. *)
Definition acl_example : HConfig :=
  mkRoot None
    [set_children (new_child "ip access-list extended FOO")
       [new_child "remark a"; new_child "remark b"; new_child "permit ip any any"]].



(** The dictionary of the line [c] at depth [d]. *)
Definition item_at (d : Z) (c : HConfigChild) : dump_item :=
  mkItem d (text c) (elements (tags c)) (elements (comments c)) (new_in_config c).

(** The items of the lines below [n], which are at depth [d] and deeper, in
    the order of the sorted traversal. *)
Fixpoint dump_below (d : Z) (n : HConfigChild) : list dump_item :=
  concat
    (snd <$> sorted_by fst
       ((fix each (cs : list HConfigChild) :=
           match cs with
           | [] => []
           | c :: cs' =>
               (order_weight c, item_at d c :: dump_below (d + 1) c) :: each cs'
           end) (children n))).

(** The items of the lines [cs], at depth [d], and of all lines below them. *)
Definition dump_forest (d : Z) (cs : list HConfigChild) : list dump_item :=
  concat ((λ c, item_at d c :: dump_below (d + 1) c) <$> sorted_by order_weight cs).

(** The line that loading the dump of [n] builds: the text, tags, comments
    and [new_in_config] of [n], a new line otherwise, and the children in
    sorted order. *)
Fixpoint loaded_form (n : HConfigChild) : HConfigChild :=
  mkChild (text n) (tags n) (comments n) (new_in_config n) 500 None
    (snd <$> sorted_by fst
       ((fix each (cs : list HConfigChild) :=
           match cs with
           | [] => []
           | c :: cs' => (order_weight c, loaded_form c) :: each cs'
           end) (children n))).

Definition loaded_tree (t : HConfig) : HConfig :=
  mkRoot None (loaded_form <$> sorted_by order_weight (root_children t)).

(** Loading the dump of the lines [cs] under [P] appends what
    [loaded_form] says, in sorted order. *)
Definition loads_below (cs : list HConfigChild) : Prop :=
  ∀ (d : Z) (t : HConfig) (P last_item : ref),
    valid_ref t P → depth P + 1 = d → P `suffix_of` last_item →
    ∃ last_item',
      load_items t last_item (dump_forest d cs)
      = (alter_children (λ old, old ++ (loaded_form <$> sorted_by order_weight cs)) P t,
         last_item', None)
      ∧ P `suffix_of` last_item'.

(** In a sequence of lines, no line comes after a line below it (or after
    itself): what a parent-first walk of a tree gives. *)
Fixpoint pre_order (seq : list ref) : Prop :=
  match seq with
  | [] => True
  | c :: rest => Forall (λ d, ¬ d `suffix_of` c) rest ∧ pre_order rest
  end.

(** Nothing that the loop has still to visit is marked, nor an ancestor of
    a marked line. *)
Definition marks_behind (m : marks) (rest : list ref) : Prop :=
  ∀ y, y ∈ yielded m ∨ y ∈ matched m → Forall (λ c, ¬ c `suffix_of` y) rest.

(** What claim C4 says is yielded when a line matches a rule for the first
    time: its ancestors that are not yet yielded, the nearest one first, and
    not the line itself. *)
Definition yielded_as_claimed (already : gset ref) (child : ref) : list ref :=
  filter (λ a, a ∉ already) (rev (lineage (default [] (parent child)))).

(** A tree with three lines, one below the other, and a rule that matches
    the innermost line only. *)
Definition lineage_example : HConfig :=
  mkRoot None
    [set_children (new_child "router bgp 1")
       [set_children (new_child "address-family ipv4")
          [new_child "network 10.0.0.0"]]].

Definition lineage_example_rule : lineage_rule :=
  [mkSpec Startswith false "router bgp"; mkSpec Startswith false "address-family";
   mkSpec Startswith false "network"].

(** The children [cs] with their positions, in sorted order. *)
Definition sorted_positions (cs : list HConfigChild) : list (nat * HConfigChild) :=
  sorted_by (order_weight ∘ snd) (imap pair cs).

(** The number of levels of a line and the lines below it. *)
Fixpoint height (n : HConfigChild) : nat :=
  S ((fix highest (cs : list HConfigChild) : nat :=
        match cs with
        | [] => O
        | c :: cs' => Nat.max (height c) (highest cs')
        end) (children n)).

Definition forest_height (cs : list HConfigChild) : nat :=
  foldr (λ c h, Nat.max (height c) h) O cs.

(** The longest lineage among the rules. *)
Definition max_rule_length (rules : list exiting_rule) : nat :=
  foldr (λ rule h, Nat.max (length (exiting_lineage rule)) h) O rules.

(** Fuel that is enough for [add_sectional_exiting]: the walk goes no deeper
    than the tree is high, or one level below the longest rule. *)
Definition exit_fuel (rules : list exiting_rule) (t : HConfig) : nat :=
  S (Nat.max (forest_height (root_children t)) (max_rule_length rules + 1)).

(** The exit line that [add_sectional_exiting] appends. *)
Definition exit_line (txt : string) : HConfigChild :=
  set_order_weight_of 999 (new_child txt).

(** A tree with a section that has an exit line already, and a rule for it. *)
Definition exiting_example : HConfig :=
  mkRoot None
    [set_children (new_child "router bgp 1")
       [set_children (new_child "address-family ipv4")
          [new_child "network 10.0.0.0"; new_child "exit-address-family"]]].

Definition exiting_example_options : Options :=
  mkOptions (Some []) (Some []) (Some []) (Some [])
    (Some [mkExiting [mkSpec Startswith false "router bgp";
                      mkSpec Startswith false "address-family"]
                     "exit-address-family"]).

(** The line [n'] is the line [n] as far as its text, tags, comments,
    [new_in_config] and order weight go. *)
Definition same_line (n n' : HConfigChild) : Prop :=
  text n' = text n ∧ tags n' = tags n ∧ comments n' = comments n
  ∧ new_in_config n' = new_in_config n ∧ order_weight n' = order_weight n.

(** Every line of [t] is a line of [t'], at the same place. *)
Definition keeps_lines (t t' : HConfig) : Prop :=
  ∀ (r : ref) (n : HConfigChild),
    node_of t r = Some n → ∃ n', node_of t' r = Some n' ∧ same_line n n'.

(** The depths of a dump that [load_from_dump] can place: each is at least
    1 and at most one more than the depth before it, [prev]. *)
Fixpoint well_nested (prev : Z) (items : list dump_item) : Prop :=
  match items with
  | [] => True
  | item :: rest =>
      1 ≤ item_depth item ≤ prev + 1 ∧ well_nested (item_depth item) rest
  end.

(** An item as [dump] writes it: the tags and the comments as the sets
    that hold them list them. *)
Definition canonical (item : dump_item) : dump_item :=
  mkItem (item_depth item) (item_text item)
         (elements (list_to_set (item_tags item) : gset string))
         (elements (list_to_set (item_comments item) : gset string))
         (item_new_in_config item).

(** The line [n] and all lines below it have the default order weight. *)
Inductive default_weights : HConfigChild → Prop :=
| default_weights_node (n : HConfigChild) :
    order_weight n = 500 → Forall default_weights (children n) → default_weights n.

(** The path [p] goes down the last child at every level. *)
Fixpoint rightmost (p : list nat) (f : list HConfigChild) : Prop :=
  match p with
  | [] => True
  | i :: q => S i = length f
              ∧ match f !! i with
                | Some n => rightmost q (children n)
                | None => False
                end
  end.

(** A dump of three lines, the second below the first. *)
Definition nested_dump : list dump_item :=
  [mkItem 1 "interface Vlan1" ["b"; "a"; "b"] [] false;
   mkItem 2 "shutdown" [] ["c"] true;
   mkItem 1 "hostname r1" [] [] false].

(** An entry of an access list that is no remark. *)
Definition no_remark (c : HConfigChild) : Prop :=
  PyStr.startswith (text c) "remark" = false.

#[global] Instance no_remark_dec (c : HConfigChild) : Decision (no_remark c) :=
  decide (PyStr.startswith (text c) "remark" = false).

(** No two remarks in a row. *)
Fixpoint remarks_apart (cs : list HConfigChild) : Prop :=
  match cs with
  | a :: rest =>
      match rest with
      | b :: _ => (no_remark a ∨ no_remark b) ∧ remarks_apart rest
      | [] => True
      end
  | [] => True
  end.

(** An access list whose remarks stand apart, and a line that is none. *)
Definition acl_apart_example : HConfig :=
  mkRoot None
    [set_children (new_child "ip access-list extended FOO")
       [new_child "remark a"; new_child "permit ip any any";
        new_child "remark b"; new_child "deny ip any any"];
     new_child "hostname r1"].

(** An entry that [_add_acl_sequence_numbers] numbers, for the prefixes
    [sw]. *)
Definition numbered_entry (sw : list string) (c : HConfigChild) : Prop :=
  startswith_any (text c) sw = true.

#[global] Instance numbered_entry_dec (sw : list string) (c : HConfigChild)
    : Decision (numbered_entry sw c) :=
  decide (startswith_any (text c) sw = true).

(** A word: not empty and without blanks. *)
Fixpoint word (s : string) : Prop :=
  match s with
  | EmptyString => False
  | String c r => PyStr.is_space c = false ∧ (r = EmptyString ∨ word r)
  end.

(** An IPv6 access list with a numbered entry. *)
Definition ipv6_acl_example : HConfig :=
  mkRoot None
    [set_children (new_child "ipv6 access-list FOO")
       [new_child "sequence 10 permit ipv6 any any"]].

(** An ordering with two rules for the same lines. *)
Definition ordering_example_options : Options :=
  mkOptions (Some []) (Some []) (Some [])
    (Some [mkOrdering [mkSpec Startswith false "router bgp";
                       mkSpec Startswith false "address-family"] 600;
           mkOrdering [mkSpec Startswith false "router bgp";
                       mkSpec Contains false "ipv4"] 700])
    (Some []).

#[global] Instance rule_hit_dec (re_search : string → string → bool)
    (strip_negation_of : string → string) (rules : list lineage_rule) (t : HConfig)
    (r : ref) : Decision (rule_hit re_search strip_negation_of rules t r) :=
  decide (Exists (λ rule, lineage_test re_search strip_negation_of rule false
                            (lineage_texts t r) = true) rules).

#[global] Instance wanted_among_dec (re_search : string → string → bool)
    (strip_negation_of : string → string) (rules : list lineage_rule) (t : HConfig)
    (seq : list ref) (r : ref)
    : Decision (wanted_among re_search strip_negation_of rules t seq r) :=
  decide (Exists (λ h, rule_hit re_search strip_negation_of rules t h
                       ∧ (h `suffix_of` r ∨ r `suffix_of` h)) seq).

(** In a sequence of lines, the lines below a line come right after it, one
    after the other. *)
Fixpoint blocked (seq : list ref) : Prop :=
  match seq with
  | [] => True
  | x :: rest =>
      (∃ below after, rest = below ++ after
         ∧ Forall (λ d, x `suffix_of` d) below
         ∧ Forall (λ d, ¬ x `suffix_of` d) after)
      ∧ blocked rest
  end.

(** The order of a walk of a tree that goes parent first: with a line come
    its ancestors, before it, and what is below a line follows it as one
    block. *)
Definition walk_order (seq : list ref) : Prop :=
  pre_order seq ∧ blocked seq
  ∧ ∀ x p, x ∈ seq → p ∈ lineage x → p ∈ seq.

(** What holds of the sets [yielded] and [matched] of the filtered traversal
    and of the lines [out] that it has yielded, when the loop has gone over
    the lines [B]. *)
Record pass_inv (re_search : string → string → bool)
    (strip_negation_of : string → string) (rules : list lineage_rule) (t : HConfig)
    (B : list ref) (m : marks) (out : list ref) : Prop := mkPassInv {
  inv_matched_yielded : ∀ a, a ∈ matched m → a ∈ yielded m;
  inv_closed : ∀ y p, y ∈ yielded m → p ∈ lineage y → p ∈ yielded m;
  inv_visited : ∀ y, y ∈ yielded m → y ∈ B;
  inv_matched_hit : ∀ a, a ∈ matched m →
                      a ∈ B ∧ rule_hit re_search strip_negation_of rules t a;
  inv_hit_matched : ∀ h, h ∈ B → rule_hit re_search strip_negation_of rules t h →
                      ∃ a, a ∈ lineage h ∧ a ∈ matched m;
  inv_wanted : ∀ c, c ∈ B →
                 (c ∈ yielded m ↔ wanted_among re_search strip_negation_of rules t B c);
  inv_out : out = filter (λ r, r ∈ yielded m) B
}.

(** In a list of lines, the ancestors of a line stand before it. *)
Definition ancestors_first (l : list ref) : Prop :=
  ∀ (l1 l2 : list ref) (r p : ref),
    l = l1 ++ r :: l2 → p ∈ lineage r → p ≠ r → p ∈ l1.


(** Reduce the fields of a parser state that is written out. *)
Ltac pstate_proj :=
  cbn [tree current_section most_recent_item indent_adjust_now end_indent_adjust
       temp_banner in_banner banner_end_lines banner_end_contains] in *.

(** * Properties *)

(** ** Facts on paths and references *)

Lemma children_at_nil (p : list nat) : p ≠ [] → children_at p [] = [].
Proof. destruct p; [done|]. reflexivity. Qed.

Lemma children_at_app (p q : list nat) (f : list HConfigChild) :
  valid_path p f → children_at (p ++ q) f = children_at q (children_at p f).
Proof.
  revert f; induction p as [|i p IH]; intros f Hv; simpl in *; [done|].
  destruct (f !! i) as [n|]; [by apply IH | done].
Qed.

Lemma valid_path_app (p q : list nat) (f : list HConfigChild) :
  valid_path (p ++ q) f ↔ valid_path p f ∧ valid_path q (children_at p f).
Proof.
  revert f; induction p as [|i p IH]; intros f; simpl; [tauto|].
  destruct (f !! i) as [n|]; [apply IH | tauto].
Qed.

Lemma valid_path_snoc (p : list nat) (k : nat) (f : list HConfigChild) :
  valid_path (p ++ [k]) f ↔ valid_path p f ∧ (k < length (children_at p f))%nat.
Proof.
  rewrite valid_path_app. simpl.
  split; intros [H1 H2]; split; try done.
  - destruct (children_at p f !! k) eqn:E; [|done]. by eapply lookup_lt_Some.
  - apply lookup_lt_is_Some in H2 as [n ->]. done.
Qed.

Lemma node_at_snoc (p : list nat) (k : nat) (f : list HConfigChild) :
  node_at (p ++ [k]) f = children_at p f !! k.
Proof.
  revert f; induction p as [|i p IH]; intros f; simpl.
  - by destruct (f !! k).
  - destruct (f !! i) as [n|]; [|done].
    rewrite <- IH. by destruct p.
Qed.

Lemma alter_node_at_snoc (g : HConfigChild → HConfigChild) (p : list nat) (k : nat)
    (f : list HConfigChild) :
  alter_node_at g (p ++ [k]) f = alter_children_at (alter g k) p f.
Proof.
  revert f; induction p as [|i p IH]; intros f; simpl; [done|].
  destruct (p ++ [k]) as [|j q] eqn:E; [by destruct p|].
  apply list_alter_ext; [|done..]. intros n _ . by rewrite IH.
Qed.

Lemma alter_children_at_compose (g h : list HConfigChild → list HConfigChild)
    (p : list nat) (f : list HConfigChild) :
  alter_children_at g p (alter_children_at h p f) = alter_children_at (g ∘ h) p f.
Proof.
  revert f; induction p as [|i p IH]; intros f; simpl; [done|].
  rewrite list_alter_alter_eq. apply list_alter_ext; [|done..].
  intros n _. simpl. by rewrite IH.
Qed.

Lemma alter_children_at_app (g : list HConfigChild → list HConfigChild)
    (p q : list nat) (f : list HConfigChild) :
  alter_children_at g (p ++ q) f = alter_children_at (alter_children_at g q) p f.
Proof.
  revert f; induction p as [|i p IH]; intros f; simpl; [done|].
  apply list_alter_ext; [|done..]. intros n _. by rewrite IH.
Qed.

Lemma alter_children_at_ext (g h : list HConfigChild → list HConfigChild)
    (p : list nat) (f : list HConfigChild) :
  g (children_at p f) = h (children_at p f) →
  valid_path p f →
  alter_children_at g p f = alter_children_at h p f.
Proof.
  revert f; induction p as [|i p IH]; intros f Hg Hv; simpl in *; [done|].
  destruct (f !! i) as [n|] eqn:E; [|done].
  apply list_alter_ext; [|done..]. intros n' Hn'. 
  assert (n' = n) as -> by congruence. f_equal. by apply IH.
Qed.

Lemma children_at_alter_children_at (g : list HConfigChild → list HConfigChild)
    (p : list nat) (f : list HConfigChild) :
  valid_path p f → children_at p (alter_children_at g p f) = g (children_at p f).
Proof.
  revert f; induction p as [|i p IH]; intros f Hv; simpl in *; [done|].
  rewrite list_lookup_alter_eq. destruct (f !! i) as [n|]; [|done]. simpl. by apply IH.
Qed.

Lemma valid_path_alter_children_at (g : list HConfigChild → list HConfigChild)
    (p : list nat) (f : list HConfigChild) :
  valid_path p f → valid_path p (alter_children_at g p f).
Proof.
  revert f; induction p as [|i p IH]; intros f Hv; simpl in *; [done|].
  rewrite list_lookup_alter_eq. destruct (f !! i) as [n|]; [|done]. simpl. by apply IH.
Qed.

Lemma children_at_alter_children_at_prefix (g : list HConfigChild → list HConfigChild)
    (p q : list nat) (f : list HConfigChild) :
  valid_path p f →
  children_at p (alter_children_at g (p ++ q) f) = alter_children_at g q (children_at p f).
Proof.
  intros Hv. rewrite alter_children_at_app. by apply children_at_alter_children_at.
Qed.

Lemma suffix_of_cons_case {A : Type} (l r : list A) (k : A) :
  l `suffix_of` k :: r → l = k :: r ∨ l `suffix_of` r.
Proof.
  intros [q E]. destruct q as [|x q]; simpl in E; [by left|].
  right. injection E as -> ->. by exists q.
Qed.

Lemma node_of_cons (t : HConfig) (k : nat) (r : ref) :
  node_of t (k :: r) = children_of t r !! k.
Proof. unfold node_of, children_of. simpl. apply node_at_snoc. Qed.

Lemma alter_node_cons (g : HConfigChild → HConfigChild) (k : nat) (r : ref) (t : HConfig) :
  alter_node g (k :: r) t = alter_children (alter g k) r t.
Proof. unfold alter_node, alter_children. simpl. by rewrite alter_node_at_snoc. Qed.

Lemma alter_children_compose (g h : list HConfigChild → list HConfigChild) (r : ref)
    (t : HConfig) :
  alter_children g r (alter_children h r t) = alter_children (g ∘ h) r t.
Proof. unfold alter_children. simpl. by rewrite alter_children_at_compose. Qed.

Lemma valid_ref_cons (t : HConfig) (k : nat) (r : ref) :
  valid_ref t (k :: r) ↔ valid_ref t r ∧ (k < length (children_of t r))%nat.
Proof. unfold valid_ref, children_of. simpl. apply valid_path_snoc. Qed.

Lemma valid_ref_suffix (t : HConfig) (r r' : ref) :
  valid_ref t r → r' `suffix_of` r → valid_ref t r'.
Proof.
  intros Hv [q ->]. unfold valid_ref in *. rewrite rev_app_distr in Hv.
  by apply valid_path_app in Hv as [? _].
Qed.

Lemma children_of_alter_children (g : list HConfigChild → list HConfigChild)
    (r : ref) (t : HConfig) :
  valid_ref t r → children_of (alter_children g r t) r = g (children_of t r).
Proof. apply children_at_alter_children_at. Qed.

Lemma valid_ref_alter_children (g : list HConfigChild → list HConfigChild)
    (r : ref) (t : HConfig) :
  valid_ref t r → valid_ref (alter_children g r t) r.
Proof. apply valid_path_alter_children_at. Qed.

(** Changing the children of a node leaves the indent level of the node
    and of its ancestors as it is. *)
Lemma level_alter_children (g : list HConfigChild → list HConfigChild)
    (r r' : ref) (t : HConfig) :
  valid_ref t r → r' `suffix_of` r →
  real_indent_level_of (alter_children g r t) r' = real_indent_level_of t r'.
Proof.
  intros Hv Hs. destruct r' as [|k r'']; [done|].
  destruct Hs as [q ->].
  unfold real_indent_level_of. rewrite !node_of_cons.
  assert (valid_ref t r'') as Hv''.
  { eapply valid_ref_suffix; [done|]. exists (q ++ [k]). by rewrite <- app_assoc. }
  unfold children_of, alter_children, valid_ref in *. simpl.
  rewrite rev_app_distr. simpl. rewrite <- app_assoc. simpl.
  rewrite children_at_alter_children_at_prefix by done. simpl.
  rewrite list_lookup_alter_eq.
  by destruct (children_at (rev r'') (root_children t) !! k).
Qed.

Lemma index_of_text_lookup (txt : string) (cs : list HConfigChild) (i : nat) :
  index_of_text txt cs = Some i → ∃ n, cs !! i = Some n ∧ text n = txt.
Proof.
  revert i; induction cs as [|c cs IH]; intros i; simpl; [done|].
  case_decide as Htxt.
  - intros [= <-]. eauto.
  - destruct (index_of_text txt cs) as [j|]; simpl; [|done].
    intros [= <-]. by apply IH.
Qed.

Lemma add_child_to_lookup (cs : list HConfigChild) (txt : string) (force : bool) :
  ∃ n, (add_child_to cs txt force).1 !! (add_child_to cs txt force).2 = Some n
       ∧ text n = txt.
Proof.
  unfold add_child_to.
  destruct (if force then None else index_of_text txt cs) as [i|] eqn:E; simpl.
  - destruct force; [done|]. by apply index_of_text_lookup.
  - exists (new_child txt). split; [|done].
    rewrite lookup_app_r by done. by rewrite Nat.sub_diag.
Qed.

Lemma assign_add_child (t : HConfig) (r : ref) (txt : string) (force : bool) (z : Z) :
  assign_real_indent_level (add_child t r txt force).1 (add_child t r txt force).2 z
  = alter_children (placing txt force z (add_child_to (children_of t r) txt force).2) r t.
Proof.
  unfold add_child, assign_real_indent_level. simpl.
  rewrite alter_node_cons, alter_children_compose. done.
Qed.

Lemma placed_node (t : HConfig) (r : ref) (txt : string) (force : bool) (z : Z) :
  valid_ref t r →
  let t' := assign_real_indent_level (add_child t r txt force).1
                                     (add_child t r txt force).2 z in
  valid_ref t' (add_child t r txt force).2
  ∧ ∃ n, node_of t' (add_child t r txt force).2 = Some n
         ∧ text n = txt ∧ real_indent_level n = Some z.
Proof.
  intros Hv t'. subst t'. rewrite assign_add_child.
  change ((add_child t r txt force).2) with ((add_child_to (children_of t r) txt force).2 :: r).
  destruct (add_child_to_lookup (children_of t r) txt force) as (n & Hn & Htxt).
  rewrite valid_ref_cons, node_of_cons, children_of_alter_children by done.
  unfold placing. rewrite length_alter, list_lookup_alter_eq, Hn. simpl.
  split; [split|].
  - by apply valid_ref_alter_children.
  - by eapply lookup_lt_Some.
  - eexists; split; [done|]. done.
Qed.

Lemma placed_levels (t : HConfig) (r r' : ref) (txt : string) (force : bool) (z : Z) :
  valid_ref t r → r' `suffix_of` r →
  real_indent_level_of
    (assign_real_indent_level (add_child t r txt force).1
                              (add_child t r txt force).2 z) r'
  = real_indent_level_of t r'.
Proof. intros. rewrite assign_add_child. by apply level_alter_children. Qed.

Lemma placed_root_level (t : HConfig) (r : ref) (txt : string) (force : bool) (z : Z) :
  root_real_indent_level
    (assign_real_indent_level (add_child t r txt force).1
                              (add_child t r txt force).2 z)
  = root_real_indent_level t.
Proof. by rewrite assign_add_child. Qed.

Lemma placed_valid (t : HConfig) (r : ref) (txt : string) (force : bool) (z : Z) :
  valid_ref t r →
  valid_ref (assign_real_indent_level (add_child t r txt force).1
                                      (add_child t r txt force).2 z) r.
Proof. intros. rewrite assign_add_child. by apply valid_ref_alter_children. Qed.

Lemma placed_levels_known (t : HConfig) (r : ref) (txt : string) (force : bool) (z : Z) :
  valid_ref t r → levels_known t r →
  levels_known (assign_real_indent_level (add_child t r txt force).1
                                         (add_child t r txt force).2 z)
               (add_child t r txt force).2.
Proof.
  intros Hv Hl r' Hs.
  destruct (placed_node t r txt force z Hv) as (_ & n & Hn & _ & Hz).
  change ((add_child t r txt force).2)
    with ((add_child_to (children_of t r) txt force).2 :: r) in *.
  apply suffix_of_cons_case in Hs as [->|Hs].
  - unfold real_indent_level_of. rewrite Hn. simpl. rewrite Hz. eauto.
  - rewrite placed_levels by done. by apply Hl.
Qed.

(** ** The parser: its cursor and its invariant *)

Lemma lstrip_length (s : string) :
  (String.length (PyStr.lstrip s) ≤ String.length s)%nat.
Proof.
  induction s as [|c s IH]; simpl; [done|].
  destruct (PyStr.is_space c); simpl; lia.
Qed.

Lemma walk_up_inr (t : HConfig) (this_indent : Z) (r section : ref) :
  walk_up t this_indent r = inr section →
  section `suffix_of` r ∧ ascends t this_indent r section.
Proof.
  revert section; induction r as [|i up IH]; intros section; simpl.
  - destruct (root_real_indent_level t) as [lvl|] eqn:E; [|done].
    case_bool_decide; [done|]. intros [= <-]. split; [done|].
    eapply ascends_stop; [done|lia].
  - destruct (node_of t (i :: up) ≫= real_indent_level) as [lvl|] eqn:E; [|done].
    case_bool_decide.
    + intros Hw. apply IH in Hw as [Hs Ha]. split.
      * by apply suffix_cons_r.
      * eapply ascends_step; done.
    + intros [= <-]. split; [done|]. eapply ascends_stop; [done|lia].
Qed.

Lemma walk_up_total (t : HConfig) (this_indent : Z) (r : ref) :
  levels_known t r → root_real_indent_level t = Some (-1) → 0 ≤ this_indent →
  ∃ section, walk_up t this_indent r = inr section.
Proof.
  intros Hl Hroot Hi. induction r as [|i up IH]; simpl.
  - rewrite Hroot. rewrite bool_decide_eq_false_2 by lia. eauto.
  - destruct (Hl (i :: up)) as [lvl Hlvl]; [done|]. simpl in Hlvl. rewrite Hlvl.
    case_bool_decide; [|eauto].
    apply IH. intros r' Hs. apply Hl. by apply suffix_cons_r.
Qed.

Lemma levels_known_suffix (t : HConfig) (r r' : ref) :
  levels_known t r → r' `suffix_of` r → levels_known t r'.
Proof. intros Hl Hs r'' Hs'. apply Hl. by etrans. Qed.

Section Parser.

Variable re_sub : string → string → string → string.
Variable re_search : string → string → bool.

Lemma adjust_indent_length (rules : list indent_rule) (line : string) (acc : Z)
    (pending : list string) :
  acc = Z.of_nat (length pending) →
  (adjust_indent re_search rules line acc pending).1
  = Z.of_nat (length (adjust_indent re_search rules line acc pending).2).
Proof.
  intros ->. unfold adjust_indent.
  destruct (List.find _ rules) as [e|]; simpl.
  - destruct pending as [|p pending]; simpl.
    + destruct (re_search _ line); simpl; lia.
    + destruct (re_search p line); simpl; rewrite ?length_app; simpl; lia.
  - destruct pending as [|p pending]; simpl; [done|].
    destruct (re_search p line); simpl; lia.
Qed.

Lemma initial_state_inv (t : HConfig) : parser_inv (initial_state t).
Proof.
  split; simpl; try done.
  - intros r' Hs. apply suffix_nil_inv in Hs as ->. simpl. eauto.
  - intros r' Hs. apply suffix_nil_inv in Hs as ->. simpl. eauto.
  - repeat constructor; set_solver.
Qed.

Lemma banner_line_inv (st : pstate) (line : string) :
  parser_inv st → parser_inv (banner_line st line).
Proof.
  intros [Hroot Hsv Hrv Hsl Hrl Hadj Hend]. unfold banner_line.
  destruct (end_of_banner_test _ _ line); [|by split].
  set (txt := PyStr.join newline _).
  assert (valid_ref (tree st) []) as Hv by done.
  assert (levels_known (tree st) []) as Hl.
  { intros r' Hs. apply suffix_nil_inv in Hs as ->. simpl. rewrite Hroot. eauto. }
  destruct (placed_node (tree st) [] txt false 0 Hv) as (Hv' & _).
  split; pstate_proj.
  - by rewrite placed_root_level.
  - done.
  - done.
  - intros r' Hs. apply suffix_nil_inv in Hs as ->.
    unfold real_indent_level_of. rewrite placed_root_level, Hroot. eauto.
  - by apply placed_levels_known.
  - done.
  - done.
Qed.

Lemma banner_start_inv (st : pstate) (line : string) :
  parser_inv st → parser_inv (banner_start st line).
Proof.
  intros [Hroot Hsv Hrv Hsl Hrl Hadj Hend]. unfold banner_start.
  destruct (PyStr.split line !! 2%nat); split; simpl; try done.
  eapply Forall_impl; [done|]. simpl. intros l Hl. set_solver.
Qed.

Lemma place_line_inv (opts : Options) (st st' : pstate) (this_indent : Z)
    (line : string) (e : option exn) :
  parser_inv st → place_line re_search opts st this_indent line = (st', e) →
  parser_inv st'.
Proof.
  intros Hinv. pose proof Hinv as [Hroot Hsv Hrv Hsl Hrl Hadj Hend].
  unfold place_line.
  destruct (walk_up _ _ _) as [err|section] eqn:Hw; [by intros [= <- _]|].
  destruct (real_indent_level_of _ (most_recent_item st)) as [lvl|]; [|by intros [= <- _]].
  apply walk_up_inr in Hw as [Hs _].
  set (section' := if bool_decide (this_indent > lvl) then _ else _).
  assert (valid_ref (tree st) section' ∧ levels_known (tree st) section') as [Hv Hl].
  { subst section'. case_bool_decide; [done|]. split.
    - exact (valid_ref_suffix _ _ _ Hsv Hs).
    - exact (levels_known_suffix _ _ _ Hsl Hs). }
  destruct (placed_node (tree st) section' line false this_indent Hv) as (Hv' & _).
  assert (parser_inv
            (mkState (assign_real_indent_level
                        (add_child (tree st) section' line false).1
                        (add_child (tree st) section' line false).2 this_indent)
                     section' (add_child (tree st) section' line false).2
                     (indent_adjust_now st) (end_indent_adjust st) (temp_banner st)
                     (in_banner st) (banner_end_lines st) (banner_end_contains st)))
    as Hnew.
  { split; pstate_proj.
    - by rewrite placed_root_level.
    - by apply placed_valid.
    - done.
    - intros r' Hs'. rewrite placed_levels by done. by apply Hl.
    - by apply placed_levels_known.
    - done.
    - done. }
  destruct (indent_adjust opts) as [rules|]; intros [= <- _]; [|done].
  destruct Hnew as [? ? ? ? ? _ ?]. split; pstate_proj; try done.
  by apply adjust_indent_length.
Qed.

Lemma place_line_total (opts : Options) (st : pstate) (this_indent : Z)
    (line : string) :
  parser_inv st → 0 ≤ this_indent → is_Some (indent_adjust opts) →
  (place_line re_search opts st this_indent line).2 = None.
Proof.
  intros [Hroot Hsv Hrv Hsl Hrl Hadj Hend] Hi [rules Hrules]. unfold place_line.
  destruct (walk_up_total (tree st) this_indent (current_section st)) as [section ->];
    [done..|].
  destruct (Hrl (most_recent_item st)) as [lvl ->]; [done|].
  by rewrite Hrules.
Qed.

Lemma effective_indent_nonneg (st : pstate) (line : string) :
  parser_inv st → 0 ≤ effective_indent st line.
Proof.
  intros [_ _ _ _ _ Hadj _]. unfold effective_indent, PyStr.len.
  pose proof (lstrip_length line). lia.
Qed.

Lemma parse_line_inv (opts : Options) (st st' : pstate) (line : string)
    (e : option exn) :
  parser_inv st → parse_line re_sub re_search opts st line = (st', e) →
  parser_inv st'.
Proof.
  intros Hinv. unfold parse_line, normal_line.
  destruct (in_banner st).
  { intros [= <- _]. by apply banner_line_inv. }
  destruct (PyStr.startswith line "banner ").
  { intros [= <- _]. by apply banner_start_inv. }
  destruct (per_line_sub opts) as [subs|]; [|by intros [= <- _]].
  destruct (PyStr.is_empty _); [by intros [= <- _]|].
  by apply place_line_inv.
Qed.

Lemma parse_line_total (opts : Options) (st : pstate) (line : string) :
  parser_inv st → is_Some (per_line_sub opts) → is_Some (indent_adjust opts) →
  (parse_line re_sub re_search opts st line).2 = None.
Proof.
  intros Hinv [subs Hsubs] Hrules. unfold parse_line, normal_line.
  destruct (in_banner st); [done|].
  destruct (PyStr.startswith line "banner "); [done|].
  rewrite Hsubs. destruct (PyStr.is_empty _); [done|].
  apply place_line_total; [done| |done]. by apply effective_indent_nonneg.
Qed.

Lemma parse_lines_inv (opts : Options) (lines : list string) (st st' : pstate)
    (e : option exn) :
  parser_inv st → parse_lines re_sub re_search opts st lines = (st', e) →
  parser_inv st'.
Proof.
  revert st; induction lines as [|line rest IH]; intros st Hinv; simpl.
  - by intros [= <- _].
  - destruct (parse_line _ _ opts st line) as [st1 [e1|]] eqn:E.
    + intros [= <- _]. by eapply parse_line_inv.
    + apply IH. by eapply parse_line_inv.
Qed.

Lemma parse_lines_total (opts : Options) (lines : list string) (st : pstate) :
  parser_inv st → is_Some (per_line_sub opts) → is_Some (indent_adjust opts) →
  (parse_lines re_sub re_search opts st lines).2 = None.
Proof.
  intros Hinv Hsubs Hrules.
  revert st Hinv; induction lines as [|line rest IH]; intros st Hinv; simpl; [done|].
  pose proof (parse_line_total opts st line Hinv Hsubs Hrules) as Hnone.
  destruct (parse_line _ _ opts st line) as [st1 e1] eqn:E. simpl in Hnone. subst e1.
  apply IH. by eapply parse_line_inv.
Qed.

(** The banner flag and the end markers go their own way, whatever the
    tree is. *)
Lemma place_line_banner (opts : Options) (st : pstate) (this_indent : Z) (line : string) :
  let st' := (place_line re_search opts st this_indent line).1 in
  in_banner st' = in_banner st ∧ banner_end_lines st' = banner_end_lines st
  ∧ banner_end_contains st' = banner_end_contains st.
Proof.
  unfold place_line.
  destruct (walk_up _ _ _); [done|].
  destruct (real_indent_level_of _ _); [|done].
  by destruct (indent_adjust opts).
Qed.

Lemma place_line_no_assertion (opts : Options) (st : pstate) (this_indent : Z)
    (line : string) :
  (place_line re_search opts st this_indent line).2 ≠ Some AssertionError.
Proof.
  unfold place_line.
  destruct (walk_up _ _ _) as [e|section] eqn:Hw; simpl.
  - intros [= ->]. clear -Hw. revert Hw.
    induction (current_section st) as [|i up IH]; simpl.
    + destruct (root_real_indent_level _); [|done]. by case_bool_decide.
    + destruct (_ ≫= _); [|done]. by case_bool_decide.
  - destruct (real_indent_level_of _ _); [|done].
    by destruct (indent_adjust opts).
Qed.

Lemma parse_lines_banner (opts : Options) (lines : list string) (st st' : pstate) :
  parse_lines re_sub re_search opts st lines = (st', None) →
  in_banner st'
  = ends_inside_banner (in_banner st) (banner_end_lines st) (banner_end_contains st)
                       lines.
Proof.
  revert st; induction lines as [|line rest IH]; intros st; simpl.
  - by intros [= <-].
  - destruct (parse_line _ _ opts st line) as [st1 [e1|]] eqn:E; [done|].
    intros H. apply IH in H as ->. clear IH.
    unfold parse_line, normal_line in E.
    destruct (in_banner st) eqn:Hb.
    { injection E as <-. unfold banner_line.
      by destruct (end_of_banner_test _ _ line). }
    destruct (PyStr.startswith line "banner ").
    { injection E as <-. unfold banner_start.
      by destruct (PyStr.split line !! 2%nat). }
    destruct (per_line_sub opts) as [subs|]; [|done].
    destruct (PyStr.is_empty _).
    { injection E as <-. by rewrite Hb. }
    pose proof (place_line_banner opts st
                  (effective_indent st (normalize_line re_sub subs line))
                  (PyStr.lstrip (normalize_line re_sub subs line))) as (H1 & H2 & H3).
    rewrite E in H1, H2, H3. simpl in H1, H2, H3. by rewrite H1, H2, H3, Hb.
Qed.

Lemma parse_lines_no_assertion (opts : Options) (lines : list string) (st : pstate) :
  (parse_lines re_sub re_search opts st lines).2 ≠ Some AssertionError.
Proof.
  revert st; induction lines as [|line rest IH]; intros st; simpl; [done|].
  destruct (parse_line _ _ opts st line) as [st1 [e1|]] eqn:E; [|apply IH].
  simpl. intros [= ->].
  unfold parse_line, normal_line in E.
  destruct (in_banner st); [done|].
  destruct (PyStr.startswith line "banner "); [done|].
  destruct (per_line_sub opts); [|done].
  destruct (PyStr.is_empty _); [done|].
  eapply place_line_no_assertion. by rewrite E.
Qed.

End Parser.

(** ** The parser: the claims *)

Section ParserClaims.

Variable re_sub : string → string → string → string.
Variable re_search : string → string → bool.

(** C3: if the text ends while a banner is open, [load_from_string] fails,
    whatever the options are; if it does not, [load_from_string] does not
    fail with the assertion on [in_banner]; and with the options that the
    loop reads present, it fails exactly in the first case, by that
    assertion. *)
Theorem load_from_string_unterminated_banner (opts : Options) (config_text : string)
    (t : HConfig) (subs : list sub_rule) :
  full_text_sub opts = Some subs →
  let lines :=
    PyStr.splitlines
      (fold_left (λ s sub, re_sub (search sub) (replace sub) s) subs config_text) in
  let inside := ends_inside_banner false ["EOF"; "%"; "!"] [] lines in
  let result := load_from_string re_sub re_search opts config_text t in
  (inside = true → result.2 ≠ None)
  ∧ (inside = false → result.2 ≠ Some AssertionError)
  ∧ (is_Some (per_line_sub opts) → is_Some (indent_adjust opts) →
     result.2 = if inside then Some AssertionError else None).
Proof.
  intros Hsubs lines inside result. subst result. unfold load_from_string.
  rewrite Hsubs. fold lines.
  pose proof (parse_lines_no_assertion re_sub re_search opts lines (initial_state t)) as Hna.
  pose proof (parse_lines_total re_sub re_search opts lines (initial_state t)
                (initial_state_inv t)) as Htot.
  destruct (parse_lines re_sub re_search opts (initial_state t) lines) as [st [e|]] eqn:E;
    simpl in *.
  - split; [done|]. split; [done|]. intros H1 H2. by specialize (Htot H1 H2).
  - apply parse_lines_banner in E. simpl in E. fold inside in E. rewrite E.
    destruct inside; simpl; repeat split; done.
Qed.

(** C10: inside a banner, the line [!] ends the banner and is left out of
    the text of the banner node, and the lines [EOF] and [%] end it and are
    the last line of that text. *)
Theorem banner_end_marker_lines (opts : Options) (t : HConfig) (lines : list string)
    (st : pstate) (line : string) :
  parse_lines re_sub re_search opts (initial_state t) lines = (st, None) →
  in_banner st = true →
  line ∈ ["!"; "EOF"; "%"] →
  let st' := (parse_line re_sub re_search opts st line).1 in
  (parse_line re_sub re_search opts st line).2 = None
  ∧ in_banner st' = false
  ∧ depth (most_recent_item st') = 1
  ∧ ∃ n, node_of (tree st') (most_recent_item st') = Some n
         ∧ text n = PyStr.join newline
                      (if bool_decide (line = "!") then temp_banner st
                       else temp_banner st ++ [line]).
Proof.
  intros Hrun Hin Hline st'. subst st'.
  pose proof (parse_lines_inv re_sub re_search opts lines _ _ _ (initial_state_inv t) Hrun)
    as [_ _ _ _ _ _ Hend].
  unfold parse_line. rewrite Hin. simpl. unfold banner_line.
  assert (end_of_banner_test (banner_end_lines st) (banner_end_contains st) line = true)
    as ->.
  { unfold end_of_banner_test. destruct (PyStr.startswith line "^"); [done|].
    rewrite bool_decide_eq_true_2; [done|].
    rewrite Forall_forall in Hend. apply Hend.
    revert Hline. rewrite !elem_of_cons, !elem_of_nil. tauto. }
  pstate_proj.
  split; [done|]. split; [done|]. split; [done|].
  destruct (placed_node (tree st) []
              (PyStr.join newline
                 (if bool_decide (line ≠ "!") then temp_banner st ++ [line]
                  else temp_banner st)) false 0) as (_ & n & Hn & Htxt & _); [done|].
  exists n. split; [done|]. rewrite Htxt.
  destruct (decide (line = "!")) as [->|Hne].
  - by rewrite bool_decide_eq_false_2, bool_decide_eq_true_2 by naive_solver.
  - by rewrite bool_decide_eq_true_2, bool_decide_eq_false_2 by done.
Qed.

(** C8, as the code has it: parsing the three-line banner example gives one
    node, of depth 1 and without children, whose text is the opening line,
    the line inside and the closing line, joined by newlines. *)
Theorem banner_example_parse :
  load_from_string re_sub re_search empty_options banner_example HConfig_new
  = (mkRoot (Some (-1))
       [parsed ("banner motd ^C" +:+ newline +:+ "Welcome to the device"
                +:+ newline +:+ "^C") 0 []],
     None).
Proof. vm_compute. reflexivity. Qed.

(** C2: a line read outside a banner, on a state that the loop reaches.  A
    line that is empty once normalized changes nothing.  Otherwise the
    cursor goes up from [current_section] while the indent of the line is
    not above the level of the section, the new section is
    [most_recent_item] exactly when the indent is above its level, and the
    line is a child of the new section, with its text and its indent.  The
    five-line example gives two lines of depth 1, each with its indented
    lines as children, in the order of the text. *)
Theorem normal_line_placement :
  (∀ (opts : Options) (t : HConfig) (lines : list string) (st : pstate)
     (line : string) (subs : list sub_rule) (rules : list indent_rule),
     parse_lines re_sub re_search opts (initial_state t) lines = (st, None) →
     in_banner st = false →
     PyStr.startswith line "banner " = false →
     per_line_sub opts = Some subs →
     indent_adjust opts = Some rules →
     let line' := normalize_line re_sub subs line in
     let this_indent := effective_indent st line' in
     let st' := (parse_line re_sub re_search opts st line).1 in
     (parse_line re_sub re_search opts st line).2 = None
     ∧ if PyStr.is_empty line' then st' = st
       else ∃ (section : ref) (lvl : Z) (n : HConfigChild),
         ascends (tree st) this_indent (current_section st) section
         ∧ real_indent_level_of (tree st) (most_recent_item st) = Some lvl
         ∧ current_section st'
           = (if bool_decide (this_indent > lvl) then most_recent_item st
              else section)
         ∧ parent (most_recent_item st') = Some (current_section st')
         ∧ node_of (tree st') (most_recent_item st') = Some n
         ∧ text n = PyStr.lstrip line'
         ∧ real_indent_level n = Some this_indent)
  ∧ load_from_string re_sub re_search empty_options interfaces_example HConfig_new
    = (mkRoot (Some (-1))
         [parsed "interface GigabitEthernet0/1" 0
            [parsed "description uplink" 1 []; parsed "no shutdown" 1 []];
          parsed "interface GigabitEthernet0/2" 0
            [parsed "shutdown" 1 []]],
       None).
Proof.
  split; [|vm_compute; reflexivity].
  intros opts t lines st line subs rules Hrun Hin Hstart Hsubs Hrules line' this_indent st'.
  pose proof (parse_lines_inv re_sub re_search opts lines _ _ _ (initial_state_inv t) Hrun)
    as Hinv.
  subst st'. unfold parse_line, normal_line. rewrite Hin, Hstart, Hsubs. fold line'.
  destruct (PyStr.is_empty line'); [done|]. fold this_indent.
  pose proof (effective_indent_nonneg st line' Hinv) as Hnn. fold this_indent in Hnn.
  destruct Hinv as [Hroot Hsv Hrv Hsl Hrl Hadj Hend].
  unfold place_line.
  destruct (walk_up_total (tree st) this_indent (current_section st)) as [section Hw];
    [done..|].
  rewrite Hw. apply walk_up_inr in Hw as [Hs Hasc].
  destruct (Hrl (most_recent_item st)) as [lvl Hlvl]; [done|]. rewrite Hlvl, Hrules.
  pstate_proj. split; [done|].
  set (section' := if bool_decide (this_indent > lvl) then _ else _).
  assert (valid_ref (tree st) section') as Hv.
  { subst section'. case_bool_decide; [done|]. exact (valid_ref_suffix _ _ _ Hsv Hs). }
  destruct (placed_node (tree st) section' (PyStr.lstrip line') false this_indent Hv)
    as (_ & n & Hn & Htxt & Hz).
  exists section, lvl, n. done.
Qed.

(** C9, as the code has it.  Without [full_text_sub], [load_from_string]
    raises [KeyError] at once and leaves the tree as it is.  Without
    [per_line_sub], the first line outside a banner that opens none raises
    it, and no node is built for that line.  Without [indent_adjust], it is
    raised once the node of such a line is in the tree.  [ordering] and
    [sectional_exiting] are not read: the result is the same whatever they
    are, absent too. *)
Theorem load_from_string_missing_keys (opts : Options) (config_text : string)
    (t : HConfig) :
  (full_text_sub opts = None →
   load_from_string re_sub re_search opts config_text t
   = (t, Some (KeyError "full_text_sub")))
  ∧ (∀ (st : pstate) (line : string),
       per_line_sub opts = None → in_banner st = false →
       PyStr.startswith line "banner " = false →
       parse_line re_sub re_search opts st line = (st, Some (KeyError "per_line_sub")))
  ∧ (∀ (st : pstate) (this_indent : Z) (line : string),
       indent_adjust opts = None → parser_inv st → 0 ≤ this_indent →
       ∃ (st' : pstate) (n : HConfigChild),
         place_line re_search opts st this_indent line
         = (st', Some (KeyError "indent_adjust"))
         ∧ node_of (tree st') (most_recent_item st') = Some n
         ∧ text n = line)
  ∧ (∀ (o : option (list ordering_rule)) (s : option (list exiting_rule)),
       load_from_string re_sub re_search
         (mkOptions (full_text_sub opts) (per_line_sub opts) (indent_adjust opts) o s)
         config_text t
       = load_from_string re_sub re_search opts config_text t).
Proof.
  split; [|split; [|split]].
  - intros H. unfold load_from_string. by rewrite H.
  - intros st line H Hin Hstart. unfold parse_line, normal_line.
    by rewrite Hin, Hstart, H.
  - intros st this_indent line H [Hroot Hsv Hrv Hsl Hrl Hadj Hend] Hnn.
    unfold place_line.
    destruct (walk_up_total (tree st) this_indent (current_section st)) as [section Hw];
      [done..|].
    rewrite Hw. apply walk_up_inr in Hw as [Hs _].
    destruct (Hrl (most_recent_item st)) as [lvl Hlvl]; [done|]. rewrite Hlvl, H.
    set (section' := if bool_decide (this_indent > lvl) then _ else _).
    assert (valid_ref (tree st) section') as Hv.
    { subst section'. case_bool_decide; [done|]. exact (valid_ref_suffix _ _ _ Hsv Hs). }
    destruct (placed_node (tree st) section' line false this_indent Hv)
      as (_ & n & Hn & Htxt & _).
    eexists _, n. split; [done|]. pstate_proj. done.
  - intros o s. unfold load_from_string. simpl.
    destruct (full_text_sub opts) as [subs|]; [|done].
    assert (∀ lines st,
              parse_lines re_sub re_search
                (mkOptions (Some subs) (per_line_sub opts) (indent_adjust opts) o s)
                st lines
              = parse_lines re_sub re_search opts st lines) as ->; [|done].
    induction lines as [|line rest IH]; intros st; simpl; [done|].
    assert (parse_line re_sub re_search
              (mkOptions (Some subs) (per_line_sub opts) (indent_adjust opts) o s) st line
            = parse_line re_sub re_search opts st line) as -> by done.
    destruct (parse_line _ _ opts st line) as [st1 [e|]]; [done|]. apply IH.
Qed.

End ParserClaims.

(** A witness of C3: the banner that is not closed. *)
Lemma load_from_string_unterminated_banner_witness :
  full_text_sub empty_options = Some []
  ∧ (load_from_string literal_sub literal_search empty_options
       unterminated_banner_example HConfig_new).2 = Some AssertionError.
Proof.
  split; [reflexivity|].
  apply (load_from_string_unterminated_banner literal_sub literal_search empty_options
           unterminated_banner_example HConfig_new [] eq_refl);
    vm_compute; eauto.
Defined.

(** A witness of C10: [EOF] after two lines of a banner. *)
Lemma banner_end_marker_lines_witness :
  let st := (parse_lines literal_sub literal_search empty_options
               (initial_state HConfig_new) banner_open_lines).1 in
  let st' := (parse_line literal_sub literal_search empty_options st "EOF").1 in
  in_banner st = true
  ∧ in_banner st' = false
  ∧ ∃ n, node_of (tree st') (most_recent_item st') = Some n
         ∧ text n = PyStr.join newline (temp_banner st ++ ["EOF"]).
Proof.
  intros st st'.
  assert (parse_lines literal_sub literal_search empty_options
            (initial_state HConfig_new) banner_open_lines = (st, None)) as Hrun
    by (vm_compute; reflexivity).
  assert (in_banner st = true) as Hin by (vm_compute; reflexivity).
  assert ("EOF" ∈ ["!"; "EOF"; "%"]) as Hline
    by (rewrite !elem_of_cons; auto).
  destruct (banner_end_marker_lines literal_sub literal_search empty_options
              HConfig_new banner_open_lines st "EOF" Hrun Hin Hline)
    as (_ & Hout & _ & n & Hn & Htxt).
  split; [exact Hin|]. split; [exact Hout|]. exists n. split; [exact Hn|exact Htxt].
Defined.

(** The counterexample of C8: the text of the banner node of the example
    is the three lines, not the line inside alone. *)
Lemma banner_example_text_is_not_interior :
  ∃ n, root_children
         (load_from_string literal_sub literal_search empty_options banner_example
            HConfig_new).1 = [n]
       ∧ text n = "banner motd ^C" +:+ newline +:+ "Welcome to the device"
                  +:+ newline +:+ "^C"
       ∧ text n ≠ "Welcome to the device".
Proof. eexists. split; [vm_compute; reflexivity|]. split; [vm_compute; reflexivity|]. by vm_compute. Qed.

(** The counterexample of C9: options without [ordering] parse a line, and
    options without [indent_adjust] fail after the node has been built. *)
Lemma missing_keys_are_not_reported_at_start :
  ordering options_without_ordering = None
  ∧ load_from_string literal_sub literal_search options_without_ordering
      "hostname r1" HConfig_new
    = (mkRoot (Some (-1)) [parsed "hostname r1" 0 []], None)
  ∧ indent_adjust options_without_indent_adjust = None
  ∧ load_from_string literal_sub literal_search options_without_indent_adjust
      "hostname r1" HConfig_new
    = (mkRoot (Some (-1)) [parsed "hostname r1" 0 []],
       Some (KeyError "indent_adjust")).
Proof. repeat split; vm_compute; reflexivity. Qed.

(** A witness of C2: the second line of the example. *)
Lemma normal_line_placement_witness :
  let st := (parse_lines literal_sub literal_search empty_options
               (initial_state HConfig_new) ["interface GigabitEthernet0/1"]).1 in
  let st' := (parse_line literal_sub literal_search empty_options st
                " description uplink").1 in
  current_section st = [] ∧ current_section st' = [0%nat]
  ∧ ∃ n, node_of (tree st') (most_recent_item st') = Some n
         ∧ text n = "description uplink".
Proof.
  intros st st'.
  assert (parse_lines literal_sub literal_search empty_options
            (initial_state HConfig_new) ["interface GigabitEthernet0/1"] = (st, None))
    as Hrun by (vm_compute; reflexivity).
  destruct (proj1 (normal_line_placement literal_sub literal_search)
              empty_options HConfig_new ["interface GigabitEthernet0/1"] st
              " description uplink" [] [] Hrun eq_refl eq_refl eq_refl eq_refl)
    as (_ & H).
  split; [vm_compute; reflexivity|]. split; [vm_compute; reflexivity|].
  change (PyStr.is_empty (normalize_line literal_sub [] " description uplink"))
    with false in H.
  destruct H as (section & lvl & n & _ & _ & _ & _ & Hn & Htxt & _).
  exists n. split; [exact Hn|]. exact Htxt.
Defined.

(** ** ACL remarks *)

Lemma list_remove_length (x : HConfigChild) (l : list HConfigChild) :
  (length (list_remove x l) ≤ length l)%nat.
Proof.
  induction l as [|y l IH]; simpl; [done|].
  destruct (HConfigChild_eqb y x); simpl; lia.
Qed.

(** The turns of the loop over [acl.children] are at most as many as the
    list is long: more fuel changes nothing. *)
Lemma remove_remarks_loop_fuel (fuel extra i : nat) (cs : list HConfigChild) :
  (length cs ≤ i + fuel)%nat →
  remove_remarks_loop (fuel + extra) i cs = remove_remarks_loop fuel i cs.
Proof.
  revert i cs; induction fuel as [|fuel IH]; intros i cs Hlen; simpl.
  - destruct extra; simpl; [done|].
    rewrite lookup_ge_None_2; [done|lia].
  - destruct (cs !! i) as [entry|] eqn:E; [|done].
    apply IH. destruct (PyStr.startswith (text entry) "remark"); [|lia].
    pose proof (list_remove_length entry cs). lia.
Qed.

(** C7, on the code: of two remarks in a row the second one stays. *)
Theorem remove_acl_remarks_skips_a_remark :
  text <$> children_of (_remove_acl_remarks acl_example) [0%nat]
  = ["remark b"; "permit ip any any"].
Proof. vm_compute. reflexivity. Qed.

(** ** Loading a dump *)

Lemma lineage_length (r : ref) : length (lineage r) = length r.
Proof. induction r as [|i up IH]; simpl; [done|]. rewrite length_app. simpl. lia. Qed.

Lemma lineage_lookup (r p : ref) (k : nat) :
  lineage r !! k = Some p → length p = S k ∧ p `suffix_of` r.
Proof.
  revert k p; induction r as [|i up IH]; intros k p; simpl; [done|].
  destruct (decide (k < length up)%nat) as [Hlt|Hge].
  - rewrite lookup_app_l by (by rewrite lineage_length).
    intros H. apply IH in H as [? ?]. split; [done|]. by apply suffix_cons_r.
  - rewrite lookup_app_r by (rewrite lineage_length; lia).
    rewrite lineage_length.
    destruct (k - length up)%nat as [|j] eqn:E; simpl; [|done].
    intros [= <-]. simpl. split; [lia|done].
Qed.

Lemma lineage_lookup_suffix (r p : ref) :
  p `suffix_of` r → p ≠ [] → lineage r !! (length p - 1)%nat = Some p.
Proof.
  intros [q ->] Hne. induction q as [|x q IH]; simpl.
  - destruct p as [|i up]; [done|]. simpl.
    rewrite lookup_app_r by (rewrite lineage_length; lia).
    rewrite lineage_length. by replace (length up - 0 - length up)%nat with O by lia.
  - rewrite lookup_app_l; [done|].
    rewrite lineage_length, length_app. destruct p; [done|]. simpl. lia.
Qed.

(** The parent that is picked is one level above the item. *)
Lemma parent_for_depth (last_item p : ref) (d : Z) :
  parent_for last_item d = inr p → depth p = d - 1.
Proof.
  unfold parent_for, depth.
  case_bool_decide; [intros [= <-]; simpl; lia|].
  case_bool_decide.
  { destruct last_item as [|i up]; simpl in *; [done|]. intros [= <-]. lia. }
  case_bool_decide; [intros [= <-]; lia|].
  unfold islice_next. case_bool_decide; [done|].
  rewrite bool_decide_eq_true_2 by lia.
  destruct (lineage last_item !! Z.to_nat (d - 2)) as [p'|] eqn:E; [|done].
  intros [= <-]. apply lineage_lookup in E as [-> _]. lia.
Qed.


Lemma load_items_app (t : HConfig) (last_item : ref) (xs ys : list dump_item) :
  load_items t last_item (xs ++ ys)
  = match load_items t last_item xs with
    | (t1, l1, None) => load_items t1 l1 ys
    | r => r
    end.
Proof.
  revert t last_item; induction xs as [|x xs IH]; intros t last_item; simpl; [done|].
  destruct (parent_for last_item (item_depth x)); [done|]. apply IH.
Qed.




(** ** The sorted order *)

Lemma HConfigChild_nested_ind (P : HConfigChild → Prop) :
  (∀ n, Forall P (children n) → P n) → ∀ n, P n.
Proof.
  intros H. fix IH 1. intros [txt tg cm nw w lvl cs]. apply H. simpl.
  induction cs as [|c cs IHcs]; constructor; [apply IH | exact IHcs].
Qed.

Lemma insert_by_fmap {A B : Type} (f : A → B) (key : B → Z) (x : A) (l : list A) :
  insert_by key (f x) (f <$> l) = f <$> insert_by (key ∘ f) x l.
Proof.
  induction l as [|y l IH]; csimpl; [done|].
  unfold compose at 1. case_bool_decide; csimpl; [by rewrite IH | done].
Qed.

Lemma sorted_by_fmap {A B : Type} (f : A → B) (key : B → Z) (l : list A) :
  sorted_by key (f <$> l) = f <$> sorted_by (key ∘ f) l.
Proof.
  induction l as [|x l IH]; csimpl; [done|].
  unfold sorted_by in *. csimpl. rewrite IH. apply insert_by_fmap.
Qed.

Lemma insert_by_elem_of {A : Type} (key : A → Z) (x y : A) (l : list A) :
  y ∈ insert_by key x l ↔ y = x ∨ y ∈ l.
Proof.
  induction l as [|z l IH]; simpl.
  - rewrite elem_of_cons, elem_of_nil. tauto.
  - case_bool_decide; rewrite !elem_of_cons; [rewrite IH|]; tauto.
Qed.

Lemma sorted_by_elem_of {A : Type} (key : A → Z) (y : A) (l : list A) :
  y ∈ sorted_by key l ↔ y ∈ l.
Proof.
  induction l as [|x l IH]; simpl; [done|].
  unfold sorted_by in *. simpl. rewrite insert_by_elem_of, IH, elem_of_cons. tauto.
Qed.

(** Lines of one weight stay as they are. *)
Lemma sorted_by_same_key {A : Type} (key : A → Z) (k : Z) (l : list A) :
  Forall (λ x, key x = k) l → sorted_by key l = l.
Proof.
  induction 1 as [|x l Hx Hl IH]; [done|].
  unfold sorted_by in *. simpl. rewrite IH.
  destruct Hl as [|y l Hy Hl]; simpl; [done|].
  rewrite bool_decide_eq_false_2; [done|lia].
Qed.

Lemma dump_below_eq (d : Z) (n : HConfigChild) :
  dump_below d n
  = concat (snd <$> sorted_by fst
              ((λ c, (order_weight c, item_at d c :: dump_below (d + 1) c))
                 <$> children n)).
Proof.
  by destruct n as [txt tg cm nw w lvl cs].
Qed.

Lemma dump_below_forest (d : Z) (n : HConfigChild) :
  dump_below d n = dump_forest d (children n).
Proof.
  rewrite dump_below_eq. unfold dump_forest.
  rewrite sorted_by_fmap, <- list_fmap_compose. done.
Qed.

Lemma loaded_form_children (n : HConfigChild) :
  children (loaded_form n) = loaded_form <$> sorted_by order_weight (children n).
Proof.
  destruct n as [txt tg cm nw w lvl cs]. simpl.
  transitivity (snd <$> sorted_by fst ((λ c, (order_weight c, loaded_form c)) <$> cs)).
  - done.
  - rewrite sorted_by_fmap, <- list_fmap_compose. done.
Qed.

Lemma depth_cons (i : nat) (r : ref) : depth (i :: r) = depth r + 1.
Proof. unfold depth. simpl. lia. Qed.

Lemma fmap_concat {A B : Type} (f : A → B) (ls : list (list A)) :
  f <$> concat ls = concat ((λ l : list A, f <$> l) <$> ls).
Proof. induction ls as [|l ls IH]; csimpl; [done|]. by rewrite fmap_app, IH. Qed.

Lemma concat_sorted_fmap {A B : Type} (F : A → B) (L : list (Z * list A)) :
  F <$> concat (snd <$> sorted_by fst L)
  = concat (snd <$> sorted_by fst ((λ wl : Z * list A, (wl.1, F <$> wl.2)) <$> L)).
Proof.
  rewrite fmap_concat, sorted_by_fmap, <- !list_fmap_compose. done.
Qed.

Lemma all_children_sorted_below_eq (here : ref) (n : HConfigChild) :
  all_children_sorted_below here n
  = concat (snd <$> sorted_by fst
              (imap (λ i c, (order_weight c,
                             (i :: here, c) :: all_children_sorted_below (i :: here) c))
                    (children n))).
Proof.
  destruct n as [txt tg cm nw w lvl cs]. simpl. do 3 f_equal.
  match goal with |- ?e O cs = _ =>
    assert (∀ i, e i cs
                 = imap (λ j c, (order_weight c,
                                 ((i + j)%nat :: here, c)
                                   :: all_children_sorted_below ((i + j)%nat :: here) c)) cs)
      as He
  end.
  { induction cs as [|c cs IH]; intros i; csimpl; [done|].
    rewrite Nat.add_0_r, (IH (S i)). f_equal.
    apply imap_ext. intros j x _. simpl.
    by replace (i + S j)%nat with (S (i + j))%nat by lia. }
  apply (He O).
Qed.

(** The items of a sorted walk whose lines all have depth [d]. *)
Lemma walk_items (d : Z) (cs : list HConfigChild) (r : nat → ref) :
  Forall (λ c, ∀ here : ref,
            (λ rc, item_of rc.1 rc.2) <$> all_children_sorted_below here c
            = dump_below (depth here + 1) c) cs →
  (∀ j, depth (r j) = d) →
  (λ wl : Z * list (ref * HConfigChild), (wl.1, (λ rc, item_of rc.1 rc.2) <$> wl.2))
    <$> imap (λ j c, (order_weight c, (r j, c) :: all_children_sorted_below (r j) c)) cs
  = (λ c, (order_weight c, item_at d c :: dump_below (d + 1) c)) <$> cs.
Proof.
  intros Hcs. revert r. induction Hcs as [|c cs Hc Hcs IH]; intros r Hr; csimpl; [done|].
  rewrite Hc. unfold item_of at 1. rewrite Hr. f_equal.
  apply (IH (r ∘ S)). intros j. apply Hr.
Qed.

(** The sorted traversal below a line gives the items of [dump_below]. *)
Lemma all_children_sorted_below_items (n : HConfigChild) :
  ∀ here : ref,
    (λ rc, item_of rc.1 rc.2) <$> all_children_sorted_below here n
    = dump_below (depth here + 1) n.
Proof.
  induction n as [n IH] using HConfigChild_nested_ind. intros here.
  rewrite all_children_sorted_below_eq, concat_sorted_fmap, dump_below_eq.
  apply (f_equal (λ x, concat (snd <$> sorted_by fst x))).
  apply (walk_items (depth here + 1) (children n) (λ j, j :: here) IH).
  intros j. apply depth_cons.
Qed.

Lemma all_children_sorted_items (t : HConfig) :
  (λ rc, item_of rc.1 rc.2) <$> all_children_sorted t = dump_forest 1 (root_children t).
Proof.
  unfold all_children_sorted, dump_forest. rewrite concat_sorted_fmap.
  transitivity (concat (snd <$> sorted_by fst
     ((λ c, (order_weight c, item_at 1 c :: dump_below (1 + 1) c)) <$> root_children t))).
  - apply (f_equal (λ x, concat (snd <$> sorted_by fst x))).
    apply (walk_items 1 (root_children t) (λ j, [j])); [|done].
    apply Forall_forall. intros c _. apply all_children_sorted_below_items.
  - rewrite sorted_by_fmap, <- list_fmap_compose. done.
Qed.

(** ** The round trip through a dump *)

Lemma suffix_same_length {A : Type} (l1 l2 : list A) :
  l1 `suffix_of` l2 → length l1 = length l2 → l1 = l2.
Proof.
  intros [q ->]. rewrite length_app. intros H.
  destruct q; [done|]. simpl in H. lia.
Qed.

(** [load_from_dump] finds the parent of an item one level below [P] from
    any [last_item] at or below [P]. *)
Lemma parent_for_suffix (last_item P : ref) (d : Z) :
  P `suffix_of` last_item → depth P + 1 = d → parent_for last_item d = inr P.
Proof.
  intros Hs Hd. unfold parent_for, depth in *.
  case_bool_decide as H1.
  { destruct P; [done|]. simpl in Hd. lia. }
  case_bool_decide as H2.
  { destruct Hs as [q ->]. rewrite length_app in H2.
    destruct q as [|x [|y q]]; simpl in *; [lia|done|lia]. }
  case_bool_decide as H3.
  { f_equal. symmetry. apply suffix_same_length; [done|lia]. }
  pose proof (suffix_length _ _ Hs) as Hlen.
  unfold islice_next. rewrite bool_decide_eq_false_2 by lia.
  rewrite bool_decide_eq_true_2 by lia.
  replace (Z.to_nat (d - 2)) with (length P - 1)%nat by lia.
  rewrite (lineage_lookup_suffix last_item P Hs); [done|].
  destruct P; [|done]. simpl in Hd. lia.
Qed.

Lemma alter_children_id (g : list HConfigChild → list HConfigChild) (r : ref) (t : HConfig) :
  (∀ cs, g cs = cs) → alter_children g r t = t.
Proof.
  intros Hg. destruct t as [lvl f]. unfold alter_children. simpl. f_equal.
  generalize (rev r). intros p. revert f. induction p as [|i p IH]; intros f; simpl; [done|].
  apply list_alter_id. intros [txt tg cm nw w l cs]. unfold set_children. simpl.
  by rewrite IH.
Qed.

Lemma alter_children_ext (g h : list HConfigChild → list HConfigChild) (r : ref)
    (t : HConfig) :
  valid_ref t r → g (children_of t r) = h (children_of t r) →
  alter_children g r t = alter_children h r t.
Proof.
  intros Hv Hg. unfold alter_children. f_equal. by apply alter_children_at_ext.
Qed.

(** The tree after one item has been loaded under [P]. *)
Lemma load_step_tree (t : HConfig) (P : ref) (txt : string) (tg cm : gset string)
    (nw : bool) :
  valid_ref t P →
  alter_node (set_payload tg cm nw) (add_child t P txt true).2 (add_child t P txt true).1
  = alter_children (λ old, old ++ [mkChild txt tg cm nw 500 None []]) P t.
Proof.
  intros Hv. unfold add_child. simpl.
  rewrite alter_node_cons, alter_children_compose.
  apply alter_children_ext; [done|]. simpl.
  rewrite <- (Nat.add_0_r (length (children_of t P))). by rewrite alter_app_r.
Qed.

(** Changing the children of the line that was appended last. *)
Lemma alter_children_appended (g : list HConfigChild → list HConfigChild) (t : HConfig)
    (P : ref) (x : HConfigChild) :
  valid_ref t P →
  alter_children g (length (children_of t P) :: P)
    (alter_children (λ old, old ++ [x]) P t)
  = alter_children (λ old, old ++ [set_children x (g (children x))]) P t.
Proof.
  intros Hv. unfold alter_children. simpl. f_equal.
  rewrite alter_children_at_app, alter_children_at_compose.
  apply alter_children_at_ext; [|done]. simpl.
  fold (children_of t P).
  rewrite <- (Nat.add_0_r (length (children_of t P))). by rewrite alter_app_r.
Qed.

Lemma loaded_form_unfold (c : HConfigChild) :
  loaded_form c
  = mkChild (text c) (tags c) (comments c) (new_in_config c) 500 None
            (children (loaded_form c)).
Proof. by destruct c. Qed.

Lemma load_items_cons (t : HConfig) (last_item : ref) (item : dump_item)
    (rest : list dump_item) :
  load_items t last_item (item :: rest)
  = match parent_for last_item (item_depth item) with
    | inl e => (t, last_item, Some e)
    | inr p =>
        load_items
          (alter_node
             (set_payload (list_to_set (item_tags item)) (list_to_set (item_comments item))
                          (item_new_in_config item))
             (add_child t p (item_text item) true).2
             (add_child t p (item_text item) true).1)
          (add_child t p (item_text item) true).2 rest
    end.
Proof. reflexivity. Qed.

Lemma load_sorted (l : list HConfigChild) :
  Forall (λ c, loads_below (children c)) l →
  ∀ (d : Z) (t : HConfig) (P last_item : ref),
    valid_ref t P → depth P + 1 = d → P `suffix_of` last_item →
    ∃ last_item',
      load_items t last_item
        (concat ((λ c, item_at d c :: dump_below (d + 1) c) <$> l))
      = (alter_children (λ old, old ++ (loaded_form <$> l)) P t, last_item', None)
      ∧ P `suffix_of` last_item'.
Proof.
  induction 1 as [|c l Hc Hl IH]; intros d t P last_item Hv Hd Hs.
  - exists last_item. split; [|done]. csimpl.
    rewrite alter_children_id; [done|]. intros cs. apply app_nil_r.
  - rewrite !fmap_cons. cbn [concat app]. rewrite load_items_cons.
    cbn [item_at item_depth item_text item_tags item_comments item_new_in_config].
    rewrite (parent_for_suffix last_item P d Hs Hd).
    rewrite !list_to_set_elements_L, load_step_tree by done.
    change ((add_child t P (text c) true).2) with (length (children_of t P) :: P).
    set (x := mkChild (text c) (tags c) (comments c) (new_in_config c) 500 None []).
    set (t1 := alter_children (λ old, old ++ [x]) P t).
    assert (valid_ref t1 (length (children_of t P) :: P)) as Hv1.
    { apply valid_ref_cons. split; [by apply valid_ref_alter_children|].
      subst t1. rewrite children_of_alter_children by done.
      rewrite length_app. simpl. lia. }
    rewrite load_items_app, dump_below_forest.
    destruct (Hc (d + 1) t1 (length (children_of t P) :: P)
                (length (children_of t P) :: P) Hv1) as (l1 & -> & Hs1);
      [rewrite depth_cons; lia|done|].
    subst t1. rewrite alter_children_appended by done.
    assert (set_children x (children x ++ (loaded_form <$> sorted_by order_weight (children c)))
            = loaded_form c) as Hx.
    { rewrite <- loaded_form_children. subst x.
      rewrite (loaded_form_unfold c) at 2. reflexivity. }
    cbv beta. rewrite Hx. clear Hx.
    set (t2 := alter_children (λ old, old ++ [loaded_form c]) P t).
    destruct (IH d t2 P l1) as (l2 & -> & Hs2).
    { by apply valid_ref_alter_children. }
    { done. }
    { etrans; [|exact Hs1]. by apply suffix_cons_r. }
    exists l2. split; [|done]. subst t2. rewrite alter_children_compose.
    do 2 f_equal. apply alter_children_ext; [done|]. simpl.
    by rewrite <- app_assoc.
Qed.

Lemma loads_below_step (cs : list HConfigChild) :
  Forall (λ c, loads_below (children c)) cs → loads_below cs.
Proof.
  intros Hcs d t P last_item Hv Hd Hs. unfold dump_forest.
  apply load_sorted; [|done..].
  apply Forall_forall. intros c Hc. rewrite Forall_forall in Hcs.
  apply Hcs. by apply sorted_by_elem_of in Hc.
Qed.

Lemma loads_below_children (n : HConfigChild) : loads_below (children n).
Proof.
  induction n as [n IH] using HConfigChild_nested_ind. by apply loads_below_step.
Qed.

Lemma loads_below_all (cs : list HConfigChild) : loads_below cs.
Proof.
  apply loads_below_step, Forall_forall. intros c _. apply loads_below_children.
Qed.

(** The dump of what was loaded is the dump that was loaded. *)
Lemma dump_forest_loaded (cs : list HConfigChild) :
  Forall (λ c, ∀ d, dump_below d (loaded_form c) = dump_below d c) cs →
  ∀ d, dump_forest d (loaded_form <$> sorted_by order_weight cs) = dump_forest d cs.
Proof.
  intros Hcs d. unfold dump_forest.
  rewrite (sorted_by_same_key order_weight 500).
  - rewrite <- list_fmap_compose. f_equal. apply list_fmap_ext.
    intros i c Hc. simpl. apply list_elem_of_lookup_2, sorted_by_elem_of in Hc.
    rewrite Forall_forall in Hcs. rewrite (Hcs c Hc). by destruct c.
  - apply Forall_fmap, Forall_forall. intros c _. by destruct c.
Qed.

Lemma dump_below_loaded (n : HConfigChild) :
  ∀ d, dump_below d (loaded_form n) = dump_below d n.
Proof.
  induction n as [n IH] using HConfigChild_nested_ind. intros d.
  rewrite !dump_below_forest, loaded_form_children. by apply dump_forest_loaded.
Qed.

Section RoundTrip.

Variable re_search : string → string → bool.
Variable strip_negation_of : string → string.

(** C1: loading the dump of a tree, taken without lineage rules, into a new
    tree gives a tree with the same lines, each with its depth, text, tags,
    comments and [new_in_config]: its dump is the dump that was loaded.  The
    tree that is built is [loaded_tree]. *)
Theorem load_from_dump_round_trip (t : HConfig) :
  load_from_dump (dump re_search strip_negation_of t None) HConfig_new
  = (loaded_tree t, None)
  ∧ dump re_search strip_negation_of (loaded_tree t) None
    = dump re_search strip_negation_of t None.
Proof.
  unfold dump, load_from_dump. rewrite !all_children_sorted_items. split.
  - destruct (loads_below_all (root_children t) 1 HConfig_new [] [])
      as (l' & -> & _); [done..|].
    done.
  - unfold loaded_tree. simpl. apply dump_forest_loaded, Forall_forall.
    intros c _. apply dump_below_loaded.
Qed.

End RoundTrip.

(** ** The filtered traversal *)

Lemma lineage_elem_of (a r : ref) : a ∈ lineage r ↔ a ≠ [] ∧ a `suffix_of` r.
Proof.
  induction r as [|i up IH]; simpl.
  - rewrite elem_of_nil. split; [done|]. intros [Hne Hs].
    by apply suffix_nil_inv in Hs.
  - rewrite elem_of_app, list_elem_of_singleton, IH. split.
    + intros [[Hne Hs]| ->]; [|done]. split; [done|]. by apply suffix_cons_r.
    + intros [Hne Hs]. apply suffix_of_cons_case in Hs as [->|Hs]; [by right|by left].
Qed.

Lemma lineage_NoDup (r : ref) : NoDup (lineage r).
Proof.
  induction r as [|i up IH]; simpl; [constructor|].
  apply NoDup_app. split; [done|]. split; [|apply NoDup_singleton].
  intros a Ha. rewrite list_elem_of_singleton. intros ->.
  apply lineage_elem_of in Ha as [_ Hs]. by apply suffix_cons_not in Hs.
Qed.

Lemma suffix_unique_length {A : Type} (a b c : list A) :
  a `suffix_of` c → b `suffix_of` c → length a = length b → a = b.
Proof.
  intros [q1 ->] [q2 E] Hlen. by apply app_inj_2 in E as [_ ->].
Qed.

Lemma filter_ext_elem {A : Type} (P Q : A → Prop) `{!∀ x, Decision (P x)}
    `{!∀ x, Decision (Q x)} (l : list A) :
  (∀ x, x ∈ l → P x ↔ Q x) → filter P l = filter Q l.
Proof.
  induction l as [|a l IH]; intros Hl; [done|].
  rewrite !filter_cons. rewrite IH by (intros x Hx; apply Hl; by right).
  destruct (decide (P a)) as [HP|HP], (decide (Q a)) as [HQ|HQ]; try done.
  - exfalso. apply HQ, Hl; [by left|done].
  - exfalso. apply HP, Hl; [by left|done].
Qed.

(** The loop over the lineage yields the members that are not yet yielded,
    in the order of the lineage, and marks them all. *)
Lemma yield_lineage_marks (lin : list ref) (already : gset ref) :
  (yield_lineage lin already).2 = already ∪ list_to_set lin.
Proof.
  revert already; induction lin as [|a rest IH]; intros already; simpl.
  - set_solver.
  - case_bool_decide; simpl; rewrite IH; set_solver.
Qed.

Lemma yield_lineage_yields (lin : list ref) (already : gset ref) :
  NoDup lin → (yield_lineage lin already).1 = filter (λ a, a ∉ already) lin.
Proof.
  intros Hnd. revert already; induction Hnd as [|a rest Ha Hnd IH]; intros already; simpl.
  - done.
  - case_bool_decide as Hin.
    + rewrite filter_cons_False by (intros H; by apply H). apply IH.
    + rewrite filter_cons_True by done. simpl. f_equal. rewrite IH.
      apply filter_ext_elem. intros x Hx. set_solver.
Qed.

(** *** The sorted traversal goes parent first *)

Lemma concat_elem_of {A : Type} (x : A) (ls : list (list A)) :
  x ∈ concat ls ↔ ∃ l, x ∈ l ∧ l ∈ ls.
Proof.
  induction ls as [|l ls IH]; simpl.
  - rewrite elem_of_nil. split; [done|]. intros (l & _ & Hl). by apply elem_of_nil in Hl.
  - rewrite elem_of_app, IH. split.
    + intros [Hx|(l' & Hx & Hl')]; [exists l|exists l']; split; try done;
        [by left|by right].
    + intros (l' & Hx & Hl'). apply elem_of_cons in Hl' as [->|Hl']; [by left|].
      right. by exists l'.
Qed.

Lemma insert_by_perm {A : Type} (key : A → Z) (x : A) (l : list A) :
  insert_by key x l ≡ₚ x :: l.
Proof.
  induction l as [|y l IH]; simpl; [done|].
  case_bool_decide; [|done]. rewrite IH. apply perm_swap.
Qed.

Lemma sorted_by_perm {A : Type} (key : A → Z) (l : list A) : sorted_by key l ≡ₚ l.
Proof.
  induction l as [|x l IH]; simpl; [done|].
  unfold sorted_by in *. simpl. by rewrite insert_by_perm, IH.
Qed.

Lemma imap_pair_fst {A : Type} (l : list A) (i : nat) :
  fst <$> imap (λ j x, ((i + j)%nat, x)) l = seq i (length l).
Proof.
  revert i; induction l as [|x l IH]; intros i; csimpl; [done|].
  rewrite Nat.add_0_r. f_equal. rewrite <- (IH (S i)). f_equal.
  apply imap_ext. intros j y _. simpl. f_equal. lia.
Qed.

Lemma sorted_positions_NoDup (cs : list HConfigChild) :
  NoDup (fst <$> sorted_positions cs).
Proof.
  unfold sorted_positions. rewrite sorted_by_perm.
  change (imap pair cs) with (imap (λ j x, ((0 + j)%nat, x)) cs).
  rewrite (imap_pair_fst cs 0). apply NoDup_seq.
Qed.

Lemma sorted_positions_elem_of (cs : list HConfigChild) (i : nat) (c : HConfigChild) :
  (i, c) ∈ sorted_positions cs → cs !! i = Some c.
Proof.
  unfold sorted_positions. rewrite sorted_by_elem_of, list_elem_of_lookup.
  intros [j Hj]. apply list_lookup_imap_Some in Hj as (y & Hy & [= -> ->]). done.
Qed.

(** The lines of a sorted walk: each child in sorted order, with its
    position, and the lines below it after it. *)
Lemma all_children_sorted_below_refs (here : ref) (n : HConfigChild) :
  fst <$> all_children_sorted_below here n
  = concat ((λ ic : nat * HConfigChild,
               (ic.1 :: here) :: (fst <$> all_children_sorted_below (ic.1 :: here) ic.2))
              <$> sorted_positions (children n)).
Proof.
  rewrite all_children_sorted_below_eq, fmap_concat. unfold sorted_positions.
  rewrite <- list_fmap_compose.
  change (imap (λ i c, (order_weight c,
                        (i :: here, c) :: all_children_sorted_below (i :: here) c))
               (children n))
    with (imap (λ i, (λ ic : nat * HConfigChild,
                        (order_weight ic.2,
                         (ic.1 :: here, ic.2)
                           :: all_children_sorted_below (ic.1 :: here) ic.2)) ∘ pair i)
               (children n)).
  rewrite <- fmap_imap, sorted_by_fmap, <- list_fmap_compose. done.
Qed.

Lemma all_children_sorted_refs (t : HConfig) :
  fst <$> all_children_sorted t
  = concat ((λ ic : nat * HConfigChild,
               [ic.1] :: (fst <$> all_children_sorted_below [ic.1] ic.2))
              <$> sorted_positions (root_children t)).
Proof.
  unfold all_children_sorted. rewrite fmap_concat. unfold sorted_positions.
  rewrite <- list_fmap_compose.
  change (imap (λ i c, (order_weight c, ([i], c) :: all_children_sorted_below [i] c))
               (root_children t))
    with (imap (λ i, (λ ic : nat * HConfigChild,
                        (order_weight ic.2,
                         ([ic.1], ic.2) :: all_children_sorted_below [ic.1] ic.2))
                     ∘ pair i)
               (root_children t)).
  rewrite <- fmap_imap, sorted_by_fmap, <- list_fmap_compose. done.
Qed.

(** Every line of the walk below [here] is below one of its children. *)
Lemma all_children_sorted_below_suffix (n : HConfigChild) :
  ∀ (here r : ref),
    r ∈ fst <$> all_children_sorted_below here n → ∃ i, (i :: here) `suffix_of` r.
Proof.
  induction n as [n IH] using HConfigChild_nested_ind. intros here r.
  rewrite all_children_sorted_below_refs, concat_elem_of.
  intros (block & Hr & Hblock).
  apply list_elem_of_fmap in Hblock as ([i c] & -> & Hic). simpl in Hr.
  apply sorted_positions_elem_of in Hic.
  apply elem_of_cons in Hr as [->|Hr]; [by exists i|].
  rewrite Forall_forall in IH.
  destruct (IH c (list_elem_of_lookup_2 _ _ _ Hic) (i :: here) r Hr) as [i' Hs].
  exists i. by apply suffix_cons_l in Hs.
Qed.

Lemma pre_order_app (l1 l2 : list ref) :
  pre_order l1 → pre_order l2 →
  Forall (λ c, Forall (λ d, ¬ d `suffix_of` c) l2) l1 →
  pre_order (l1 ++ l2).
Proof.
  induction l1 as [|c l1 IH]; simpl; [done|].
  intros [Hc H1] H2 Hcross. apply Forall_cons in Hcross as [Hc2 Hcross].
  split; [by apply Forall_app|by apply IH].
Qed.

Lemma pre_order_blocks (here : ref) (L : list (nat * HConfigChild)) :
  NoDup (fst <$> L) →
  Forall (λ ic, pre_order (fst <$> all_children_sorted_below (ic.1 :: here) ic.2)) L →
  pre_order
    (concat ((λ ic : nat * HConfigChild,
                (ic.1 :: here) :: (fst <$> all_children_sorted_below (ic.1 :: here) ic.2))
               <$> L)).
Proof.
  induction L as [|[i c] L IH]; csimpl; [done|].
  intros [Hi Hnd]%NoDup_cons [Hc HL]%Forall_cons. simpl in Hc.
  split.
  - apply Forall_app. split.
    + apply Forall_forall. intros d Hd Hs.
      apply all_children_sorted_below_suffix in Hd as [i' Hd].
      apply suffix_length in Hs, Hd. simpl in *. lia.
    + apply Forall_forall. intros d Hd Hs.
      apply concat_elem_of in Hd as (block & Hd & Hblock).
      apply list_elem_of_fmap in Hblock as ([j c'] & -> & Hjc). simpl in Hd.
      assert ((j :: here) `suffix_of` d) as Hj.
      { apply elem_of_cons in Hd as [->|Hd]; [done|].
        apply all_children_sorted_below_suffix in Hd as [j' Hd].
        by apply suffix_cons_l in Hd. }
      assert (j :: here = i :: here) as [= ->].
      { apply (suffix_unique_length _ _ (i :: here)); [by etrans|done|done]. }
      apply Hi. apply list_elem_of_fmap. by exists (i, c').
  - apply pre_order_app; [done|by apply IH|].
    apply Forall_forall. intros c' Hc'. apply Forall_forall. intros d Hd Hs.
    apply all_children_sorted_below_suffix in Hc' as [i' Hc'].
    apply concat_elem_of in Hd as (block & Hd & Hblock).
    apply list_elem_of_fmap in Hblock as ([j c''] & -> & Hjc). simpl in Hd.
    assert ((j :: here) `suffix_of` d) as Hj.
    { apply elem_of_cons in Hd as [->|Hd]; [done|].
      apply all_children_sorted_below_suffix in Hd as [j' Hd].
      by apply suffix_cons_l in Hd. }
    assert (j :: here = i :: here) as [= ->].
    { apply (suffix_unique_length _ _ c'); [by etrans| |done].
      by apply suffix_cons_l in Hc'. }
    apply Hi. apply list_elem_of_fmap. by exists (i, c'').
Qed.

Lemma all_children_sorted_below_pre_order (n : HConfigChild) :
  ∀ here : ref, pre_order (fst <$> all_children_sorted_below here n).
Proof.
  induction n as [n IH] using HConfigChild_nested_ind. intros here.
  rewrite all_children_sorted_below_refs.
  apply pre_order_blocks; [apply sorted_positions_NoDup|].
  apply Forall_forall. intros [i c] Hic. simpl.
  apply sorted_positions_elem_of in Hic. rewrite Forall_forall in IH.
  apply IH. by eapply list_elem_of_lookup_2.
Qed.

Lemma all_children_sorted_pre_order (t : HConfig) :
  pre_order (fst <$> all_children_sorted t).
Proof.
  rewrite all_children_sorted_refs.
  apply pre_order_blocks; [apply sorted_positions_NoDup|].
  apply Forall_forall. intros [i c] _. apply all_children_sorted_below_pre_order.
Qed.

Lemma all_children_sorted_nonempty (t : HConfig) (r : ref) :
  r ∈ fst <$> all_children_sorted t → r ≠ [].
Proof.
  rewrite all_children_sorted_refs, concat_elem_of.
  intros (block & Hr & Hblock).
  apply list_elem_of_fmap in Hblock as ([i c] & -> & _). simpl in Hr.
  apply elem_of_cons in Hr as [->|Hr]; [done|].
  apply all_children_sorted_below_suffix in Hr as [i' Hs]. intros ->.
  by apply suffix_nil_inv in Hs.
Qed.

(** *** The marks of the filtered traversal *)

Section Filtered.

Variable re_search : string → string → bool.
Variable strip_negation_of : string → string.

Lemma filtered_pass_app (rules : list lineage_rule) (t : HConfig) (m : marks)
    (l1 l2 : list ref) :
  filtered_pass re_search strip_negation_of rules t m (l1 ++ l2)
  = filtered_pass re_search strip_negation_of rules t m l1
    ++ filtered_pass re_search strip_negation_of rules t
         (marks_after re_search strip_negation_of rules t m l1) l2.
Proof.
  revert m; induction l1 as [|c l1 IH]; intros m; simpl; [done|].
  by rewrite IH, <- app_assoc.
Qed.

(** A turn of the loop marks the line visited or members of its lineage
    only. *)
Lemma visit_marks (rules : list lineage_rule) (t : HConfig) (m : marks) (child y : ref) :
  let m' := (visit re_search strip_negation_of rules t m child).2 in
  y ∈ yielded m' ∨ y ∈ matched m' →
  (y ∈ yielded m ∨ y ∈ matched m) ∨ y `suffix_of` child.
Proof.
  unfold visit.
  destruct (existsb _ (lineage child)); simpl.
  { rewrite elem_of_union, elem_of_singleton. intros [[->|?]|?]; auto. }
  destruct (List.find _ rules); simpl; [|auto].
  rewrite yield_lineage_marks, !elem_of_union, elem_of_singleton, elem_of_list_to_set.
  intros [[?|Hy]|[->|?]]; auto.
  apply lineage_elem_of in Hy as [_ ?]. auto.
Qed.

Lemma visit_marks_behind (rules : list lineage_rule) (t : HConfig) (m : marks)
    (child : ref) (rest : list ref) :
  Forall (λ d, ¬ d `suffix_of` child) rest →
  marks_behind m (child :: rest) →
  marks_behind (visit re_search strip_negation_of rules t m child).2 rest.
Proof.
  intros Hrest Hm y Hy. apply visit_marks in Hy as [Hy|Hy].
  - by apply Hm, Forall_cons in Hy as [_ ?].
  - eapply Forall_impl; [exact Hrest|]. simpl. intros d Hd Hs. apply Hd. by etrans.
Qed.

Lemma marks_after_behind (rules : list lineage_rule) (t : HConfig) (m : marks)
    (l1 l2 : list ref) :
  pre_order (l1 ++ l2) → marks_behind m (l1 ++ l2) →
  marks_behind (marks_after re_search strip_negation_of rules t m l1) l2.
Proof.
  revert m; induction l1 as [|c l1 IH]; intros m; simpl; [done|].
  intros [Hc Hpre] Hm. apply IH; [done|]. by apply visit_marks_behind.
Qed.

(** C4, as the code has it.  The filtered traversal is one pass over the
    sorted sequence: what it yields is what the turns yield, one after the
    other.  When the turn of a line comes, the line is neither yielded nor
    matched yet.  If a member of its lineage is matched, the turn yields the
    line.  Otherwise, if a rule matches, the turn yields at once the members
    of the lineage that are not yet yielded, in the order of the lineage,
    outermost first, and the matched line itself is the last of them.
    Otherwise the turn yields nothing. *)
Theorem filtered_traversal_turn (rules : list lineage_rule) (t : HConfig)
    (before after : list ref) (child : ref) :
  fst <$> all_children_sorted t = before ++ child :: after →
  let m := marks_after re_search strip_negation_of rules t (mkMarks ∅ ∅) before in
  let turn := visit re_search strip_negation_of rules t m child in
  all_children_sorted_with_lineage_rules re_search strip_negation_of rules t
  = filtered_pass re_search strip_negation_of rules t (mkMarks ∅ ∅) before
    ++ turn.1 ++ filtered_pass re_search strip_negation_of rules t turn.2 after
  ∧ (child ∉ yielded m)
  ∧ (child ∉ matched m)
  ∧ if existsb (λ ancestor, bool_decide (ancestor ∈ matched m)) (lineage child)
    then turn.1 = [child]
    else match List.find
                 (λ rule, lineage_test re_search strip_negation_of rule false
                            (lineage_texts t child)) rules with
         | Some _ =>
             turn.1 = filter (λ a, a ∉ yielded m) (lineage child)
             ∧ last turn.1 = Some child
             ∧ child ∈ matched turn.2
         | None => turn.1 = []
         end.
Proof.
  intros Hseq m turn.
  assert (marks_behind m (child :: after)) as Hm.
  { apply marks_after_behind.
    - rewrite <- Hseq. apply all_children_sorted_pre_order.
    - intros y [Hy|Hy]; simpl in Hy; by apply elem_of_empty in Hy. }
  assert ((child ∉ yielded m) ∧ (child ∉ matched m)) as [Hy Hmt].
  { split; intros Hin.
    - assert (Forall (λ c, ¬ c `suffix_of` child) (child :: after)) as Hf
        by (apply Hm; auto).
      by apply Forall_cons in Hf as [Hf _].
    - assert (Forall (λ c, ¬ c `suffix_of` child) (child :: after)) as Hf
        by (apply Hm; auto).
      by apply Forall_cons in Hf as [Hf _]. }
  assert (child ≠ []) as Hne.
  { apply (all_children_sorted_nonempty t). rewrite Hseq.
    apply elem_of_app. right. by left. }
  split; [|split; [done|split; [done|]]].
  - unfold all_children_sorted_with_lineage_rules. rewrite Hseq.
    by rewrite filtered_pass_app.
  - subst turn. unfold visit.
    destruct (existsb _ (lineage child)); [done|].
    destruct (List.find _ rules); [|done]. simpl.
    rewrite yield_lineage_yields by apply lineage_NoDup.
    split; [done|]. split; [|set_solver].
    destruct child as [|i up]; [done|]. simpl.
    rewrite filter_app, filter_cons_True by done. apply last_snoc.
Qed.

End Filtered.

(** A witness of C4: the turn of the innermost line of the example. *)
Lemma filtered_traversal_turn_witness :
  fst <$> all_children_sorted lineage_example
  = [[0%nat]; [0%nat; 0%nat]] ++ [0%nat; 0%nat; 0%nat] :: []
  ∧ all_children_sorted_with_lineage_rules literal_search id [lineage_example_rule]
      lineage_example
    = [[0%nat]; [0%nat; 0%nat]; [0%nat; 0%nat; 0%nat]].
Proof.
  assert (fst <$> all_children_sorted lineage_example
          = [[0%nat]; [0%nat; 0%nat]] ++ [0%nat; 0%nat; 0%nat] :: []) as Hseq
    by (vm_compute; reflexivity).
  split; [exact Hseq|].
  destruct (filtered_traversal_turn literal_search id [lineage_example_rule]
              lineage_example _ _ _ Hseq) as (-> & _).
  vm_compute. reflexivity.
Defined.

(** The counterexample of C4: when the innermost line of the example
    matches, the code yields its two ancestors, the outermost first, and the
    line itself with them; the claim has the nearest ancestor first and the
    line not yet. *)
Lemma matched_line_is_yielded_with_its_lineage :
  (visit literal_search id [lineage_example_rule] lineage_example
     (marks_after literal_search id [lineage_example_rule] lineage_example
        (mkMarks ∅ ∅) [[0%nat]; [0%nat; 0%nat]])
     [0%nat; 0%nat; 0%nat]).1
  = [[0%nat]; [0%nat; 0%nat]; [0%nat; 0%nat; 0%nat]]
  ∧ yielded_as_claimed ∅ [0%nat; 0%nat; 0%nat] = [[0%nat; 0%nat]; [0%nat]].
Proof. split; vm_compute; reflexivity. Qed.

(** ** Sectional exiting *)

Lemma index_of_text_None (txt : string) (cs : list HConfigChild) :
  index_of_text txt cs = None ↔ Forall (λ c, text c ≠ txt) cs.
Proof.
  induction cs as [|c cs IH]; simpl; [by split|].
  rewrite Forall_cons. case_decide as Hc.
  - split; [done|]. by intros [? _].
  - rewrite fmap_None, IH. tauto.
Qed.

Lemma del_child_by_text_Forall (cs : list HConfigChild) (txt : string) :
  Forall (λ c, text c ≠ txt) (del_child_by_text cs txt).
Proof.
  unfold del_child_by_text. apply Forall_forall. intros c Hc.
  by apply list_elem_of_filter in Hc as [? _].
Qed.

Lemma del_child_by_text_absent (cs : list HConfigChild) (txt : string) :
  Forall (λ c, text c ≠ txt) cs → del_child_by_text cs txt = cs.
Proof.
  unfold del_child_by_text. induction 1 as [|c cs Hc Hcs IH]; [done|].
  by rewrite filter_cons_True, IH.
Qed.

Lemma filter_none {A : Type} (P : A → Prop) `{!∀ x, Decision (P x)} (l : list A) :
  Forall (λ x, ¬ P x) l → filter P l = [].
Proof. induction 1 as [|x l Hx Hl IH]; [done|]. by rewrite filter_cons_False. Qed.

Lemma filter_del_child_by_text_same (cs : list HConfigChild) (txt : string) :
  filter (λ c, text c = txt) (del_child_by_text cs txt) = [].
Proof. apply filter_none, del_child_by_text_Forall. Qed.

Lemma filter_del_child_by_text_other (cs : list HConfigChild) (txt txt' : string) :
  txt ≠ txt' →
  filter (λ c, text c = txt) (del_child_by_text cs txt') = filter (λ c, text c = txt) cs.
Proof.
  intros Hne. unfold del_child_by_text. apply list_filter_filter_l. by intros c ->.
Qed.

Lemma height_children (n : HConfigChild) : height n = S (forest_height (children n)).
Proof.
  by destruct n as [txt tg cm nw w lvl cs].
Qed.

Lemma forest_height_app (l1 l2 : list HConfigChild) :
  forest_height (l1 ++ l2) = Nat.max (forest_height l1) (forest_height l2).
Proof.
  unfold forest_height. induction l1 as [|c l1 IH]; simpl; [done|]. rewrite IH. lia.
Qed.

Lemma forest_height_elem_of (c : HConfigChild) (cs : list HConfigChild) :
  c ∈ cs → (height c ≤ forest_height cs)%nat.
Proof.
  unfold forest_height. induction 1 as [c cs|c c' cs Hc IH]; simpl; lia.
Qed.

Lemma forest_height_filter (P : HConfigChild → Prop) `{!∀ c, Decision (P c)}
    (cs : list HConfigChild) :
  (forest_height (filter P cs) ≤ forest_height cs)%nat.
Proof.
  unfold forest_height. induction cs as [|c cs IH]; simpl; [done|].
  rewrite filter_cons. destruct (decide (P c)); simpl; lia.
Qed.

Section Exiting.

Variable re_search : string → string → bool.
Variable strip_negation_of : string → string.

Lemma positions_match_length (rule : lineage_rule) (texts : list string) :
  positions_match re_search rule texts = true → length rule = length texts.
Proof.
  revert texts; induction rule as [|s rule IH]; intros [|txt texts]; simpl; try done.
  intros [_ H]%andb_prop. f_equal. by apply IH.
Qed.

(** What the body of the loop does on a line that the rule matches: the
    children with the exit text go, and a new exit line comes last. *)
Lemma exit_rule_on_match (texts : list string) (child : HConfigChild)
    (rule : exiting_rule) :
  lineage_test re_search strip_negation_of (exiting_lineage rule) false texts = true →
  exit_rule_on re_search strip_negation_of texts child rule
  = set_children child
      (del_child_by_text (children child) (exit_text rule)
       ++ [exit_line (exit_text rule)]).
Proof.
  intros Hm. unfold exit_rule_on. rewrite Hm. f_equal.
  set (cs := if has_child _ _ then _ else _).
  assert (cs = del_child_by_text (children child) (exit_text rule)
          ∧ index_of_text (exit_text rule) cs = None) as [Hcs Hidx].
  { subst cs. unfold has_child. case_bool_decide as Hh.
    - split; [done|]. apply index_of_text_None, del_child_by_text_Forall.
    - assert (index_of_text (exit_text rule) (children child) = None) as Hn.
      { destruct (index_of_text _ _); [|done]. exfalso. apply Hh. eauto. }
      split; [|done]. symmetry. by apply del_child_by_text_absent, index_of_text_None. }
  unfold add_child_to. rewrite Hidx. simpl. rewrite <- Hcs.
  rewrite <- (Nat.add_0_r (length cs)). by rewrite alter_app_r.
Qed.

Lemma exit_rule_on_no_match (texts : list string) (child : HConfigChild)
    (rule : exiting_rule) :
  lineage_test re_search strip_negation_of (exiting_lineage rule) false texts = false →
  exit_rule_on re_search strip_negation_of texts child rule = child.
Proof. intros Hm. unfold exit_rule_on. by rewrite Hm. Qed.

Lemma exit_rule_on_text (texts : list string) (child : HConfigChild)
    (rule : exiting_rule) :
  text (exit_rule_on re_search strip_negation_of texts child rule) = text child
  ∧ order_weight (exit_rule_on re_search strip_negation_of texts child rule)
    = order_weight child.
Proof. unfold exit_rule_on. by destruct (lineage_test _ _ _ _ _). Qed.

Lemma exit_rules_text (texts : list string) (rules : list exiting_rule)
    (child : HConfigChild) :
  text (fold_left (exit_rule_on re_search strip_negation_of texts) rules child)
  = text child
  ∧ order_weight (fold_left (exit_rule_on re_search strip_negation_of texts) rules child)
    = order_weight child.
Proof.
  revert child; induction rules as [|rule rules IH]; intros child; simpl; [done|].
  destruct (IH (exit_rule_on re_search strip_negation_of texts child rule)) as [-> ->].
  apply exit_rule_on_text.
Qed.

(** After the loop over the rules, every rule that matches the line has its
    one exit line among the children. *)
Lemma exit_rules_children (texts : list string) (rules : list exiting_rule)
    (child : HConfigChild) (rule : exiting_rule) :
  rule ∈ rules →
  lineage_test re_search strip_negation_of (exiting_lineage rule) false texts = true →
  ∃ c, filter (λ c, text c = exit_text rule)
         (children (fold_left (exit_rule_on re_search strip_negation_of texts)
                              rules child))
       = [c]
       ∧ order_weight c = 999.
Proof.
  revert child. induction rules as [|r rules IH] using rev_ind; intros child Hin Hm.
  { by apply elem_of_nil in Hin. }
  rewrite fold_left_app. simpl.
  set (c1 := fold_left _ rules child).
  destruct (lineage_test re_search strip_negation_of (exiting_lineage r) false texts)
    eqn:Hr.
  - rewrite exit_rule_on_match by done. simpl. rewrite filter_app.
    destruct (decide (exit_text rule = exit_text r)) as [He|He].
    + exists (exit_line (exit_text r)). split; [|done].
      rewrite He, filter_del_child_by_text_same. by rewrite filter_cons_True.
    + rewrite filter_del_child_by_text_other by done.
      rewrite filter_cons_False, filter_nil, app_nil_r by (simpl; congruence).
      apply elem_of_app in Hin as [Hin|Hin]; [by apply IH|].
      apply list_elem_of_singleton in Hin as ->. done.
  - rewrite exit_rule_on_no_match by done.
    apply elem_of_app in Hin as [Hin|Hin]; [by apply IH|].
    apply list_elem_of_singleton in Hin as ->. congruence.
Qed.

(** The loop over the rules makes the line no higher than an exit line
    does, and changes nothing below a line that is deeper than every rule. *)
Lemma exit_rules_height (texts : list string) (rules : list exiting_rule)
    (child : HConfigChild) :
  (forest_height
     (children (fold_left (exit_rule_on re_search strip_negation_of texts) rules child))
   ≤ Nat.max (forest_height (children child))
             (if bool_decide (length texts ≤ max_rule_length rules)%nat then 1 else 0))%nat.
Proof.
  revert child. induction rules as [|r rules IH]; intros child; simpl; [lia|].
  etrans; [apply IH|].
  assert (if bool_decide (length texts ≤ max_rule_length rules)%nat
          then bool_decide (length texts
                            ≤ Nat.max (length (exiting_lineage r)) (max_rule_length rules))%nat
               = true
          else True) as Hmono.
  { case_bool_decide; [|done]. apply bool_decide_eq_true_2. lia. }
  destruct (lineage_test re_search strip_negation_of (exiting_lineage r) false texts)
    eqn:Hr.
  - rewrite exit_rule_on_match by done. simpl.
    rewrite forest_height_app.
    pose proof (forest_height_filter (λ c, text c ≠ exit_text r) (children child)) as Hf.
    fold (del_child_by_text (children child) (exit_text r)) in Hf.
    apply positions_match_length in Hr.
    rewrite (bool_decide_eq_true_2 (length texts ≤ Nat.max _ _)%nat) by lia.
    unfold forest_height at 2. simpl.
    destruct (bool_decide (length texts ≤ max_rule_length rules)%nat); lia.
  - rewrite exit_rule_on_no_match by done.
    destruct (bool_decide (length texts ≤ max_rule_length rules)%nat).
    + rewrite Hmono. lia.
    + destruct (bool_decide _); lia.
Qed.

Lemma filter_Forall2 {A : Type} (R : A → A → Prop) (P : A → Prop)
    `{!∀ x, Decision (P x)} (l k : list A) :
  (∀ x y, R x y → P x ↔ P y) → Forall2 R l k → Forall2 R (filter P l) (filter P k).
Proof.
  intros HR. induction 1 as [|x y l k Hxy Hlk IH]; [constructor|].
  rewrite !filter_cons.
  destruct (decide (P x)) as [Hx|Hx], (decide (P y)) as [Hy|Hy].
  - by constructor.
  - exfalso. by apply Hy, (HR x y).
  - exfalso. by apply Hx, (HR x y).
  - done.
Qed.

(** The walk leaves the text and the order weight of every line as they
    are, and below it every line that a rule matches has its exit line. *)
Lemma exit_walk_ok (rules : list exiting_rule) (fuel : nat) :
  ∀ (above : list string) (cs cs' : list HConfigChild),
    exit_walk re_search strip_negation_of fuel rules above cs = Some cs' →
    Forall (exits_ok re_search strip_negation_of rules above) cs'
    ∧ Forall2 (λ c c', text c' = text c ∧ order_weight c' = order_weight c) cs cs'.
Proof.
  induction fuel as [|fuel IH]; intros above cs cs'; simpl; [done|].
  intros Hwalk%mapM_Some_1.
  induction Hwalk as [|c c' cs cs' Hc Hcs IHcs]; [by split|].
  destruct IHcs as [IH1 IH2].
  apply fmap_Some in Hc as (cs'' & Hwalk' & ->).
  apply IH in Hwalk' as [Hok Hsame].
  set (c1 := fold_left _ rules c) in *.
  destruct (exit_rules_text (above ++ [text c]) rules c) as [Htxt Hw].
  fold c1 in Htxt, Hw.
  split; constructor; try done.
  constructor; simpl; rewrite Htxt; [|done].
  intros rule Hin Hm.
  destruct (exit_rules_children (above ++ [text c]) rules c rule Hin Hm) as (x & Hx & Hx9).
  fold c1 in Hx.
  assert (Forall2 (λ c c', text c' = text c ∧ order_weight c' = order_weight c)
            (filter (λ c, text c = exit_text rule) (children c1))
            (filter (λ c, text c = exit_text rule) cs'')) as Hf.
  { apply filter_Forall2; [|done]. intros a b [Hab _]. by rewrite Hab. }
  rewrite Hx in Hf. apply Forall2_cons_inv_l in Hf as (x' & k & [_ Hxw] & Hk & ->).
  apply Forall2_nil_inv_l in Hk as ->. exists x'. split; [done|]. congruence.
Qed.

(** Fuel above the height of the lines and above the longest rule is
    enough. *)
Lemma exit_walk_enough (rules : list exiting_rule) (fuel : nat) :
  ∀ (above : list string) (cs : list HConfigChild),
    (Nat.max (forest_height cs) (max_rule_length rules + 1 - length above) < fuel)%nat →
    is_Some (exit_walk re_search strip_negation_of fuel rules above cs).
Proof.
  induction fuel as [|fuel IH]; intros above cs Hfuel; simpl; [lia|].
  apply mapM_is_Some_2, Forall_forall. intros c Hc. simpl.
  apply fmap_is_Some, IH.
  pose proof (forest_height_elem_of c cs Hc) as Hh. rewrite height_children in Hh.
  pose proof (exit_rules_height (above ++ [text c]) rules c) as Hr.
  rewrite length_app in *. simpl in *.
  destruct (bool_decide (length above + 1 ≤ max_rule_length rules)%nat) eqn:Hb.
  - apply bool_decide_eq_true_1 in Hb. lia.
  - lia.
Qed.

(** More fuel gives the same tree. *)
Lemma exit_walk_more (rules : list exiting_rule) (fuel : nat) :
  ∀ (fuel' : nat) (above : list string) (cs cs' : list HConfigChild),
    (fuel ≤ fuel')%nat →
    exit_walk re_search strip_negation_of fuel rules above cs = Some cs' →
    exit_walk re_search strip_negation_of fuel' rules above cs = Some cs'.
Proof.
  induction fuel as [|fuel IH]; intros fuel' above cs cs' Hle; simpl; [done|].
  destruct fuel' as [|fuel']; [lia|]. simpl.
  intros Hwalk%mapM_Some_1. apply mapM_Some_2.
  eapply Forall2_impl; [exact Hwalk|]. simpl. intros c c' Hc.
  apply fmap_Some in Hc as (cs'' & Hwalk' & ->).
  apply (IH fuel') in Hwalk'; [|lia]. by rewrite Hwalk'.
Qed.

Lemma exit_walk_total (rules : list exiting_rule) (t : HConfig) :
  ∃ cs', ∀ fuel, (exit_fuel rules t ≤ fuel)%nat →
    exit_walk re_search strip_negation_of fuel rules [] (root_children t) = Some cs'.
Proof.
  destruct (exit_walk_enough rules (exit_fuel rules t) [] (root_children t)) as [cs' Hcs'].
  { unfold exit_fuel. simpl. lia. }
  exists cs'. intros fuel Hfuel. by eapply exit_walk_more.
Qed.

Lemma exit_rule_on_set_children (texts : list string) (child : HConfigChild)
    (rule : exiting_rule) :
  exit_rule_on re_search strip_negation_of texts child rule
  = set_children child
      (children (exit_rule_on re_search strip_negation_of texts child rule)).
Proof.
  unfold exit_rule_on. destruct (lineage_test _ _ _ _ _); [done|]. by destruct child.
Qed.

Lemma exit_rules_set_children (texts : list string) (rules : list exiting_rule)
    (child : HConfigChild) :
  fold_left (exit_rule_on re_search strip_negation_of texts) rules child
  = set_children child
      (children (fold_left (exit_rule_on re_search strip_negation_of texts) rules child)).
Proof.
  revert child; induction rules as [|r rules IH]; intros child; simpl.
  { by destruct child. }
  rewrite IH at 1. rewrite exit_rule_on_set_children at 1. done.
Qed.

(** The loop over the rules looks at the children of the line only. *)
Lemma exit_rules_children_only (texts : list string) (rules : list exiting_rule)
    (c c' : HConfigChild) :
  children c = children c' →
  children (fold_left (exit_rule_on re_search strip_negation_of texts) rules c)
  = children (fold_left (exit_rule_on re_search strip_negation_of texts) rules c').
Proof.
  revert c c'; induction rules as [|r rules IH]; intros c c' Hcs; simpl; [done|].
  apply IH. unfold exit_rule_on. destruct (lineage_test _ _ _ _ _); [|done].
  simpl. by rewrite Hcs.
Qed.

(** The children after the loop over the rules: those whose text is no
    exit text of a matching rule, then the exit lines, which are the same
    whatever the children were. *)
Lemma exit_rules_children_split (texts : list string) (rules : list exiting_rule)
    (child : HConfigChild) :
  children (fold_left (exit_rule_on re_search strip_negation_of texts) rules child)
  = filter (λ c, text c ∉ matching_exit_texts re_search strip_negation_of texts rules)
           (children child)
    ++ children (fold_left (exit_rule_on re_search strip_negation_of texts) rules
                           (set_children child [])).
Proof.
  revert child; induction rules as [|r rules IH]; intros child; simpl.
  { rewrite app_nil_r. unfold matching_exit_texts. simpl.
    symmetry. induction (children child) as [|c cs IHcs]; [done|].
    rewrite filter_cons_True by apply not_elem_of_nil. by rewrite IHcs. }
  unfold matching_exit_texts. rewrite filter_cons.
  destruct (lineage_test re_search strip_negation_of (exiting_lineage r) false texts)
    eqn:Hr.
  - rewrite decide_True by done. rewrite !exit_rule_on_match by done.
    rewrite IH. simpl.
    rewrite (IH (set_children (set_children child []) _)). simpl.
    rewrite filter_app, <- app_assoc. f_equal.
    unfold del_child_by_text. rewrite list_filter_filter.
    apply list_filter_iff. intros c.
    fold (matching_exit_texts re_search strip_negation_of texts rules).
    rewrite elem_of_cons. tauto.
  - rewrite decide_False by done. rewrite !exit_rule_on_no_match by done. apply IH.
Qed.

Lemma exit_rules_children_texts (texts : list string) (rules : list exiting_rule) :
  ∀ (child : HConfigChild) (S : string → Prop),
    Forall (λ c, S (text c)) (children child) →
    Forall S (matching_exit_texts re_search strip_negation_of texts rules) →
    Forall (λ c, S (text c))
      (children (fold_left (exit_rule_on re_search strip_negation_of texts) rules child)).
Proof.
  induction rules as [|r rules IH]; intros child S Hcs HS; simpl; [done|].
  unfold matching_exit_texts in HS. rewrite filter_cons in HS.
  destruct (lineage_test re_search strip_negation_of (exiting_lineage r) false texts)
    eqn:Hr.
  - rewrite decide_True in HS by done. rewrite fmap_cons in HS.
    apply Forall_cons in HS as [He HS].
    apply IH; [|done]. rewrite exit_rule_on_match by done. simpl.
    apply Forall_app. split; [|by repeat constructor].
    unfold del_child_by_text. rewrite Forall_forall in Hcs. apply Forall_forall.
    intros c Hc. apply Hcs. by apply list_elem_of_filter in Hc as [_ ?].
  - rewrite decide_False in HS by done. rewrite exit_rule_on_no_match by done.
    by apply IH.
Qed.

Lemma mapM_app_Some {A B : Type} (f : A → option B) (l1 l2 : list A) (k : list B) :
  mapM f (l1 ++ l2) = Some k ↔
  ∃ k1 k2, k = k1 ++ k2 ∧ mapM f l1 = Some k1 ∧ mapM f l2 = Some k2.
Proof.
  rewrite mapM_Some. split.
  - intros (k1 & k2 & H1 & H2 & ->)%Forall2_app_inv_l.
    exists k1, k2. by rewrite !mapM_Some.
  - intros (k1 & k2 & -> & H1%mapM_Some & H2%mapM_Some). by apply Forall2_app.
Qed.

Lemma exit_walk_app (rules : list exiting_rule) (fuel : nat) (above : list string)
    (l1 l2 k : list HConfigChild) :
  exit_walk re_search strip_negation_of fuel rules above (l1 ++ l2) = Some k ↔
  ∃ k1 k2, k = k1 ++ k2
           ∧ exit_walk re_search strip_negation_of fuel rules above l1 = Some k1
           ∧ exit_walk re_search strip_negation_of fuel rules above l2 = Some k2.
Proof.
  destruct fuel as [|fuel]; simpl; [|apply mapM_app_Some].
  split; [done|]. by intros (? & ? & _ & ? & _).
Qed.

Lemma filter_same_texts (S : string → Prop) `{!∀ s, Decision (S s)}
    (l k : list HConfigChild) :
  Forall2 (λ c c', text c' = text c ∧ order_weight c' = order_weight c) l k →
  (Forall (λ c, S (text c)) l → filter (λ c, S (text c)) k = k)
  ∧ (Forall (λ c, ¬ S (text c)) l → filter (λ c, S (text c)) k = []).
Proof.
  induction 1 as [|c c' l k [Hc _] Hlk [IH1 IH2]]; [done|].
  split; intros [Hx Hl]%Forall_cons.
  - rewrite filter_cons_True by (by rewrite Hc). by rewrite IH1.
  - rewrite filter_cons_False by (by rewrite Hc). by apply IH2.
Qed.

(** A tree that the walk has left is left as it is by a second walk. *)
Lemma exit_walk_again (rules : list exiting_rule) (fuel : nat) :
  ∀ (above : list string) (cs cs' : list HConfigChild),
    exit_walk re_search strip_negation_of fuel rules above cs = Some cs' →
    exit_walk re_search strip_negation_of fuel rules above cs' = Some cs'.
Proof.
  induction fuel as [|fuel IH]; intros above cs cs'; [done|].
  intros Hwalk. pose proof Hwalk as Hwalk0. simpl in Hwalk. simpl.
  apply mapM_Some_1 in Hwalk. apply mapM_Some_2.
  clear Hwalk0.
  induction Hwalk as [|c c' cs cs' Hc Hcs IHcs]; constructor; [|done].
  clear IHcs Hcs.
  apply fmap_Some in Hc as (cs'' & Hwalk' & ->).
  set (texts := above ++ [text c]) in *.
  set (c1 := fold_left _ rules c) in *.
  destruct (exit_rules_text texts rules c) as [Htxt _]. fold c1 in Htxt.
  simpl. rewrite Htxt. fold texts.
  set (c2 := fold_left (exit_rule_on re_search strip_negation_of texts) rules
                       (set_children c1 cs'')).
  set (E := matching_exit_texts re_search strip_negation_of texts rules).
  set (X := children (fold_left (exit_rule_on re_search strip_negation_of texts) rules
                                (set_children c []))).
  assert (children c1 = filter (λ x, text x ∉ E) (children c) ++ X) as Hc1.
  { subst c1. apply exit_rules_children_split. }
  rewrite Hc1 in Hwalk'.
  apply exit_walk_app in Hwalk' as (A' & X' & -> & HA & HX).
  assert (Forall (λ x, text x ∈ E) X) as HXE.
  { subst X.
    apply (exit_rules_children_texts texts rules (set_children c []) (λ s, s ∈ E));
      [constructor|]. by apply Forall_forall. }
  assert (children c2 = A' ++ X) as Hc2.
  { subst c2. rewrite exit_rules_children_split. simpl. fold E. f_equal.
    - rewrite filter_app.
      pose proof (exit_walk_ok rules fuel texts _ _ HA) as [_ HsA].
      pose proof (exit_walk_ok rules fuel texts _ _ HX) as [_ HsX].
      destruct (filter_same_texts (λ s, s ∉ E) _ _ HsA) as [HfA _].
      destruct (filter_same_texts (λ s, s ∉ E) _ _ HsX) as [_ HfX].
      rewrite HfA, HfX.
      * apply app_nil_r.
      * eapply Forall_impl; [exact HXE|]. simpl. tauto.
      * apply Forall_forall. intros x Hx. by apply list_elem_of_filter in Hx as [? _].
    - apply exit_rules_children_only. done. }
  assert (exit_walk re_search strip_negation_of fuel rules texts (children c2)
          = Some (A' ++ X')) as ->.
  { rewrite Hc2. apply exit_walk_app. exists A', X'. split; [done|]. split; [|done].
    by eapply IH. }
  simpl. f_equal. subst c2. rewrite exit_rules_set_children. done.
Qed.

(** One call of [add_sectional_exiting] ends, with any fuel that is enough,
    and gives every matching line its one exit line. *)
Lemma add_sectional_exiting_once (opts : Options) (rules : list exiting_rule)
    (t : HConfig) :
  sectional_exiting opts = Some rules →
  ∃ t', (∀ fuel, (exit_fuel rules t ≤ fuel)%nat →
           add_sectional_exiting re_search strip_negation_of fuel opts t = Some (t', None))
        ∧ exits_ok_tree re_search strip_negation_of rules t'
        ∧ add_sectional_exiting re_search strip_negation_of (exit_fuel rules t) opts t'
          = Some (t', None).
Proof.
  intros Hrules. unfold add_sectional_exiting. rewrite Hrules.
  destruct (root_children t) as [|c cs] eqn:Hcs.
  { exists t. rewrite Hcs. split; [done|]. split; [|done].
    unfold exits_ok_tree. rewrite Hcs. constructor. }
  destruct (exit_walk_total rules t) as [cs' Hwalk]. rewrite Hcs in Hwalk.
  pose proof (Hwalk _ (Nat.le_refl _)) as Hfirst.
  exists (mkRoot (root_real_indent_level t) cs'). split; [|split].
  - intros fuel Hfuel. by rewrite (Hwalk fuel Hfuel).
  - by apply exit_walk_ok in Hfirst as [H _].
  - cbn [root_children root_real_indent_level]. apply exit_walk_again in Hfirst.
    destruct cs' as [|c' cs']; [done|]. by rewrite Hfirst.
Qed.

(** C6: with the rules [sectional_exiting], a call of
    [add_sectional_exiting] ends and leaves every line that a rule matches
    with exactly one child that has the exit text of the rule, of order
    weight 999; and a second call, on the tree that the first one leaves,
    ends too and leaves that tree as it is. *)
Theorem add_sectional_exiting_twice (opts : Options) (rules : list exiting_rule)
    (t : HConfig) :
  sectional_exiting opts = Some rules →
  ∃ t1 : HConfig,
    (∀ fuel, (exit_fuel rules t ≤ fuel)%nat →
       add_sectional_exiting re_search strip_negation_of fuel opts t = Some (t1, None))
    ∧ exits_ok_tree re_search strip_negation_of rules t1
    ∧ (∀ fuel, (exit_fuel rules t ≤ fuel)%nat →
         add_sectional_exiting re_search strip_negation_of fuel opts t1 = Some (t1, None)).
Proof.
  intros Hrules.
  destruct (add_sectional_exiting_once opts rules t Hrules) as (t1 & H1 & Hok1 & Hagain).
  exists t1. split; [done|]. split; [done|].
  intros fuel Hfuel. revert Hagain. unfold add_sectional_exiting. rewrite Hrules.
  destruct (root_children t1); [done|].
  destruct (exit_walk _ _ (exit_fuel rules t) rules [] _) as [cs'|] eqn:Hwalk; [|done].
  by rewrite (exit_walk_more rules _ fuel _ _ _ Hfuel Hwalk).
Qed.

End Exiting.

(** A witness of C6: the example keeps one exit line. *)
Lemma add_sectional_exiting_twice_witness :
  ∃ t1,
    add_sectional_exiting literal_search id 4 exiting_example_options exiting_example
    = Some (t1, None)
    ∧ add_sectional_exiting literal_search id 4 exiting_example_options t1
      = Some (t1, None)
    ∧ text <$> children_of t1 [0%nat; 0%nat]
      = ["network 10.0.0.0"; "exit-address-family"].
Proof.
  destruct (add_sectional_exiting_twice literal_search id exiting_example_options _
              exiting_example eq_refl) as (t1 & H1 & _ & H2).
  exists t1.
  assert (4 ≤ 4)%nat as Hfuel by lia.
  pose proof (H1 4%nat Hfuel) as Hrun. specialize (H2 4%nat Hfuel).
  split; [exact Hrun|]. split; [exact H2|].
  vm_compute in Hrun. injection Hrun as <-. vm_compute. reflexivity.
Defined.

(** ** What the parser and the loader leave as it is *)

Lemma same_line_refl (n : HConfigChild) : same_line n n.
Proof. by repeat split. Qed.

Lemma same_line_trans (n1 n2 n3 : HConfigChild) :
  same_line n1 n2 → same_line n2 n3 → same_line n1 n3.
Proof.
  intros (?&?&?&?&?) (?&?&?&?&?). repeat split; congruence.
Qed.

Lemma keeps_lines_refl (t : HConfig) : keeps_lines t t.
Proof. intros r n H. exists n. split; [done|apply same_line_refl]. Qed.

Lemma keeps_lines_trans (t1 t2 t3 : HConfig) :
  keeps_lines t1 t2 → keeps_lines t2 t3 → keeps_lines t1 t3.
Proof.
  intros H12 H23 r n H. destruct (H12 r n H) as (n2 & H2 & Hs2).
  destruct (H23 r n2 H2) as (n3 & H3 & Hs3). exists n3. split; [done|].
  by eapply same_line_trans.
Qed.

(** A change of the child list at the end of a path that keeps the lines of
    that list, and what is below them, keeps every line of the tree. *)
Lemma node_at_alter_children_at (g : list HConfigChild → list HConfigChild) :
  ∀ (q p : list nat) (f : list HConfigChild) (n : HConfigChild),
    (∀ i n, children_at q f !! i = Some n →
       ∃ n', g (children_at q f) !! i = Some n' ∧ same_line n n'
             ∧ children n' = children n) →
    node_at p f = Some n →
    ∃ n', node_at p (alter_children_at g q f) = Some n' ∧ same_line n n'.
Proof.
  intros q. induction q as [|j q IH]; intros [|i p] f n Hg; simpl; try done.
  - simpl in Hg. destruct (f !! i) as [m|] eqn:Hm; [|done].
    destruct (Hg i m Hm) as (m' & -> & Hs & Hc).
    destruct p as [|i' p].
    + intros [= <-]. eauto.
    + rewrite Hc. intros ->. eexists. split; [done|apply same_line_refl].
  - destruct (f !! i) as [m|] eqn:Hm; [|done].
    destruct (decide (i = j)) as [->|Hij].
    + rewrite list_lookup_alter_eq, Hm. simpl.
      destruct p as [|i' p].
      * intros [= <-]. eexists. split; [done|]. by repeat split.
      * apply IH. simpl in Hg. by rewrite Hm in Hg.
    + rewrite list_lookup_alter_ne by done. rewrite Hm.
      intros ->. eexists. split; [done|apply same_line_refl].
Qed.

Lemma keeps_lines_alter_children (g : list HConfigChild → list HConfigChild)
    (P : ref) (t : HConfig) :
  (∀ i n, children_of t P !! i = Some n →
     ∃ n', g (children_of t P) !! i = Some n' ∧ same_line n n'
           ∧ children n' = children n) →
  keeps_lines t (alter_children g P t).
Proof.
  intros Hg r n. unfold node_of, alter_children. simpl.
  by apply node_at_alter_children_at.
Qed.

Lemma placing_keeps (txt : string) (force : bool) (z : Z) (k : nat)
    (cs : list HConfigChild) (i : nat) (n : HConfigChild) :
  cs !! i = Some n →
  ∃ n', placing txt force z k cs !! i = Some n' ∧ same_line n n'
        ∧ children n' = children n.
Proof.
  intros Hi. unfold placing.
  assert ((add_child_to cs txt force).1 !! i = Some n) as Hi'.
  { unfold add_child_to. destruct (if force then None else index_of_text txt cs); simpl;
      [done|]. by apply lookup_app_l_Some. }
  destruct (decide (i = k)) as [->|Hik].
  - rewrite list_lookup_alter_eq, Hi'. simpl. eexists. split; [done|]. by repeat split.
  - rewrite list_lookup_alter_ne by done. eexists. split; [done|].
    split; [apply same_line_refl|done].
Qed.

Lemma placed_keeps_lines (t : HConfig) (r : ref) (txt : string) (force : bool) (z : Z) :
  keeps_lines t (assign_real_indent_level (add_child t r txt force).1
                                          (add_child t r txt force).2 z).
Proof.
  rewrite assign_add_child. apply keeps_lines_alter_children.
  intros i n. apply placing_keeps.
Qed.

Section ParserKeeps.

Variable re_sub : string → string → string → string.
Variable re_search : string → string → bool.

Lemma parse_line_keeps_lines (opts : Options) (st : pstate) (line : string) :
  keeps_lines (tree st) (tree (parse_line re_sub re_search opts st line).1).
Proof.
  unfold parse_line. destruct (in_banner st).
  { simpl. unfold banner_line. destruct (end_of_banner_test _ _ _); simpl.
    - apply placed_keeps_lines.
    - apply keeps_lines_refl. }
  destruct (PyStr.startswith line "banner ").
  { simpl. unfold banner_start. destruct (_ !! _); apply keeps_lines_refl. }
  unfold normal_line. destruct (per_line_sub opts); [|apply keeps_lines_refl].
  destruct (PyStr.is_empty _); [apply keeps_lines_refl|].
  unfold place_line. destruct (walk_up _ _ _); [apply keeps_lines_refl|].
  destruct (real_indent_level_of _ _); [|apply keeps_lines_refl].
  destruct (indent_adjust opts); simpl; apply placed_keeps_lines.
Qed.

Lemma parse_lines_keeps_lines (opts : Options) (lines : list string) (st : pstate) :
  keeps_lines (tree st) (tree (parse_lines re_sub re_search opts st lines).1).
Proof.
  revert st; induction lines as [|line lines IH]; intros st; simpl.
  { apply keeps_lines_refl. }
  pose proof (parse_line_keeps_lines opts st line) as H.
  destruct (parse_line re_sub re_search opts st line) as [st' [e|]]; simpl in *; [done|].
  eapply keeps_lines_trans; [done|apply IH].
Qed.

(** X1: [load_from_string] only adds to the tree it is called on: every
    line that the tree had is still at its place afterwards, with its text,
    tags, comments, [new_in_config] and order weight, whatever the text and
    the options are and whether the call raises or not. *)
Theorem load_from_string_keeps_lines (opts : Options) (config_text : string)
    (t : HConfig) :
  keeps_lines t (load_from_string re_sub re_search opts config_text t).1.
Proof.
  unfold load_from_string. destruct (full_text_sub opts) as [subs|]; [|apply keeps_lines_refl].
  set (lines := PyStr.splitlines _).
  pose proof (parse_lines_keeps_lines opts lines (initial_state t)) as H.
  assert (keeps_lines t (tree (initial_state t))) as H0.
  { intros r n Hn. exists n. split; [done|apply same_line_refl]. }
  destruct (parse_lines re_sub re_search opts (initial_state t) lines) as [st [e|]];
    simpl in *.
  - by eapply keeps_lines_trans.
  - destruct (in_banner st); simpl; by eapply keeps_lines_trans.
Qed.

(** The section of the cursor is the line placed last or an ancestor of it,
    and a turn of the loop takes the line placed last one level down at
    most. *)
Lemma parse_line_cursor (opts : Options) (st : pstate) (line : string) :
  current_section st `suffix_of` most_recent_item st →
  let st' := (parse_line re_sub re_search opts st line).1 in
  current_section st' `suffix_of` most_recent_item st'
  ∧ depth (most_recent_item st') ≤ depth (most_recent_item st) + 1.
Proof.
  intros Hs. unfold depth.
  assert ((current_section st `suffix_of` most_recent_item st)
          ∧ Z.of_nat (length (most_recent_item st))
            ≤ Z.of_nat (length (most_recent_item st)) + 1) as Hsame by (split; [done|lia]).
  unfold parse_line. destruct (in_banner st).
  { simpl. unfold banner_line. destruct (end_of_banner_test _ _ _); simpl; [|done].
    split; [by apply suffix_cons_r|lia]. }
  destruct (PyStr.startswith line "banner ").
  { simpl. unfold banner_start. by destruct (_ !! _). }
  unfold normal_line. destruct (per_line_sub opts); [|done].
  destruct (PyStr.is_empty _); [done|].
  unfold place_line. destruct (walk_up _ _ _) as [|section] eqn:Hw; [done|].
  destruct (real_indent_level_of _ _); [|done].
  apply walk_up_inr in Hw as [Hsec _].
  set (section' := if bool_decide _ then most_recent_item st else section).
  assert (section' `suffix_of` most_recent_item st) as Hs'.
  { unfold section'. case_bool_decide; [done|by etrans]. }
  apply suffix_length in Hs'.
  destruct (indent_adjust opts); cbn [fst]; pstate_proj;
    (split; [by apply suffix_cons_r|]); unfold add_child; cbn [snd]; rewrite length_cons; lia.
Qed.

Lemma parse_lines_cursor (opts : Options) (lines : list string) (st : pstate) :
  current_section st `suffix_of` most_recent_item st →
  let st' := (parse_lines re_sub re_search opts st lines).1 in
  current_section st' `suffix_of` most_recent_item st'.
Proof.
  revert st; induction lines as [|line lines IH]; intros st Hs; simpl; [done|].
  pose proof (parse_line_cursor opts st line Hs) as [H _].
  destruct (parse_line re_sub re_search opts st line) as [st' [e|]]; simpl in *; [done|].
  by apply IH.
Qed.

(** X2: however far a line is indented, the parser places it at most one
    level below the line it placed before: on a state that the loop of
    [load_from_string] reaches, a turn of the loop leaves the depth of
    [most_recent_item] at most one greater than it was, and
    [current_section] is [most_recent_item] or one of its ancestors. *)
Theorem parser_descends_one_level (opts : Options) (t : HConfig)
    (lines : list string) (line : string) :
  let st := (parse_lines re_sub re_search opts (initial_state t) lines).1 in
  let st' := (parse_line re_sub re_search opts st line).1 in
  depth (most_recent_item st') ≤ depth (most_recent_item st) + 1
  ∧ current_section st' `suffix_of` most_recent_item st'.
Proof.
  intros st st'.
  assert (current_section st `suffix_of` most_recent_item st) as Hs.
  { apply parse_lines_cursor. done. }
  destruct (parse_line_cursor opts st line Hs). done.
Qed.

(** X3: between two turns of the loop of [load_from_string] the counter
    [indent_adjust] is the number of end expressions that wait in
    [end_indent_adjust]; it is never negative. *)
Theorem parser_indent_accounting (opts : Options) (t : HConfig) (lines : list string) :
  let st := (parse_lines re_sub re_search opts (initial_state t) lines).1 in
  indent_adjust_now st = Z.of_nat (length (end_indent_adjust st))
  ∧ 0 ≤ indent_adjust_now st.
Proof.
  intros st.
  assert (parser_inv st) as Hinv.
  { eapply (parse_lines_inv re_sub re_search opts lines (initial_state t) st
              (parse_lines re_sub re_search opts (initial_state t) lines).2).
    - apply initial_state_inv.
    - subst st. apply surjective_pairing. }
  destruct Hinv. split; [done|lia].
Qed.

End ParserKeeps.

(** ** Which dumps load, and what they load to *)

Lemma parent_for_inr (last_item : ref) (d : Z) :
  (∃ p, parent_for last_item d = inr p) ↔ 1 ≤ d ≤ depth last_item + 1.
Proof.
  unfold parent_for, depth. case_bool_decide as H1.
  { split; [lia|eauto]. }
  case_bool_decide as H2.
  { destruct last_item as [|k up]; simpl in *.
    - split; [by intros [? ?]|lia].
    - split; [lia|eauto]. }
  case_bool_decide as H3.
  { split; [lia|eauto]. }
  unfold islice_next. case_bool_decide as H4.
  { split; [by intros [? ?]|lia]. }
  rewrite bool_decide_eq_true_2 by lia.
  destruct (lineage last_item !! Z.to_nat (d - 2)) as [p|] eqn:Hp.
  - apply lookup_lt_Some in Hp. rewrite lineage_length in Hp. split; [lia|eauto].
  - apply lookup_ge_None in Hp. rewrite lineage_length in Hp.
    split; [by intros [? ?]|lia].
Qed.

Lemma parent_for_inr_suffix (last_item p : ref) (d : Z) :
  parent_for last_item d = inr p → p `suffix_of` last_item.
Proof.
  unfold parent_for. case_bool_decide.
  { intros [= <-]. apply suffix_nil. }
  case_bool_decide.
  { destruct last_item as [|k up]; simpl; [done|]. intros [= <-]. by apply suffix_cons_r. }
  case_bool_decide.
  { by intros [= <-]. }
  unfold islice_next. case_bool_decide; [done|].
  case_bool_decide; [|done].
  destruct (lineage last_item !! Z.to_nat (d - 2)) as [q|] eqn:Hq; [|done].
  intros [= <-]. by apply lineage_lookup in Hq as [_ ?].
Qed.

Lemma load_items_well_nested (items : list dump_item) :
  ∀ (t : HConfig) (last_item : ref),
    (load_items t last_item items).2 = None ↔ well_nested (depth last_item) items.
Proof.
  induction items as [|item items IH]; intros t last_item.
  { simpl. done. }
  rewrite load_items_cons. simpl.
  destruct (parent_for last_item (item_depth item)) as [e|p] eqn:Hp.
  - simpl. split; [done|]. intros [Hd _].
    apply parent_for_inr in Hd as [p' Hp']. congruence.
  - assert (1 ≤ item_depth item ≤ depth last_item + 1) as Hd.
    { apply parent_for_inr. eauto. }
    rewrite IH. apply parent_for_depth in Hp.
    unfold add_child. cbn [snd]. rewrite depth_cons, Hp.
    replace (item_depth item - 1 + 1) with (item_depth item) by lia.
    tauto.
Qed.

(** X4: [load_from_dump] raises nothing exactly on the dumps whose depths
    are at least 1 and rise by one at most from an item to the next, the
    first item being measured against depth 0. *)
Theorem load_from_dump_well_nested (items : list dump_item) (t : HConfig) :
  (load_from_dump items t).2 = None ↔ well_nested 0 items.
Proof. unfold load_from_dump. simpl. apply load_items_well_nested. Qed.

Lemma load_items_first_at_root (t : HConfig) (l1 l2 : ref) (ys : list dump_item) :
  (∀ y, head ys = Some y → item_depth y = 1) →
  (load_items t l1 ys).1.1 = (load_items t l2 ys).1.1
  ∧ (load_items t l1 ys).2 = (load_items t l2 ys).2.
Proof.
  intros Hy. destruct ys as [|y ys]; [done|].
  rewrite !load_items_cons. unfold parent_for.
  rewrite bool_decide_eq_true_2 by (by apply Hy). done.
Qed.

(** X5: loading two dumps one after the other is loading them joined, when
    the first loads without an exception and the second starts at depth 1:
    [load_from_dump] goes on from the tree as it is and appends to it. *)
Theorem load_from_dump_app (xs ys : list dump_item) (t t1 : HConfig) :
  load_from_dump xs t = (t1, None) →
  (∀ y, head ys = Some y → item_depth y = 1) →
  load_from_dump (xs ++ ys) t = load_from_dump ys t1.
Proof.
  unfold load_from_dump. intros Hx Hy. rewrite load_items_app.
  destruct (load_items t [] xs) as [[t1' l1] e]. simpl in Hx.
  injection Hx as -> ->.
  destruct (load_items_first_at_root t1 l1 [] ys Hy) as [-> ->]. done.
Qed.

Lemma load_step_keeps_lines (t : HConfig) (P : ref) (txt : string)
    (g : HConfigChild → HConfigChild) :
  keeps_lines t (alter_node g (add_child t P txt true).2 (add_child t P txt true).1).
Proof.
  unfold add_child. cbn [fst snd]. rewrite alter_node_cons, alter_children_compose.
  apply keeps_lines_alter_children.
  intros i m Hi. simpl.
  exists m. split; [|split; [apply same_line_refl|done]].
  rewrite list_lookup_alter_ne.
  - by apply lookup_app_l_Some.
  - apply lookup_lt_Some in Hi. lia.
Qed.

Lemma load_items_keeps_lines (items : list dump_item) :
  ∀ (t : HConfig) (last_item : ref),
    keeps_lines t (load_items t last_item items).1.1.
Proof.
  induction items as [|item items IH]; intros t last_item.
  { apply keeps_lines_refl. }
  rewrite load_items_cons.
  destruct (parent_for last_item (item_depth item)) as [e|p]; [apply keeps_lines_refl|].
  eapply keeps_lines_trans; [|apply IH]. apply load_step_keeps_lines.
Qed.

(** X6: [load_from_dump] only adds to the tree it is called on: every line
    that the tree had is still at its place afterwards, with its text,
    tags, comments, [new_in_config] and order weight, also when the load
    stops at a malformed item. *)
Theorem load_from_dump_keeps_lines (items : list dump_item) (t : HConfig) :
  keeps_lines t (load_from_dump items t).1.
Proof. apply load_items_keeps_lines. Qed.
Lemma default_weights_sorted (cs : list HConfigChild) :
  Forall default_weights cs → sorted_by order_weight cs = cs.
Proof.
  intros H. apply (sorted_by_same_key _ 500).
  eapply Forall_impl; [done|]. by intros c [].
Qed.

Lemma dump_forest_default (d : Z) (cs : list HConfigChild) :
  Forall default_weights cs →
  dump_forest d cs
  = concat ((λ c, item_at d c :: dump_forest (d + 1) (children c)) <$> cs).
Proof.
  intros H. unfold dump_forest at 1. rewrite default_weights_sorted by done.
  f_equal. apply list_fmap_ext. intros _ c _. by rewrite dump_below_forest.
Qed.

Lemma dump_forest_app_default (d : Z) (l1 l2 : list HConfigChild) :
  Forall default_weights (l1 ++ l2) →
  dump_forest d (l1 ++ l2) = dump_forest d l1 ++ dump_forest d l2.
Proof.
  intros H. pose proof H as [H1 H2]%Forall_app.
  rewrite !dump_forest_default by done. by rewrite fmap_app, concat_app.
Qed.

Lemma rightmost_valid (p : list nat) :
  ∀ f, rightmost p f → valid_path p f.
Proof.
  induction p as [|i q IH]; intros f; simpl; [done|].
  intros [_ H]. destruct (f !! i); [by apply IH|done].
Qed.

Lemma rightmost_app (p q : list nat) :
  ∀ f, rightmost (p ++ q) f → rightmost p f.
Proof.
  induction p as [|i p IH]; intros f; simpl; [done|].
  intros [? H]. split; [done|]. destruct (f !! i); [by apply IH|done].
Qed.

Lemma last_split {A : Type} (f : list A) (i : nat) (n : A) :
  S i = length f → f !! i = Some n → f = take i f ++ [n].
Proof.
  intros Hl Hi. rewrite <- (take_drop i f) at 1. f_equal.
  apply list_eq. intros [|k].
  - rewrite lookup_drop, Nat.add_0_r. done.
  - rewrite lookup_drop. simpl. rewrite lookup_nil. apply lookup_ge_None. lia.
Qed.

(** Appending a leaf at the end of the rightmost spine *)
Lemma dump_forest_appended (x : HConfigChild) (p : list nat) :
  order_weight x = 500 → children x = [] →
  ∀ (d : Z) (f : list HConfigChild),
    Forall default_weights f → rightmost p f →
    dump_forest d (alter_children_at (λ cs, cs ++ [x]) p f)
    = dump_forest d f ++ [item_at (d + Z.of_nat (length p)) x]
    ∧ Forall default_weights (alter_children_at (λ cs, cs ++ [x]) p f)
    ∧ rightmost (p ++ [length (children_at p f)])
                (alter_children_at (λ cs, cs ++ [x]) p f).
Proof.
  intros Hw Hc. assert (default_weights x) as Hx.
  { constructor; [done|]. rewrite Hc. constructor. }
  induction p as [|i q IH]; intros d f Hf Hr.
  - simpl. assert (Forall default_weights (f ++ [x])) as Hfx.
    { apply Forall_app. split; [done|]. by constructor. }
    split; [|split; [done|]].
    + rewrite dump_forest_app_default by done. f_equal.
      rewrite dump_forest_default by (by constructor). simpl.
      rewrite Hc, Z.add_0_r. unfold dump_forest. simpl. done.
    + rewrite length_app. simpl. split; [lia|].
      rewrite lookup_app_r by lia. rewrite Nat.sub_diag. simpl. done.
  - simpl in Hr. destruct Hr as [Hl Hr].
    destruct (f !! i) as [n|] eqn:Hn; [|done].
    pose proof (last_split f i n Hl Hn) as Hsplit.
    set (f0 := take i f) in *.
    assert (length f0 = i) as Hl0.
    { unfold f0. rewrite length_take. lia. }
    assert (Forall default_weights f0 ∧ default_weights n) as [Hf0 Hdn].
    { rewrite Hsplit in Hf. destruct (proj1 (Forall_app _ _ _) Hf) as [? Hn'].
      split; [done|]. by inversion Hn'. }
    pose proof Hdn as Hdn0. destruct Hdn0 as [n Hwn Hcn].
    destruct (IH (d + 1) (children n) Hcn Hr) as (IH1 & IH2 & IH3).
    set (n' := set_children n (alter_children_at (λ cs, cs ++ [x]) q (children n))).
    assert (alter_children_at (λ cs, cs ++ [x]) (i :: q) f = f0 ++ [n']) as Heq.
    { simpl. rewrite Hsplit at 1. rewrite alter_app_r_alt by lia.
      rewrite Hl0, Nat.sub_diag. done. }
    assert (default_weights n') as Hdn'.
    { constructor; [done|]. done. }
    rewrite Heq. split; [|split].
    + rewrite Hsplit at 1.
      assert (∀ m, default_weights m → Forall default_weights (f0 ++ [m])) as Happ.
      { intros m Hm. apply Forall_app. split; [done|]. by constructor. }
      rewrite !dump_forest_app_default by (by apply Happ).
      rewrite <- app_assoc. f_equal.
      rewrite !dump_forest_default by (by constructor).
      cbn [fmap list_fmap concat]. rewrite !app_nil_r.
      change (children n') with (alter_children_at (λ cs, cs ++ [x]) q (children n)).
      rewrite IH1, length_cons, Nat2Z.inj_succ.
      replace (d + Z.succ (Z.of_nat (length q))) with (d + 1 + Z.of_nat (length q)) by lia.
      done.
    + apply Forall_app. split; [done|]. by constructor.
    + simpl. rewrite Hn, length_app. simpl. split; [lia|].
      rewrite lookup_app_r by lia. rewrite Hl0, Nat.sub_diag. simpl. exact IH3.
Qed.

Lemma load_items_dumped (items : list dump_item) :
  ∀ (t : HConfig) (last_item : ref),
    Forall default_weights (root_children t) →
    rightmost (rev last_item) (root_children t) →
    well_nested (depth last_item) items →
    ∃ t' last_item',
      load_items t last_item items = (t', last_item', None)
      ∧ dump_forest 1 (root_children t')
        = dump_forest 1 (root_children t) ++ (canonical <$> items).
Proof.
  induction items as [|item items IH]; intros t last_item Hd Hr Hn.
  { exists t, last_item. split; [done|]. by rewrite app_nil_r. }
  destruct Hn as [Hdepth Hn].
  destruct (proj2 (parent_for_inr last_item (item_depth item)) Hdepth) as [P HP].
  rewrite load_items_cons, HP.
  pose proof (parent_for_inr_suffix _ _ _ HP) as [k Hk].
  pose proof (parent_for_depth _ _ _ HP) as HdP.
  assert (rightmost (rev P) (root_children t)) as HrP.
  { rewrite Hk, rev_app_distr in Hr. by apply rightmost_app in Hr. }
  assert (valid_ref t P) as Hv by (by apply rightmost_valid).
  rewrite load_step_tree by done.
  set (x := mkChild _ _ _ _ _ _ _).
  destruct (dump_forest_appended x (rev P) eq_refl eq_refl 1 (root_children t) Hd HrP)
    as (H1 & H2 & H3).
  destruct (IH (alter_children (λ old, old ++ [x]) P t)
              ((add_child t P (item_text item) true).2)) as (t' & l' & Hl & Hdump).
  - done.
  - unfold add_child. cbn [snd]. unfold add_child_to. cbn [snd]. simpl. done.
  - unfold add_child. cbn [snd]. rewrite depth_cons, HdP.
    by replace (item_depth item - 1 + 1) with (item_depth item) by lia.
  - exists t', l'. split; [done|]. rewrite Hdump. simpl. rewrite H1, <- app_assoc.
    f_equal. simpl. f_equal. unfold item_at, canonical. simpl.
    f_equal. rewrite length_rev. unfold depth in HdP. lia.
Qed.


Section DumpOfLoaded.

Variable re_search : string → string → bool.
Variable strip_negation_of : string → string.


End DumpOfLoaded.

(** A witness of X5: the first two items of [nested_dump], then the third. *)
Lemma load_from_dump_app_witness :
  let xs := take 2 nested_dump in
  let ys := drop 2 nested_dump in
  load_from_dump xs HConfig_new = ((load_from_dump xs HConfig_new).1, None)
  ∧ load_from_dump (xs ++ ys) HConfig_new
    = load_from_dump ys (load_from_dump xs HConfig_new).1.
Proof.
  split; [vm_compute; reflexivity|].
  apply load_from_dump_app; [vm_compute; reflexivity|].
  intros y [= <-]. reflexivity.
Defined.



(** ** ACL remarks: what the loop removes *)

Lemma HConfigChild_eqb_text (a b : HConfigChild) :
  HConfigChild_eqb a b = true → text a = text b.
Proof.
  destruct a, b. simpl. intros H.
  repeat (apply andb_prop in H as [H _]). by apply bool_decide_eq_true in H.
Qed.

Lemma HConfigChild_eqb_refl (a : HConfigChild) : HConfigChild_eqb a a = true.
Proof.
  induction a as [a IH] using HConfigChild_nested_ind.
  destruct a as [tx tg cm nw w lvl cs]. simpl in *.
  rewrite !bool_decide_eq_true_2 by done. simpl.
  induction IH as [|c cs Hc _ IHcs]; [done|]. by rewrite Hc, IHcs.
Qed.

Lemma list_remove_no_remark (x : HConfigChild) (l : list HConfigChild) :
  ¬ no_remark x →
  filter no_remark (list_remove x l) = filter no_remark l.
Proof.
  intros Hx. induction l as [|y l IH]; simpl; [done|].
  destruct (HConfigChild_eqb y x) eqn:E.
  - apply HConfigChild_eqb_text in E. rewrite filter_cons_False; [done|].
    unfold no_remark in *. by rewrite E.
  - rewrite !filter_cons. by rewrite IH.
Qed.

Lemma remove_remarks_loop_no_remark (fuel : nat) :
  ∀ (i : nat) (cs : list HConfigChild),
    filter no_remark (remove_remarks_loop fuel i cs) = filter no_remark cs.
Proof.
  induction fuel as [|fuel IH]; intros i cs; simpl; [done|].
  destruct (cs !! i) as [entry|]; [|done].
  rewrite IH. destruct (PyStr.startswith (text entry) "remark") eqn:E; [|done].
  apply list_remove_no_remark. unfold no_remark. by rewrite E.
Qed.

Lemma list_remove_here (pre rest : list HConfigChild) (x : HConfigChild) :
  Forall no_remark pre → ¬ no_remark x →
  list_remove x (pre ++ x :: rest) = pre ++ rest.
Proof.
  intros Hpre Hx. induction Hpre as [|y pre Hy _ IH]; simpl.
  - by rewrite HConfigChild_eqb_refl.
  - destruct (HConfigChild_eqb y x) eqn:E; [|by rewrite IH].
    apply HConfigChild_eqb_text in E. unfold no_remark in *. by rewrite E in Hy.
Qed.

Lemma remove_remarks_loop_apart (fuel : nat) :
  ∀ (pre rest : list HConfigChild),
    Forall no_remark pre → remarks_apart rest → (length rest ≤ fuel)%nat →
    remove_remarks_loop fuel (length pre) (pre ++ rest)
    = pre ++ filter no_remark rest.
Proof.
  induction fuel as [|fuel IH]; intros pre rest Hpre Hap Hlen.
  { destruct rest; [done|simpl in Hlen; lia]. }
  simpl. destruct rest as [|e rest].
  { rewrite lookup_ge_None_2 by (rewrite length_app; simpl; lia). done. }
  rewrite lookup_app_r by lia. rewrite Nat.sub_diag. simpl.
  simpl in Hlen.
  destruct (PyStr.startswith (text e) "remark") eqn:E.
  - assert (¬ no_remark e) as He by (unfold no_remark; by rewrite E).
    rewrite list_remove_here by done.
    rewrite filter_cons_False by done.
    destruct rest as [|x rest].
    + simpl. rewrite !app_nil_r. destruct fuel; simpl; [done|].
      rewrite lookup_ge_None_2 by lia. done.
    + destruct Hap as [[?|Hx] Hap]; [done|].
      rewrite filter_cons_True by done.
      replace (S (length pre)) with (length (pre ++ [x]))
        by (rewrite length_app; simpl; lia).
      rewrite (cons_middle x pre rest), app_assoc.
      rewrite IH.
      * by rewrite <- app_assoc.
      * apply Forall_app. split; [done|]. by constructor.
      * simpl in Hap. by destruct rest as [|? ?]; [|destruct Hap].
      * simpl in Hlen. lia.
  - assert (no_remark e) as He by done.
    rewrite filter_cons_True by done.
    replace (S (length pre)) with (length (pre ++ [e]))
      by (rewrite length_app; simpl; lia).
    rewrite (cons_middle e pre rest), app_assoc.
    rewrite IH.
    + by rewrite <- app_assoc.
    + apply Forall_app. split; [done|]. by constructor.
    + simpl in Hap. by destruct rest as [|? ?]; [|destruct Hap].
    + lia.
Qed.

(** X8: [_remove_acl_remarks] takes nothing but remarks away: every child
    of the root keeps its text, tags and comments and, in their order, its
    entries that are no remarks, and a child that is no [ip access-list]
    block stays as it is. *)
Theorem remove_acl_remarks_keeps_entries (t : HConfig) :
  Forall2 (λ c c', text c' = text c ∧ tags c' = tags c ∧ comments c' = comments c
                   ∧ filter no_remark (children c') = filter no_remark (children c)
                   ∧ (PyStr.startswith (text c) "ip access-list " = false → c' = c))
          (root_children t) (root_children (_remove_acl_remarks t)).
Proof.
  unfold _remove_acl_remarks. cbn [root_children].
  apply Forall2_fmap_r, Forall_Forall2_diag, Forall_forall. intros c _.
  unfold get_children_startswith, compose. cbv beta.
  destruct (PyStr.startswith (text c) "ip access-list "); [|by repeat split].
  repeat split; try done. simpl. apply remove_remarks_loop_no_remark.
Qed.

(** X9: where no two remarks of an access list stand in a row,
    [_remove_acl_remarks] removes every remark: each [ip access-list] block
    is left with its entries that are no remarks, in their order. *)
Theorem remove_acl_remarks_apart (t : HConfig) :
  Forall (λ acl, PyStr.startswith (text acl) "ip access-list " = true →
                 remarks_apart (children acl)) (root_children t) →
  _remove_acl_remarks t
  = mkRoot (root_real_indent_level t)
      ((λ acl, if PyStr.startswith (text acl) "ip access-list "
               then set_children acl (filter no_remark (children acl))
               else acl) <$> root_children t).
Proof.
  intros H. unfold _remove_acl_remarks. f_equal.
  apply Forall_fmap_ext. eapply Forall_impl; [done|].
  intros acl Hacl. unfold get_children_startswith. cbv beta in Hacl.
  destruct (PyStr.startswith (text acl) "ip access-list ") eqn:E; [|done].
  f_equal. apply (remove_remarks_loop_apart _ []); [done|by apply Hacl|done].
Qed.

(** A witness of X9: the access list of [acl_apart_example] loses both of
    its remarks. *)
Lemma remove_acl_remarks_apart_witness :
  Forall (λ acl, PyStr.startswith (text acl) "ip access-list " = true →
                 remarks_apart (children acl)) (root_children acl_apart_example)
  ∧ _remove_acl_remarks acl_apart_example
    = mkRoot (root_real_indent_level acl_apart_example)
        ((λ acl, if PyStr.startswith (text acl) "ip access-list "
                 then set_children acl (filter no_remark (children acl))
                 else acl) <$> root_children acl_apart_example).
Proof.
  assert (Forall (λ acl, PyStr.startswith (text acl) "ip access-list " = true →
                         remarks_apart (children acl))
                 (root_children acl_apart_example)) as H.
  { repeat constructor; intros _; cbv; auto 10. }
  split; [exact H|]. exact (remove_acl_remarks_apart acl_apart_example H).
Defined.

(** ** ACL sequence numbers *)

Lemma number_entries_lookup (sw : list string) (cs : list HConfigChild) :
  ∀ (sn : Z) (i : nat) (c : HConfigChild),
    cs !! i = Some c →
    number_entries sw sn cs !! i
    = Some (if startswith_any (text c) sw
            then set_text
                   (numbered
                      (sn + 10 * Z.of_nat (length (filter (numbered_entry sw) (take i cs))))
                      (text c)) c
            else c).
Proof.
  induction cs as [|e cs IH]; intros sn [|i] c; simpl; try done.
  - intros [= ->]. destruct (startswith_any (text c) sw); simpl; [|done].
    by rewrite Z.add_0_r.
  - intros Hi. destruct (decide (numbered_entry sw e)) as [He|He].
    + rewrite filter_cons_True by done. unfold numbered_entry in He. rewrite He.
      simpl. rewrite (IH _ _ _ Hi).
      destruct (startswith_any (text c) sw); [|done].
      f_equal. f_equal. f_equal. cbn [length]. lia.
    + rewrite filter_cons_False by done. apply not_true_is_false in He.
      rewrite He. simpl. by rewrite (IH _ _ _ Hi).
Qed.

Lemma number_entries_length (sw : list string) (cs : list HConfigChild) (sn : Z) :
  length (number_entries sw sn cs) = length cs.
Proof.
  revert sn; induction cs as [|e cs IH]; intros sn; simpl; [done|].
  destruct (startswith_any (text e) sw); simpl; by rewrite IH.
Qed.

Lemma numbered_head (sn : Z) (txt : string) :
  ∃ c rest, numbered sn txt = String c rest
            ∧ c ∈ ["0"; "1"; "2"; "3"; "4"; "5"; "6"; "7"; "8"; "9"; "-"]%char.
Proof.
  unfold numbered.
  assert (∀ d, ∃ c rest, NilZero.string_of_uint d = String c rest
            ∧ c ∈ ["0"; "1"; "2"; "3"; "4"; "5"; "6"; "7"; "8"; "9"; "-"]%char) as Hu.
  { intros d. destruct d; simpl; eexists _, _; (split; [reflexivity|]); set_solver. }
  destruct (Z.to_int sn) as [d|d]; simpl.
  - destruct (Hu d) as (c & rest & -> & Hc). simpl. eauto.
  - eexists _, _. split; [reflexivity|]. set_solver.
Qed.

Lemma numbered_not_entry (os : string) (sn : Z) (txt : string) :
  startswith_any (numbered sn txt) (acl_line_sw os) = false.
Proof.
  destruct (numbered_head sn txt) as (c & rest & -> & Hc).
  unfold acl_line_sw, startswith_any, PyStr.startswith.
  assert (∀ c' p r, c ≠ c' → String.prefix (String c' p) (String c r) = false) as Hp.
  { intros c' p r Hne. simpl. destruct (ascii_dec c' c); [congruence|done]. }
  assert (c ≠ "p" ∧ c ≠ "d" ∧ c ≠ "r")%char as (Hp1 & Hp2 & Hp3).
  { repeat split; intros ->; set_solver. }
  case_bool_decide; cbn [existsb]; rewrite !Hp by done; done.
Qed.

Lemma number_entries_again (os : string) (cs : list HConfigChild) :
  ∀ sn sn' : Z,
    number_entries (acl_line_sw os) sn' (number_entries (acl_line_sw os) sn cs)
    = number_entries (acl_line_sw os) sn cs.
Proof.
  induction cs as [|e cs IH]; intros sn sn'; simpl; [done|].
  destruct (startswith_any (text e) (acl_line_sw os)) eqn:E; simpl.
  - rewrite numbered_not_entry. by rewrite IH.
  - rewrite E. by rewrite IH.
Qed.

(** X11: [_add_acl_sequence_numbers] numbers an entry once: a numbered
    entry starts with a digit and so with none of the prefixes of the
    entries to number, and a second call, for the same [os], changes
    nothing. *)
Theorem add_acl_sequence_numbers_twice (os : string) (t : HConfig) :
  _add_acl_sequence_numbers os (_add_acl_sequence_numbers os t)
  = _add_acl_sequence_numbers os t.
Proof.
  unfold _add_acl_sequence_numbers. cbn [root_children root_real_indent_level].
  f_equal. rewrite <- list_fmap_compose. apply list_fmap_ext. intros _ c _.
  unfold compose. destruct (PyStr.startswith (text c) "ip access-list") eqn:E.
  - cbn [text set_children children]. rewrite E. by rewrite number_entries_again.
  - by rewrite E.
Qed.

(** X10: in a child of the root that starts with [ip access-list],
    [_add_acl_sequence_numbers] puts before an entry that starts with one of
    the prefixes for the [os] the number 10 for the first such entry, 20
    for the second and so on, the entries that start with no such prefix
    not being counted; those it leaves as they are. *)
Theorem add_acl_sequence_numbers_entry (os : string) (t : HConfig) (i j : nat)
    (acl entry : HConfigChild) :
  root_children t !! i = Some acl →
  PyStr.startswith (text acl) "ip access-list" = true →
  children acl !! j = Some entry →
  node_of (_add_acl_sequence_numbers os t) [j; i]
  = Some (if startswith_any (text entry) (acl_line_sw os)
          then set_text
                 (numbered
                    (10 + 10 * Z.of_nat (length (filter (numbered_entry (acl_line_sw os))
                                                        (take j (children acl)))))
                    (text entry)) entry
          else entry).
Proof.
  intros Hi Hacl Hj. unfold node_of, _add_acl_sequence_numbers. simpl.
  rewrite list_lookup_fmap, Hi. simpl. rewrite Hacl. simpl.
  by rewrite (number_entries_lookup _ _ _ _ _ Hj).
Qed.

Lemma split_String (c : ascii) (r : string) :
  PyStr.split (String c r)
  = if PyStr.is_space c then PyStr.split r
    else match r with
         | EmptyString => [String c EmptyString]
         | String c' _ =>
             if PyStr.is_space c' then String c EmptyString :: PyStr.split r
             else match PyStr.split r with
                  | w :: ws => String c w :: ws
                  | [] => [String c EmptyString]
                  end
         end.
Proof. reflexivity. Qed.

Lemma split_word (w : string) : word w → PyStr.split w = [w].
Proof.
  induction w as [|c w IH]; [done|].
  intros [Hc [->|Hw]]; [by rewrite split_String, Hc|].
  rewrite split_String, Hc. destruct w as [|c' w']; [done|].
  rewrite (IH Hw). destruct Hw as [-> _]. done.
Qed.

Lemma split_word_blank (w s : string) :
  word w → PyStr.split (w +:+ " " +:+ s) = w :: PyStr.split s.
Proof.
  induction w as [|c w IH]; [done|].
  intros [Hc [->|Hw]].
  - change (String c "" +:+ " " +:+ s) with (String c (String " " s)).
    rewrite split_String, Hc. change (PyStr.is_space " ") with true. cbv iota.
    by rewrite (split_String " " s).
  - change (String c w +:+ " " +:+ s) with (String c (w +:+ " " +:+ s)).
    rewrite split_String, Hc, (IH Hw).
    destruct w as [|c' w']; [done|]. destruct Hw as [Hc' _].
    change (String c' w' +:+ " " +:+ s) with (String c' (w' +:+ " " +:+ s)).
    cbv iota. by rewrite Hc'.
Qed.

Lemma split_join (ws : list string) :
  Forall word ws → PyStr.split (PyStr.join " " ws) = ws.
Proof.
  induction 1 as [|w ws Hw _ IH]; [done|].
  unfold PyStr.join in *. destruct ws as [|w' ws].
  - simpl. by apply split_word.
  - change (String.concat " " (w :: w' :: ws))
      with (w +:+ " " +:+ String.concat " " (w' :: ws)).
    rewrite split_word_blank by done. by rewrite IH.
Qed.

Lemma rm_sequence_number_words (entry : HConfigChild) (n : string) (ws : list string) :
  word n → Forall word ws →
  text entry = "sequence " +:+ n +:+ " " +:+ PyStr.join " " ws →
  rm_sequence_number entry = set_text (PyStr.join " " ws) entry.
Proof.
  intros Hn Hws Ht. unfold rm_sequence_number. rewrite Ht.
  change ("sequence " +:+ n +:+ " " +:+ PyStr.join " " ws)
    with ("sequence" +:+ " " +:+ (n +:+ " " +:+ PyStr.join " " ws)).
  rewrite split_word_blank by (simpl; tauto).
  rewrite split_word_blank by done. rewrite split_join by done. done.
Qed.

(** X12: in a child of the root that starts with [ipv6 access-list ],
    [_rm_ipv6_acl_sequence_numbers] takes the keyword and the number off an
    entry [sequence n w1 ... wk] whose words stand one blank apart, and
    leaves [w1 ... wk]. *)
Theorem rm_ipv6_acl_sequence_numbers_entry (t : HConfig) (i j : nat)
    (acl entry : HConfigChild) (n : string) (ws : list string) :
  root_children t !! i = Some acl →
  PyStr.startswith (text acl) "ipv6 access-list " = true →
  children acl !! j = Some entry →
  word n → Forall word ws →
  text entry = "sequence " +:+ n +:+ " " +:+ PyStr.join " " ws →
  node_of (_rm_ipv6_acl_sequence_numbers t) [j; i]
  = Some (set_text (PyStr.join " " ws) entry).
Proof.
  intros Hi Hacl Hj Hn Hws Ht. unfold node_of, _rm_ipv6_acl_sequence_numbers. simpl.
  rewrite list_lookup_fmap, Hi. simpl. unfold get_children_startswith. rewrite Hacl. simpl.
  rewrite list_lookup_fmap, Hj. simpl. f_equal. by apply rm_sequence_number_words with n.
Qed.

(** A witness of X10: for [ios] the remarks are not counted, and the second
    entry to number gets 20. *)
Lemma add_acl_sequence_numbers_entry_witness :
  text <$> node_of (_add_acl_sequence_numbers "ios" acl_apart_example) [3%nat; 0%nat]
  = Some "20 deny ip any any".
Proof.
  rewrite (add_acl_sequence_numbers_entry "ios" acl_apart_example 0 3
             (set_children (new_child "ip access-list extended FOO")
                [new_child "remark a"; new_child "permit ip any any";
                 new_child "remark b"; new_child "deny ip any any"])
             (new_child "deny ip any any") eq_refl eq_refl eq_refl).
  vm_compute. reflexivity.
Defined.

(** A witness of X12: the entry of [ipv6_acl_example]. *)
Lemma rm_ipv6_acl_sequence_numbers_entry_witness :
  text <$> node_of (_rm_ipv6_acl_sequence_numbers ipv6_acl_example) [0%nat; 0%nat]
  = Some "permit ipv6 any any".
Proof.
  rewrite (rm_ipv6_acl_sequence_numbers_entry ipv6_acl_example 0 0
             (set_children (new_child "ipv6 access-list FOO")
                [new_child "sequence 10 permit ipv6 any any"])
             (new_child "sequence 10 permit ipv6 any any")
             "10" ["permit"; "ipv6"; "any"; "any"] eq_refl eq_refl eq_refl).
  - reflexivity.
  - repeat (split; [reflexivity|]; first [left; reflexivity | right]).
  - repeat (apply Forall_cons_2;
            [repeat (split; [reflexivity|]; first [left; reflexivity | right])|]).
    apply Forall_nil_2.
  - reflexivity.
Defined.

(** ** Order weights *)

Section Ordering.

Variable re_search : string → string → bool.
Variable strip_negation_of : string → string.

Lemma last_filter_cons {A : Type} (P : A → Prop) `{!∀ x, Decision (P x)} (x : A)
    (l : list A) :
  last (filter P (x :: l))
  = match last (filter P l) with
    | Some y => Some y
    | None => if decide (P x) then Some x else None
    end.
Proof.
  rewrite filter_cons. destruct (decide (P x)); [|by destruct (last _)].
  rewrite last_cons. by destruct (last _).
Qed.

Lemma order_rules_on (texts : list string) (rules : list ordering_rule) :
  ∀ n : HConfigChild,
    fold_left (order_rule_on re_search strip_negation_of texts) rules n
    = set_order_weight_of (weight_after re_search strip_negation_of rules texts (order_weight n)) n.
Proof.
  unfold weight_after.
  induction rules as [|rule rules IH]; intros n.
  { by destruct n. }
  cbn [fold_left]. rewrite IH, last_filter_cons. unfold order_rule_on.
  destruct (last (filter _ rules)) as [o|].
  { by destruct (lineage_test _ _ _ _ _). }
  destruct (lineage_test _ _ _ _ _) eqn:E.
  - rewrite decide_True by done. reflexivity.
  - rewrite decide_False by (simpl; congruence). reflexivity.
Qed.

Lemma order_walk_unfold (rules : list ordering_rule) (above : list string)
    (n : HConfigChild) :
  order_walk re_search strip_negation_of rules above n
  = mkChild (text n) (tags n) (comments n) (new_in_config n)
            (weight_after re_search strip_negation_of rules (above ++ [text n]) (order_weight n))
            (real_indent_level n)
            (order_walk re_search strip_negation_of rules (above ++ [text n])
               <$> children n).
Proof.
  destruct n as [tx tg cm nw w lvl cs]. simpl. by rewrite order_rules_on.
Qed.

Lemma weight_after_again (rules : list ordering_rule) (texts : list string) (w : Z) :
  weight_after re_search strip_negation_of rules texts (weight_after re_search strip_negation_of rules texts w) = weight_after re_search strip_negation_of rules texts w.
Proof. unfold weight_after. by destruct (last _). Qed.

Lemma order_walk_again (rules : list ordering_rule) (n : HConfigChild) :
  ∀ above : list string,
    order_walk re_search strip_negation_of rules above
      (order_walk re_search strip_negation_of rules above n)
    = order_walk re_search strip_negation_of rules above n.
Proof.
  induction n as [n IH] using HConfigChild_nested_ind. intros above.
  rewrite (order_walk_unfold rules above n).
  rewrite order_walk_unfold. cbn [text tags comments new_in_config order_weight
                                  real_indent_level children].
  rewrite weight_after_again. f_equal.
  rewrite <- list_fmap_compose. apply Forall_fmap_ext.
  eapply Forall_impl; [exact IH|]. intros c Hc. apply Hc.
Qed.

Lemma order_walk_fmap_again (rules : list ordering_rule) (above : list string)
    (l : list HConfigChild) :
  order_walk re_search strip_negation_of rules above
    <$> (order_walk re_search strip_negation_of rules above <$> l)
  = order_walk re_search strip_negation_of rules above <$> l.
Proof.
  rewrite <- list_fmap_compose. apply list_fmap_ext. intros _ x _.
  apply order_walk_again.
Qed.

(** X14: [set_order_weight] changes order weights only, and by the texts
    of the lines only, so that a second call gives the tree of the first,
    and the same outcome. *)
Theorem set_order_weight_twice (opts : Options) (t : HConfig) :
  set_order_weight re_search strip_negation_of opts
    (set_order_weight re_search strip_negation_of opts t).1
  = set_order_weight re_search strip_negation_of opts t.
Proof.
  unfold set_order_weight. destruct (root_children t) as [|c cs] eqn:Ht.
  { simpl. by rewrite Ht. }
  destruct (ordering opts) as [rules|] eqn:Ho; simpl.
  - do 2 f_equal. rewrite order_walk_again. f_equal.
    apply order_walk_fmap_again.
  - by rewrite Ht.
Qed.

Lemma children_of_cons (t : HConfig) (j : nat) (up : ref) :
  children_of t (j :: up)
  = match children_of t up !! j with Some m => children m | None => [] end.
Proof.
  unfold children_of. simpl. generalize (root_children t). generalize (rev up).
  intros p. induction p as [|i p IH]; intros f; simpl.
  - by destruct (f !! j).
  - destruct (f !! i); [apply IH|done].
Qed.

Lemma lineage_texts_cons (t : HConfig) (i : nat) (up : ref) (n : HConfigChild) :
  node_of t (i :: up) = Some n →
  lineage_texts t (i :: up) = lineage_texts t up ++ [text n].
Proof.
  intros Hn. unfold lineage_texts. simpl. rewrite omap_app. simpl. by rewrite Hn.
Qed.

Lemma children_of_order_walk (rules : list ordering_rule) (t : HConfig) (up : ref) :
  children_of (mkRoot (root_real_indent_level t)
                 (order_walk re_search strip_negation_of rules [] <$> root_children t)) up
  = order_walk re_search strip_negation_of rules (lineage_texts t up)
      <$> children_of t up.
Proof.
  induction up as [|j up IH].
  { done. }
  rewrite !children_of_cons, IH, list_lookup_fmap.
  destruct (children_of t up !! j) as [m|] eqn:Hm; simpl; [|done].
  rewrite order_walk_unfold. cbn [children].
  rewrite (lineage_texts_cons t j up m); [done|]. by rewrite node_of_cons.
Qed.

(** X13: with the rules [ordering], [set_order_weight] raises nothing and
    leaves every line at its place, with its text, tags, comments,
    [new_in_config] and number of children; its order weight is the order
    of the last rule that matches its lineage, and the weight it had when
    no rule does. *)
Theorem set_order_weight_last_match (opts : Options) (rules : list ordering_rule)
    (t : HConfig) (r : ref) (n : HConfigChild) :
  ordering opts = Some rules →
  node_of t r = Some n →
  (set_order_weight re_search strip_negation_of opts t).2 = None
  ∧ ∃ n', node_of (set_order_weight re_search strip_negation_of opts t).1 r = Some n'
      ∧ text n' = text n ∧ tags n' = tags n ∧ comments n' = comments n
      ∧ new_in_config n' = new_in_config n
      ∧ length (children n') = length (children n)
      ∧ order_weight n' = weight_after re_search strip_negation_of rules (lineage_texts t r) (order_weight n).
Proof.
  intros Ho Hn. unfold set_order_weight. rewrite Ho.
  destruct (root_children t) as [|c cs] eqn:Ht.
  { destruct r as [|i up]; [done|]. exfalso. revert Hn.
    unfold node_of. rewrite Ht. by destruct (rev (i :: up)). }
  rewrite <- Ht. cbn [fst snd]. split; [done|].
  destruct r as [|i up]; [done|].
  rewrite node_of_cons in Hn.
  exists (order_walk re_search strip_negation_of rules (lineage_texts t up) n).
  rewrite node_of_cons, children_of_order_walk, list_lookup_fmap, Hn.
  split; [done|]. rewrite order_walk_unfold. simpl.
  rewrite length_fmap. repeat split; try done.
  rewrite (lineage_texts_cons t i up n); [done|]. by rewrite node_of_cons.
Qed.

End Ordering.

(** A witness of X13: both rules of [ordering_example_options] match the
    address family of [exiting_example], and the second gives the weight. *)
Lemma set_order_weight_last_match_witness :
  ∃ n', node_of (set_order_weight literal_search id ordering_example_options
                   exiting_example).1 [0%nat; 0%nat] = Some n'
        ∧ text n' = "address-family ipv4"
        ∧ order_weight n' = 700.
Proof.
  destruct (set_order_weight_last_match literal_search id ordering_example_options
              [mkOrdering [mkSpec Startswith false "router bgp";
                           mkSpec Startswith false "address-family"] 600;
               mkOrdering [mkSpec Startswith false "router bgp";
                           mkSpec Contains false "ipv4"] 700]
              exiting_example [0%nat; 0%nat]
              (set_children (new_child "address-family ipv4")
                 [new_child "network 10.0.0.0"; new_child "exit-address-family"])
              eq_refl eq_refl) as (_ & n' & Hn' & Ht & _ & _ & _ & _ & Hw).
  exists n'. split; [exact Hn'|]. split; [exact Ht|]. rewrite Hw. vm_compute. reflexivity.
Defined.

(** ** The tags of a tree *)

Lemma fold_left_union_tags (cs : list HConfigChild) (acc : gset string) :
  fold_left (λ a child, a ∪ tags child) cs acc = acc ∪ ⋃ (tags <$> cs).
Proof.
  revert acc; induction cs as [|c cs IH]; intros acc; simpl.
  - set_solver.
  - rewrite IH. set_solver.
Qed.

Lemma HConfig_tags_elem_of (t : HConfig) (x : string) :
  x ∈ HConfig_tags t ↔ ∃ c, c ∈ root_children t ∧ x ∈ tags c.
Proof.
  unfold HConfig_tags. rewrite fold_left_union_tags, elem_of_union, elem_of_union_list.
  split.
  - intros [?|(X & HX & Hx)]; [set_solver|].
    apply list_elem_of_fmap in HX as (c & -> & Hc). eauto.
  - intros (c & Hc & Hx). right. exists (tags c). split; [|done].
    apply list_elem_of_fmap. eauto.
Qed.

(** X15: after [tree.tags = value] the tags of a tree are [value] when the
    tree has a line, and the empty set when it has none. *)
Theorem HConfig_tags_set_tags (value : gset string) (t : HConfig) :
  HConfig_tags (HConfig_set_tags value t)
  = match root_children t with [] => ∅ | _ :: _ => value end.
Proof.
  apply set_eq. intros x. rewrite HConfig_tags_elem_of.
  unfold HConfig_set_tags. cbn [root_children].
  destruct (root_children t) as [|c cs].
  - split; [|set_solver]. intros (c & Hc & _). by apply elem_of_nil in Hc.
  - split.
    + intros (c' & Hc' & Hx). apply list_elem_of_fmap in Hc' as (c0 & -> & _). done.
    + intros Hx. exists (set_tags value c). split; [|done]. csimpl. set_solver.
Qed.

(** ** Equality of trees *)

Lemma HConfigChild_eqb_sym (a : HConfigChild) :
  ∀ b, HConfigChild_eqb a b = HConfigChild_eqb b a.
Proof.
  induction a as [a IH] using HConfigChild_nested_ind. intros b.
  destruct a as [tx tg cm nw w lvl cs], b as [tx' tg' cm' nw' w' lvl' cs'].
  simpl in *.
  rewrite (bool_decide_ext (tx = tx') (tx' = tx)) by (split; congruence).
  rewrite (bool_decide_ext (tg = tg') (tg' = tg)) by (split; congruence).
  rewrite (bool_decide_ext (cm = cm') (cm' = cm)) by (split; congruence).
  rewrite (bool_decide_ext (nw = nw') (nw' = nw)) by (split; congruence).
  f_equal. clear -IH. revert cs'.
  induction IH as [|c cs Hc _ IHcs]; intros [|c' cs']; try done.
  by rewrite Hc, IHcs.
Qed.

Lemma HConfig_eq_diag (t : HConfig) : HConfig_eq t t = true.
Proof.
  unfold HConfig_eq. rewrite bool_decide_eq_false_2 by (by intros []).
  induction (sorted_by order_weight (root_children t)) as [|c l IH]; [done|].
  simpl. by rewrite HConfigChild_eqb_refl.
Qed.

(** X16: the equality of trees, [HConfig.__eq__], holds of a tree and
    itself, and gives the same answer with its two sides exchanged. *)
Theorem HConfig_eq_refl_sym (a b : HConfig) :
  HConfig_eq a a = true ∧ HConfig_eq a b = HConfig_eq b a.
Proof.
  split; [apply HConfig_eq_diag|].
  unfold HConfig_eq.
  rewrite (bool_decide_ext (length (root_children a) ≠ length (root_children b))
             (length (root_children b) ≠ length (root_children a)))
    by (split; congruence).
  case_bool_decide; [done|].
  generalize (sorted_by order_weight (root_children a)),
             (sorted_by order_weight (root_children b)).
  intros l. induction l as [|x l IH]; intros [|y k]; try done.
  simpl. by rewrite IH, HConfigChild_eqb_sym.
Qed.




(** ** The filtered traversal as a whole *)

Lemma blocked_app (l1 l2 : list ref) :
  blocked l1 → blocked l2 →
  Forall (λ c, Forall (λ d, ¬ c `suffix_of` d) l2) l1 →
  blocked (l1 ++ l2).
Proof.
  induction l1 as [|c l1 IH]; simpl; [done|].
  intros [(below & after & -> & Hb & Ha) H1] H2 Hcross.
  apply Forall_cons in Hcross as [Hc2 Hcross].
  split; [|by apply IH].
  exists below, (after ++ l2). rewrite <- app_assoc. split; [done|]. split; [done|].
  by apply Forall_app.
Qed.

Lemma blocked_app_r (l1 l2 : list ref) : blocked (l1 ++ l2) → blocked l2.
Proof. induction l1 as [|c l1 IH]; simpl; [done|]. intros [_ ?]. by apply IH. Qed.

Lemma pre_order_app_r (l1 l2 : list ref) : pre_order (l1 ++ l2) → pre_order l2.
Proof. induction l1 as [|c l1 IH]; simpl; [done|]. intros [_ ?]. by apply IH. Qed.

Lemma pre_order_NoDup (seq : list ref) : pre_order seq → NoDup seq.
Proof.
  induction seq as [|c seq IH]; simpl; [constructor|].
  intros [Hc Hseq]. constructor; [|by apply IH].
  intros Hin. rewrite Forall_forall in Hc. by apply (Hc c Hin).
Qed.

Lemma block_elem_suffix (here : ref) (j : nat) (c : HConfigChild) (d : ref) :
  d ∈ (j :: here) :: (fst <$> all_children_sorted_below (j :: here) c) →
  (j :: here) `suffix_of` d.
Proof.
  intros Hd. apply elem_of_cons in Hd as [->|Hd]; [done|].
  apply all_children_sorted_below_suffix in Hd as [j' Hd].
  by apply suffix_cons_l in Hd.
Qed.

Lemma blocks_elem_suffix (here : ref) (L : list (nat * HConfigChild)) (d : ref) :
  d ∈ concat ((λ ic : nat * HConfigChild,
                 (ic.1 :: here) :: (fst <$> all_children_sorted_below (ic.1 :: here) ic.2))
                <$> L) →
  ∃ j c, (j, c) ∈ L ∧ (j :: here) `suffix_of` d.
Proof.
  intros Hd. apply concat_elem_of in Hd as (block & Hd & Hblock).
  apply list_elem_of_fmap in Hblock as ([j c] & -> & Hjc). simpl in Hd.
  exists j, c. split; [done|]. by eapply block_elem_suffix.
Qed.

Lemma blocked_blocks (here : ref) (L : list (nat * HConfigChild)) :
  NoDup (fst <$> L) →
  Forall (λ ic, blocked (fst <$> all_children_sorted_below (ic.1 :: here) ic.2)) L →
  blocked
    (concat ((λ ic : nat * HConfigChild,
                (ic.1 :: here) :: (fst <$> all_children_sorted_below (ic.1 :: here) ic.2))
               <$> L)).
Proof.
  induction L as [|[i c] L IH]; csimpl; [done|].
  intros [Hi Hnd]%NoDup_cons [Hc HL]%Forall_cons. simpl in Hc.
  assert (∀ x d, (i :: here) `suffix_of` x →
            d ∈ concat ((λ ic : nat * HConfigChild,
                           (ic.1 :: here)
                           :: (fst <$> all_children_sorted_below (ic.1 :: here) ic.2))
                          <$> L) →
            ¬ x `suffix_of` d) as Hcross.
  { intros x d Hx Hd Hs. apply blocks_elem_suffix in Hd as (j & c' & Hjc & Hj).
    assert (j :: here = i :: here) as [= ->].
    { apply (suffix_unique_length _ _ d); [done|by do 2 etrans|done]. }
    apply Hi. apply list_elem_of_fmap. by exists (i, c'). }
  split.
  - eexists _, _. split; [done|]. split.
    + apply Forall_forall. intros d Hd.
      apply all_children_sorted_below_suffix in Hd as [i' Hd].
      by apply suffix_cons_l in Hd.
    + apply Forall_forall. intros d Hd. by apply Hcross.
  - apply blocked_app; [done|by apply IH|].
    apply Forall_forall. intros x Hx. apply Forall_forall. intros d Hd.
    apply Hcross; [|done].
    apply all_children_sorted_below_suffix in Hx as [i' Hx].
    by apply suffix_cons_l in Hx.
Qed.

Lemma all_children_sorted_below_blocked (n : HConfigChild) :
  ∀ here : ref, blocked (fst <$> all_children_sorted_below here n).
Proof.
  induction n as [n IH] using HConfigChild_nested_ind. intros here.
  rewrite all_children_sorted_below_refs.
  apply blocked_blocks; [apply sorted_positions_NoDup|].
  apply Forall_forall. intros [i c] Hic. simpl.
  apply sorted_positions_elem_of in Hic. rewrite Forall_forall in IH.
  apply IH. by eapply list_elem_of_lookup_2.
Qed.

Lemma all_children_sorted_below_closed (n : HConfigChild) :
  ∀ (here x p : ref),
    x ∈ fst <$> all_children_sorted_below here n →
    p `suffix_of` x → (length here < length p)%nat →
    p ∈ fst <$> all_children_sorted_below here n.
Proof.
  induction n as [n IH] using HConfigChild_nested_ind. intros here x p.
  rewrite all_children_sorted_below_refs, !concat_elem_of.
  intros (block & Hx & Hblock) Hp Hlen.
  exists block. split; [|done].
  apply list_elem_of_fmap in Hblock as ([i c] & -> & Hic). simpl in *.
  pose proof (block_elem_suffix _ _ _ _ Hx) as Hix.
  destruct (decide (length p = S (length here))) as [Heq|Hne].
  - assert (p = i :: here) as ->; [|by left].
    by apply (suffix_unique_length _ _ x).
  - right. apply elem_of_cons in Hx as [->|Hx].
    { apply suffix_length in Hp. simpl in Hp. lia. }
    apply sorted_positions_elem_of in Hic. rewrite Forall_forall in IH.
    apply (IH c (list_elem_of_lookup_2 _ _ _ Hic) (i :: here) x p Hx Hp).
    simpl. lia.
Qed.

Lemma all_children_sorted_walk_order (t : HConfig) :
  walk_order (fst <$> all_children_sorted t).
Proof.
  split; [apply all_children_sorted_pre_order|]. split.
  - rewrite all_children_sorted_refs.
    apply blocked_blocks; [apply sorted_positions_NoDup|].
    apply Forall_forall. intros [i c] _. apply all_children_sorted_below_blocked.
  - intros x p. rewrite all_children_sorted_refs, !concat_elem_of.
    intros (block & Hx & Hblock) Hp. exists block. split; [|done].
    apply list_elem_of_fmap in Hblock as ([i c] & -> & Hic). simpl in *.
    apply lineage_elem_of in Hp as [Hne Hp].
    pose proof (block_elem_suffix _ _ _ _ Hx) as Hix.
    destruct (decide (length p = 1%nat)) as [Heq|Hne'].
    + assert (p = [i]) as ->; [|by left].
      by apply (suffix_unique_length _ _ x).
    + right. apply elem_of_cons in Hx as [->|Hx].
      { apply suffix_length in Hp. destruct p; simpl in *; [done|lia]. }
      apply (all_children_sorted_below_closed c [i] x p Hx Hp).
      destruct p; simpl in *; [done|lia].
Qed.

(** The ancestors of a line stand before it, and between an ancestor and
    the line only lines below the ancestor are found. *)
Lemma walk_order_split (seq B R : list ref) (x p : ref) :
  walk_order seq → seq = B ++ x :: R → p ∈ lineage x → p ≠ x →
  ∃ B1 B2, B = B1 ++ p :: B2 ∧ Forall (λ d, p `suffix_of` d) B2.
Proof.
  intros (Hpre & Hbl & Hcl) -> Hp Hne.
  pose proof Hp as [_ Hsuf]%lineage_elem_of.
  assert (p ∈ B) as HpB.
  { assert (p ∈ B ++ x :: R) as Hin.
    { apply (Hcl x); [|done]. apply elem_of_app. right. by left. }
    apply elem_of_app in Hin as [?|Hin]; [done|].
    apply elem_of_cons in Hin as [?|Hin]; [done|].
    apply pre_order_app_r in Hpre as [Hx _].
    rewrite Forall_forall in Hx. by destruct (Hx p Hin). }
  apply list_elem_of_split in HpB as (B1 & B2 & ->).
  exists B1, B2. split; [done|].
  rewrite <- app_assoc in Hbl. apply blocked_app_r in Hbl.
  destruct Hbl as [(below & after & Heq & Hb & Ha) _].
  apply app_eq_inv in Heq as [(k & -> & ->)|(k & -> & Hk)].
  - exfalso. apply Forall_app in Ha as [_ Ha].
    apply Forall_cons in Ha as [Hax _]. done.
  - by apply Forall_app in Hb as [? _].
Qed.

Lemma suffix_comparable {A : Type} (a b c : list A) :
  a `suffix_of` c → b `suffix_of` c → a `suffix_of` b ∨ b `suffix_of` a.
Proof.
  intros [ka ->] [kb Hb].
  apply app_eq_inv in Hb as [(k & -> & ->)|(k & -> & ->)].
  - left. by exists k.
  - right. by exists k.
Qed.

Lemma pre_order_before (B R : list ref) (x c : ref) :
  pre_order (B ++ x :: R) → c ∈ B → ¬ x `suffix_of` c.
Proof.
  induction B as [|b B IH]; simpl; [by intros _ ?%elem_of_nil|].
  intros [Hb Hpre] [->|Hc]%elem_of_cons; [|by apply IH].
  rewrite Forall_forall in Hb. apply Hb. apply elem_of_app. right. by left.
Qed.

Lemma lineage_tail (x : ref) :
  x ≠ [] → lineage x = lineage (tail x) ++ [x].
Proof. by destruct x. Qed.

Lemma lineage_self (x : ref) : x ≠ [] → x ∈ lineage x.
Proof. intros. by apply lineage_elem_of. Qed.

Lemma lineage_trans (p y x : ref) : p ∈ lineage y → y ∈ lineage x → p ∈ lineage x.
Proof.
  rewrite !lineage_elem_of. intros [? ?] [? ?]. split; [done|by etrans].
Qed.

Section LateAncestors.

Variable seq : list ref.
Hypothesis Hseq : walk_order seq.
Variable Y : gset ref.
Hypothesis Hclosed : ∀ y p, y ∈ Y → p ∈ lineage y → p ∈ Y.

Lemma late_ancestors (x : ref) :
  ∀ B R : list ref,
    seq = B ++ x :: R →
    filter (λ r, r ∈ Y ∪ list_to_set (lineage x)) B
    = filter (λ r, r ∈ Y) B ++ filter (λ r, r ∉ Y) (lineage (tail x)).
Proof.
  pose proof (pre_order_NoDup seq (proj1 Hseq)) as Hnd.
  induction x as [|i p IH]; intros B R HB.
  { simpl. rewrite app_nil_r. apply filter_ext_elem. set_solver. }
  assert (i :: p ∉ B) as HxB.
  { rewrite HB in Hnd. apply NoDup_app in Hnd as (_ & Hnd & _).
    intros Hin. apply (Hnd _ Hin). by left. }
  destruct (decide (p = [])) as [->|Hp].
  { simpl. rewrite app_nil_r. apply filter_ext_elem. intros c Hc.
    rewrite elem_of_union, elem_of_union, elem_of_singleton.
    split; [|auto]. intros [?|[->|?]]; [done|done|set_solver]. }
  assert (p ∈ lineage (i :: p)) as Hpl.
  { apply lineage_elem_of. split; [done|]. by apply suffix_cons_r. }
  assert (p ≠ i :: p) as Hpx.
  { intros Heq. apply (f_equal length) in Heq. simpl in Heq. lia. }
  destruct (walk_order_split seq B R (i :: p) p Hseq HB Hpl Hpx)
    as (B1 & B2 & -> & HB2).
  rewrite <- app_assoc in HB. simpl in HB.
  specialize (IH B1 (B2 ++ (i :: p) :: R) HB).
  assert ((p ∉ B1) ∧ (p ∉ B2)) as [HpB1 HpB2].
  { rewrite HB in Hnd. apply NoDup_app in Hnd as (_ & Hnd1 & Hnd2).
    apply NoDup_cons in Hnd2 as [Hnd2 _]. split.
    - intros Hin. apply (Hnd1 _ Hin). by left.
    - intros Hin. apply Hnd2. apply elem_of_app. by left. }
  simpl tail.
  rewrite (lineage_tail p Hp), !filter_app, !filter_cons, !filter_nil.
  assert (filter (λ r, r ∈ Y ∪ list_to_set (lineage (i :: p))) B1
          = filter (λ r, r ∈ Y ∪ list_to_set (lineage p)) B1) as ->.
  { apply filter_ext_elem. intros c Hc. simpl lineage.
    rewrite list_to_set_app, !elem_of_union, !elem_of_list_to_set.
    rewrite list_elem_of_singleton. split; [|tauto].
    intros [?|[?| ->]]; [tauto|tauto|]. destruct HxB. apply elem_of_app. by left. }
  rewrite IH.
  assert (filter (λ r, r ∈ Y ∪ list_to_set (lineage (i :: p))) B2
          = filter (λ r, r ∈ Y) B2) as ->.
  { apply filter_ext_elem. intros c Hc.
    rewrite elem_of_union, elem_of_list_to_set. split; [|tauto].
    intros [?|Hcl]; [done|]. exfalso.
    rewrite Forall_forall in HB2. specialize (HB2 c Hc).
    apply lineage_elem_of in Hcl as [_ Hcx].
    apply suffix_of_cons_case in Hcx as [->|Hcp].
    - apply HxB. apply elem_of_app. right. by right.
    - apply HpB2. by rewrite (anti_symm suffix p c). }
  rewrite decide_True by (apply elem_of_union; right; by apply elem_of_list_to_set).
  destruct (decide (p ∈ Y)) as [HpY|HpY].
  - rewrite (decide_True (P := p ∈ Y)) by done.
    rewrite (decide_False (P := p ∉ Y)) by (intros Hn; by apply Hn).
    rewrite (filter_none (λ r, r ∉ Y) (lineage (tail p))).
    + by rewrite !app_nil_r.
    + apply Forall_forall. intros a Ha. intros Hn. apply Hn.
      apply (Hclosed p); [done|]. rewrite (lineage_tail p Hp). apply elem_of_app. by left.
  - rewrite (decide_False (P := p ∈ Y)) by done.
    rewrite (decide_True (P := p ∉ Y)) by done.
    rewrite (filter_none (λ r, r ∈ Y) B2).
    + rewrite !app_nil_r. by rewrite <- !app_assoc.
    + apply Forall_forall. intros c Hc HcY.
      rewrite Forall_forall in HB2. apply HpY. apply (Hclosed c); [done|].
      apply lineage_elem_of. split; [done|]. by apply HB2.
Qed.

End LateAncestors.

Section FilteredPass.

Variable re_search : string → string → bool.
Variable strip_negation_of : string → string.
Variable rules : list lineage_rule.
Variable t : HConfig.

Lemma visit_cases (m : marks) (x : ref) :
  let v := visit re_search strip_negation_of rules t m x in
  ((∃ a, a ∈ lineage x ∧ a ∈ matched m)
   ∧ v = ([x], mkMarks ({[x]} ∪ yielded m) (matched m)))
  ∨ ((∀ a, a ∈ lineage x → a ∉ matched m)
     ∧ rule_hit re_search strip_negation_of rules t x
     ∧ v = (filter (λ a, a ∉ yielded m) (lineage x),
            mkMarks (yielded m ∪ list_to_set (lineage x)) ({[x]} ∪ matched m)))
  ∨ ((∀ a, a ∈ lineage x → a ∉ matched m)
     ∧ ¬ rule_hit re_search strip_negation_of rules t x
     ∧ v = ([], m)).
Proof.
  unfold visit. simpl.
  destruct (existsb _ (lineage x)) eqn:E.
  { left. apply existsb_exists in E as (a & Hin & Ha).
    apply list_elem_of_In in Hin. apply bool_decide_eq_true in Ha. eauto. }
  right.
  assert (∀ a, a ∈ lineage x → a ∉ matched m) as Hno.
  { intros a Ha Hm. assert (existsb (λ ancestor, bool_decide (ancestor ∈ matched m))
                              (lineage x) = true) as E'; [|congruence].
    apply existsb_exists. exists a. split; [by apply list_elem_of_In|].
    by apply bool_decide_eq_true. }
  destruct (List.find _ rules) as [rule|] eqn:F.
  - left. split; [done|]. apply find_some in F as [Hin Hr]. split.
    + apply Exists_exists. exists rule. split; [by apply list_elem_of_In|done].
    + by rewrite yield_lineage_yields, yield_lineage_marks by apply lineage_NoDup.
  - right. split; [done|]. split; [|done].
    intros (rule & Hin & Hr)%Exists_exists.
    apply list_elem_of_In in Hin.
    pose proof (find_none _ _ F rule Hin) as Hf. simpl in Hf. congruence.
Qed.

Variable seq : list ref.
Hypothesis Hseq : walk_order seq.
Hypothesis Hne : ∀ r, r ∈ seq → r ≠ [].

Local Abbreviation hit := (rule_hit re_search strip_negation_of rules t).
Local Abbreviation wanted := (wanted_among re_search strip_negation_of rules t).
Local Abbreviation inv := (pass_inv re_search strip_negation_of rules t).

Lemma wanted_among_mono (B B' : list ref) (c : ref) :
  B ⊆ B' → wanted B c → wanted B' c.
Proof.
  intros Hsub (h & Hh & H)%Exists_exists. apply Exists_exists. exists h. split; [|done].
  by apply Hsub.
Qed.

Lemma wanted_among_snoc (B : list ref) (x c : ref) :
  wanted (B ++ [x]) c ↔ wanted B c ∨ (hit x ∧ (x `suffix_of` c ∨ c `suffix_of` x)).
Proof.
  unfold wanted_among. rewrite Exists_app, Exists_cons, Exists_nil. tauto.
Qed.

Lemma pass_inv_step (B R : list ref) (x : ref) (m : marks) (out : list ref) :
  seq = B ++ x :: R →
  inv B m out →
  inv (B ++ [x]) (visit re_search strip_negation_of rules t m x).2
      (out ++ (visit re_search strip_negation_of rules t m x).1).
Proof.
  intros HB [I1 I2 I3 I5 I6 I4 I7].
  pose proof (pre_order_NoDup seq (proj1 Hseq)) as Hnd.
  assert (x ∈ seq) as Hxseq.
  { rewrite HB. apply elem_of_app. right. by left. }
  pose proof (Hne x Hxseq) as Hx.
  assert (x ∉ B) as HxB.
  { rewrite HB in Hnd. apply NoDup_app in Hnd as (_ & Hnd & _).
    intros Hin. apply (Hnd _ Hin). by left. }
  assert (x ∉ yielded m) as HxY by (intros ?; by apply HxB, I3).
  assert (∀ c, c ∈ B → c ≠ []) as HneB.
  { intros c Hc. apply Hne. rewrite HB. apply elem_of_app. by left. }
  assert (∀ p, p ∈ lineage x → p ≠ x → p ∈ B) as Hanc.
  { intros p Hp Hpx.
    destruct (walk_order_split seq B R x p Hseq HB Hp Hpx) as (B1 & B2 & -> & _).
    apply elem_of_app. right. by left. }
  assert (∀ c, c ∈ B → ¬ x `suffix_of` c) as Hbefore.
  { intros c Hc. apply (pre_order_before B R); [|done]. rewrite <- HB. apply Hseq. }
  assert (∀ c, c ∈ B → c `suffix_of` x → c ∈ lineage x) as Hlin.
  { intros c Hc Hs. apply lineage_elem_of. split; [by apply HneB|done]. }
  assert (filter (λ r, r ∈ yielded m) (B ++ [x]) = filter (λ r, r ∈ yielded m) B) as Hfx.
  { rewrite filter_app, filter_cons, filter_nil, decide_False by done.
    by rewrite app_nil_r. }
  destruct (visit_cases m x) as [[(a & Ha & HaM) ->]|[(Hno & Hhit & ->)|(Hno & Hmiss & ->)]];
    cbn [fst snd].
  - (* an ancestor is matched *)
    destruct (I5 a HaM) as [HaB Hahit].
    assert (a ≠ x) as Hax by (intros ->; done).
    assert (∀ p, p ∈ lineage x → p ≠ x → p ∈ yielded m) as Hup.
    { intros p Hp Hpx. pose proof (Hanc p Hp Hpx) as HpB.
      pose proof Hp as [Hpne Hps]%lineage_elem_of.
      pose proof Ha as [Hane Has]%lineage_elem_of.
      destruct (suffix_comparable p a x Hps Has) as [Hpa|Hap].
      - apply (I2 a); [by apply I1|]. by apply lineage_elem_of.
      - apply I4; [done|]. apply Exists_exists. exists a. eauto. }
    split; cbn [yielded matched].
    + intros a' Ha'. apply elem_of_union. right. by apply I1.
    + intros y p [->%elem_of_singleton|Hy]%elem_of_union Hp.
      * destruct (decide (p = x)) as [->|Hpx]; [set_solver|].
        apply elem_of_union. right. by apply Hup.
      * apply elem_of_union. right. by apply (I2 y).
    + intros y [->%elem_of_singleton|Hy]%elem_of_union; apply elem_of_app.
      * right. by left.
      * left. by apply I3.
    + intros a' Ha'. destruct (I5 a' Ha') as [? ?]. split; [|done].
      apply elem_of_app. by left.
    + intros h [Hh| ->%list_elem_of_singleton]%elem_of_app Hhh; [by apply I6|eauto].
    + intros c [Hc| ->%list_elem_of_singleton]%elem_of_app.
      * rewrite wanted_among_snoc, <- (I4 c Hc). split.
        -- intros [->%elem_of_singleton|?]%elem_of_union; [done|by left].
        -- intros [?|[_ [?|Hcx]]]; [set_solver|by destruct (Hbefore c Hc)|].
           apply elem_of_union. right. apply Hup; [by apply Hlin|]. by intros ->.
      * split; [|set_solver]. intros _. apply wanted_among_snoc. left.
        apply Exists_exists. exists a. split; [done|]. split; [done|].
        left. by apply lineage_elem_of in Ha as [_ ?].
    + rewrite I7. rewrite filter_app, filter_cons, filter_nil.
      rewrite decide_True by set_solver. f_equal.
      apply filter_ext_elem. intros c Hc. set_solver.
  - (* the line matches a rule *)
    split; cbn [yielded matched].
    + intros a [->%elem_of_singleton|Ha]%elem_of_union.
      * apply elem_of_union. right. apply elem_of_list_to_set. by apply lineage_self.
      * apply elem_of_union. left. by apply I1.
    + intros y p [Hy|Hy%elem_of_list_to_set]%elem_of_union Hp; apply elem_of_union.
      * left. by apply (I2 y).
      * right. apply elem_of_list_to_set. by apply (lineage_trans p y x).
    + intros y [Hy|Hy%elem_of_list_to_set]%elem_of_union; apply elem_of_app.
      * left. by apply I3.
      * destruct (decide (y = x)) as [->|Hyx]; [right; by left|left; by apply Hanc].
    + intros a [->%elem_of_singleton|Ha]%elem_of_union.
      * split; [|done]. apply elem_of_app. right. by left.
      * destruct (I5 a Ha) as [? ?]. split; [|done]. apply elem_of_app. by left.
    + intros h [Hh| ->%list_elem_of_singleton]%elem_of_app Hhh.
      * destruct (I6 h Hh Hhh) as (a & ? & ?). exists a. split; [done|set_solver].
      * exists x. split; [by apply lineage_self|set_solver].
    + intros c [Hc| ->%list_elem_of_singleton]%elem_of_app.
      * rewrite wanted_among_snoc, <- (I4 c Hc), elem_of_union, elem_of_list_to_set.
        split.
        -- intros [?|Hcl]; [by left|]. right. split; [done|]. right.
           by apply lineage_elem_of in Hcl as [_ ?].
        -- intros [?|[_ [?|Hcx]]]; [by left|by destruct (Hbefore c Hc)|].
           right. by apply Hlin.
      * split.
        -- intros _. apply wanted_among_snoc. right. split; [done|]. by left.
        -- intros _. apply elem_of_union. right. apply elem_of_list_to_set.
           by apply lineage_self.
    + rewrite I7. rewrite filter_app, filter_cons, filter_nil.
      rewrite decide_True
        by (apply elem_of_union; right; apply elem_of_list_to_set; by apply lineage_self).
      rewrite (late_ancestors seq Hseq (yielded m) I2 x B R HB).
      rewrite (lineage_tail x Hx) at 1. rewrite filter_app, filter_cons, filter_nil.
      rewrite (decide_True (P := x ∉ yielded m)) by done.
      by rewrite <- app_assoc.
  - (* no rule matches *)
    split.
    + done.
    + done.
    + intros y Hy. apply elem_of_app. left. by apply I3.
    + intros a Ha. destruct (I5 a Ha) as [? ?]. split; [|done]. apply elem_of_app. by left.
    + intros h [Hh| ->%list_elem_of_singleton]%elem_of_app Hhh; [by apply I6|done].
    + intros c [Hc| ->%list_elem_of_singleton]%elem_of_app.
      * rewrite wanted_among_snoc, <- (I4 c Hc). tauto.
      * split; [done|]. intros [Hw|[? _]]%wanted_among_snoc; [|done]. exfalso.
        apply Exists_exists in Hw as (h & Hh & Hhh & [Hs|Hs]).
        -- destruct (I6 h Hh Hhh) as (a & Ha & HaM).
           apply (Hno a); [|done]. apply (lineage_trans a h x); [done|by apply Hlin].
        -- by destruct (Hbefore h Hh).
    + by rewrite app_nil_r, Hfx.
Qed.

Lemma pass_inv_all (B R : list ref) :
  seq = B ++ R →
  inv B (marks_after re_search strip_negation_of rules t (mkMarks ∅ ∅) B)
      (filtered_pass re_search strip_negation_of rules t (mkMarks ∅ ∅) B).
Proof.
  revert R. induction B as [|x B IH] using rev_ind; intros R HB.
  { split; simpl; try done.
    - intros h Hh. by apply elem_of_nil in Hh.
    - intros c Hc. by apply elem_of_nil in Hc. }
  rewrite <- app_assoc in HB. simpl in HB.
  unfold marks_after. rewrite fold_left_app. simpl.
  rewrite filtered_pass_app. simpl. rewrite app_nil_r.
  apply (pass_inv_step B R x); [done|]. by apply (IH (x :: R)).
Qed.

End FilteredPass.

Lemma filter_split {A : Type} (P : A → Prop) `{!∀ x, Decision (P x)} (S : list A) :
  ∀ (l1 l2 : list A) (x : A),
    filter P S = l1 ++ x :: l2 →
    ∃ B R, S = B ++ x :: R ∧ l1 = filter P B ∧ l2 = filter P R ∧ P x.
Proof.
  induction S as [|s S IH]; intros l1 l2 x.
  { rewrite filter_nil. by destruct l1. }
  rewrite filter_cons. destruct (decide (P s)) as [Hs|Hs].
  - destruct l1 as [|y l1]; simpl.
    + intros [= -> <-]. exists [], S. by rewrite filter_nil.
    + intros [= -> Heq]. destruct (IH _ _ _ Heq) as (B & R & -> & -> & -> & Hx).
      exists (y :: B), R. by rewrite filter_cons_True.
  - intros Heq. destruct (IH _ _ _ Heq) as (B & R & -> & -> & -> & Hx).
    exists (s :: B), R. by rewrite filter_cons_False.
Qed.

Lemma all_children_sorted_below_nodes (n : HConfigChild) :
  ∀ (here r : ref) (c : HConfigChild),
    (r, c) ∈ all_children_sorted_below here n →
    ∃ p, r = p ++ here ∧ node_at (rev p) (children n) = Some c.
Proof.
  induction n as [n IH] using HConfigChild_nested_ind. intros here r c.
  rewrite all_children_sorted_below_eq, concat_elem_of.
  intros (block & Hr & Hblock).
  apply list_elem_of_fmap in Hblock as ([w blk] & -> & Hblk). simpl in Hr.
  apply sorted_by_elem_of, elem_of_lookup_imap in Hblk as (i & ci & [= -> ->] & Hi).
  apply elem_of_cons in Hr as [[= -> ->]|Hr].
  - exists [i]. split; [done|]. simpl. by rewrite Hi.
  - rewrite Forall_forall in IH.
    destruct (IH ci (list_elem_of_lookup_2 _ _ _ Hi) (i :: here) r c Hr)
      as (p & -> & Hp).
    exists (p ++ [i]). split; [by rewrite <- app_assoc|].
    rewrite rev_app_distr. simpl. rewrite Hi.
    destruct (rev p); [done|done].
Qed.

Lemma all_children_sorted_nodes (t : HConfig) (r : ref) (c : HConfigChild) :
  (r, c) ∈ all_children_sorted t → node_of t r = Some c.
Proof.
  unfold all_children_sorted. rewrite concat_elem_of.
  intros (block & Hr & Hblock).
  apply list_elem_of_fmap in Hblock as ([w blk] & -> & Hblk). simpl in Hr.
  apply sorted_by_elem_of, elem_of_lookup_imap in Hblk as (i & ci & [= -> ->] & Hi).
  unfold node_of.
  apply elem_of_cons in Hr as [[= -> ->]|Hr].
  - simpl. by rewrite Hi.
  - destruct (all_children_sorted_below_nodes ci [i] r c Hr) as (p & -> & Hp).
    rewrite rev_app_distr. simpl. rewrite Hi. destruct (rev p); [done|done].
Qed.

Lemma all_children_sorted_is_Some (t : HConfig) (r : ref) :
  r ∈ fst <$> all_children_sorted t → is_Some (node_of t r).
Proof.
  intros ([r' c] & -> & H)%list_elem_of_fmap. exists c.
  by apply all_children_sorted_nodes.
Qed.

Lemma well_nested_by_refs (L : list ref) :
  ∀ (items : list dump_item) (prev : ref),
    item_depth <$> items = depth <$> L →
    (∀ L1 r L2, L = L1 ++ r :: L2 →
       r ≠ [] ∧ tail r `suffix_of` default prev (last L1)) →
    well_nested (depth prev) items.
Proof.
  induction L as [|r L IH]; intros [|x items] prev Hd HL; try done.
  injection Hd as Hx Hd. simpl.
  destruct (HL [] r L eq_refl) as [Hr Hs]. simpl in Hs.
  apply suffix_length in Hs. rewrite Hx. unfold depth at 1 2 3.
  destruct r as [|i up]; [done|]. simpl in *. split; [lia|].
  change (Z.pos (Pos.of_succ_nat (length up))) with (depth (i :: up)).
  apply IH; [done|].
  intros L1 r' L2 ->. destruct (HL ((i :: up) :: L1) r' L2 eq_refl) as [? Hs'].
  split; [done|]. rewrite last_cons in Hs'. by destruct (last L1).
Qed.

Section Wanted.

Variable re_search : string → string → bool.
Variable strip_negation_of : string → string.
Variable rules : list lineage_rule.
Variable t : HConfig.

Lemma wanted_among_up (seq : list ref) (c p : ref) :
  wanted_among re_search strip_negation_of rules t seq c → p ∈ lineage c →
  wanted_among re_search strip_negation_of rules t seq p.
Proof.
  intros (h & Hh & Hhit & Hs)%Exists_exists [_ Hp]%lineage_elem_of.
  apply Exists_exists. exists h. split; [done|]. split; [done|].
  destruct Hs as [Hs|Hs].
  - destruct (suffix_comparable h p c Hs Hp); auto.
  - right. by etrans.
Qed.

(** Of the lines of a walk, take those of a set that holds the ancestors
    of its lines: then the parent of a line is the line before it or one of
    the ancestors of that line. *)
Lemma filter_walk_nested (seq : list ref) (W : ref → Prop) `{!∀ r, Decision (W r)} :
  walk_order seq → (∀ r, r ∈ seq → r ≠ []) →
  (∀ c p, c ∈ seq → W c → p ∈ lineage c → W p) →
  ∀ L1 r L2, filter W seq = L1 ++ r :: L2 →
    r ≠ [] ∧ tail r `suffix_of` default [] (last L1).
Proof.
  intros Hseq Hne Hup L1 r L2 HL.
  apply filter_split in HL as (B & R & HB & -> & -> & Hr).
  assert (r ∈ seq) as Hrseq by (rewrite HB; apply elem_of_app; right; by left).
  pose proof (Hne r Hrseq) as Hrne. split; [done|].
  destruct r as [|i p]; [done|]. simpl.
  destruct (decide (p = [])) as [->|Hp]; [apply suffix_nil|].
  assert (p ∈ lineage (i :: p)) as Hpl.
  { apply lineage_elem_of. split; [done|]. by apply suffix_cons_r. }
  assert (p ≠ i :: p) as Hpx.
  { intros Heq. apply (f_equal length) in Heq. simpl in Heq. lia. }
  destruct (walk_order_split seq B R (i :: p) p Hseq HB Hpl Hpx) as (B1 & B2 & -> & HB2).
  rewrite filter_app, filter_cons_True by (by apply (Hup (i :: p))).
  rewrite last_app_cons, last_cons.
  destruct (last (filter W B2)) as [z|] eqn:Hz; simpl; [|done].
  apply last_Some_elem_of, list_elem_of_filter in Hz as [_ Hz].
  rewrite Forall_forall in HB2. by apply HB2.
Qed.

(** The lines that the filtered traversal yields, in the order of the
    sorted traversal. *)
Lemma filtered_pass_is_filter :
  filtered_pass re_search strip_negation_of rules t (mkMarks ∅ ∅)
    (fst <$> all_children_sorted t)
  = filter (wanted_among re_search strip_negation_of rules t
              (fst <$> all_children_sorted t))
           (fst <$> all_children_sorted t).
Proof.
  destruct (pass_inv_all re_search strip_negation_of rules t (fst <$> all_children_sorted t)
              (all_children_sorted_walk_order t) (all_children_sorted_nonempty t)
              (fst <$> all_children_sorted t) []) as [_ _ _ _ _ I4 I7].
  { by rewrite app_nil_r. }
  rewrite I7. apply filter_ext_elem. intros c Hc. by apply I4.
Qed.

(** X18: [all_children_sorted_with_lineage_rules] yields the lines of
    [all_children_sorted], in the order they have there and each once, that
    a rule matches, that are below a line that a rule matches, or that are
    an ancestor of one; it yields no other line. *)
Theorem filtered_traversal_is_filter :
  all_children_sorted_with_lineage_rules re_search strip_negation_of rules t
  = filter (wanted_among re_search strip_negation_of rules t
              (fst <$> all_children_sorted t))
           (fst <$> all_children_sorted t).
Proof. apply filtered_pass_is_filter. Qed.

(** X19: [all_children_sorted_with_lineage_rules] yields no line twice,
    and a line only after all its ancestors, so that what it yields can be
    read as a tree from the first line on. *)
Theorem filtered_traversal_ancestors_first :
  NoDup (all_children_sorted_with_lineage_rules re_search strip_negation_of rules t)
  ∧ ancestors_first
      (all_children_sorted_with_lineage_rules re_search strip_negation_of rules t).
Proof.
  unfold all_children_sorted_with_lineage_rules. rewrite filtered_pass_is_filter.
  pose proof (all_children_sorted_walk_order t) as Hseq.
  split.
  { apply NoDup_filter, pre_order_NoDup, Hseq. }
  intros l1 l2 r p Hl Hp Hpr.
  apply filter_split in Hl as (B & R & HB & -> & -> & Hr).
  destruct (walk_order_split _ B R r p Hseq HB Hp Hpr) as (B1 & B2 & -> & _).
  apply list_elem_of_filter. split.
  - by apply (wanted_among_up _ r).
  - apply elem_of_app. right. by left.
Qed.

End Wanted.

Lemma filter_all {A : Type} (P : A → Prop) `{!∀ x, Decision (P x)} (l : list A) :
  (∀ x, P x) → filter P l = l.
Proof.
  intros HP. induction l as [|x l IH]; [done|]. by rewrite filter_cons_True, IH.
Qed.

Lemma canonical_item_of (r : ref) (c : HConfigChild) :
  canonical (item_of r c) = item_of r c.
Proof. unfold canonical, item_of. simpl. by rewrite !list_to_set_elements_L. Qed.

Lemma omap_items (t : HConfig) (l : list ref) :
  Forall (λ r, is_Some (node_of t r)) l →
  item_depth <$> omap (λ r, item_of r <$> node_of t r) l = depth <$> l
  ∧ canonical <$> omap (λ r, item_of r <$> node_of t r) l
    = omap (λ r, item_of r <$> node_of t r) l.
Proof.
  induction 1 as [|r l [c Hc] _ [IH1 IH2]]; [done|].
  simpl. rewrite Hc. csimpl. by rewrite IH1, IH2, canonical_item_of.
Qed.

Section DumpLoads.

Variable re_search : string → string → bool.
Variable strip_negation_of : string → string.

Lemma dump_depths (t : HConfig) (lineage_rules : option (list lineage_rule)) :
  ∃ L, (∀ L1 r L2, L = L1 ++ r :: L2 → r ≠ [] ∧ tail r `suffix_of` default [] (last L1))
       ∧ item_depth <$> dump re_search strip_negation_of t lineage_rules = depth <$> L
       ∧ canonical <$> dump re_search strip_negation_of t lineage_rules
         = dump re_search strip_negation_of t lineage_rules.
Proof.
  pose proof (all_children_sorted_walk_order t) as Hseq.
  pose proof (all_children_sorted_nonempty t) as Hne.
  assert (∃ L, (∀ L1 r L2, L = L1 ++ r :: L2 →
                  r ≠ [] ∧ tail r `suffix_of` default [] (last L1))
               ∧ item_depth <$> ((λ rc, item_of rc.1 rc.2) <$> all_children_sorted t)
                 = depth <$> L
               ∧ canonical <$> ((λ rc, item_of rc.1 rc.2) <$> all_children_sorted t)
                 = (λ rc, item_of rc.1 rc.2) <$> all_children_sorted t) as Hplain.
  { exists (fst <$> all_children_sorted t). split; [|split].
    - rewrite <- (filter_all (λ _, True) (fst <$> all_children_sorted t)) by done.
      by apply filter_walk_nested.
    - rewrite <- !list_fmap_compose. by apply list_fmap_ext.
    - rewrite <- list_fmap_compose. apply list_fmap_ext. intros _ [r c] _.
      apply canonical_item_of. }
  destruct lineage_rules as [[|rule rules]|]; [done| |done].
  unfold dump.
  exists (all_children_sorted_with_lineage_rules re_search strip_negation_of (rule :: rules) t).
  split.
  - unfold all_children_sorted_with_lineage_rules. rewrite filtered_pass_is_filter.
    apply filter_walk_nested; [done|done|].
    intros c p _. apply wanted_among_up.
  - apply omap_items.
    unfold all_children_sorted_with_lineage_rules. rewrite filtered_pass_is_filter.
    apply Forall_forall. intros r [_ Hr]%list_elem_of_filter.
    by apply all_children_sorted_is_Some.
Qed.

(** X20: every dump of a tree, with lineage rules or without, loads into
    a new tree without an exception, and the dump of that tree, taken
    without lineage rules, is the dump that was loaded: a filtered dump
    holds the ancestors that its lines need. *)
Theorem dump_loads_back (t : HConfig) (lineage_rules : option (list lineage_rule)) :
  ∃ t', load_from_dump (dump re_search strip_negation_of t lineage_rules) HConfig_new
        = (t', None)
        ∧ dump re_search strip_negation_of t' None
          = dump re_search strip_negation_of t lineage_rules.
Proof.
  destruct (dump_depths t lineage_rules) as (L & HL & Hd & Hc).
  pose proof (well_nested_by_refs L _ [] Hd HL) as Hn.
  destruct (load_items_dumped _ HConfig_new [] (Forall_nil_2 _) I Hn)
    as (t' & l' & Hl & Hdump).
  exists t'. unfold load_from_dump. rewrite Hl. split; [done|].
  unfold dump at 1. rewrite all_children_sorted_items, Hdump, Hc. done.
Qed.

End DumpLoads.

(** ** The text of a parsed line *)

Lemma lstrip_lstrip (s : string) : PyStr.lstrip (PyStr.lstrip s) = PyStr.lstrip s.
Proof.
  induction s as [|c s IH]; simpl; [done|].
  destruct (PyStr.is_space c) eqn:E; [done|]. simpl. by rewrite E.
Qed.

Lemma rstrip_rstrip (s : string) : PyStr.rstrip (PyStr.rstrip s) = PyStr.rstrip s.
Proof.
  induction s as [|c s IH]; simpl; [done|].
  destruct (PyStr.is_empty (PyStr.rstrip s) && PyStr.is_space c) eqn:E; [done|].
  simpl. by rewrite IH, E.
Qed.

Lemma rstrip_fixed_lstrip (s : string) :
  PyStr.rstrip s = s →
  PyStr.rstrip (PyStr.lstrip s) = PyStr.lstrip s
  ∧ (s ≠ EmptyString → PyStr.lstrip s ≠ EmptyString).
Proof.
  induction s as [|c s IH]; [done|].
  intros Hr. simpl. destruct (PyStr.is_space c) eqn:E; [|done].
  simpl in Hr. rewrite E, andb_true_r in Hr.
  destruct (PyStr.is_empty (PyStr.rstrip s)) eqn:Ee; [done|].
  injection Hr as Hr. destruct (IH Hr) as [IH1 IH2]. split; [done|].
  intros _. apply IH2. intros ->. by rewrite <- Hr in Ee.
Qed.

Section ParsedText.

Variable re_sub : string → string → string → string.
Variable re_search : string → string → bool.

Lemma normalize_line_rstrip (subs : list sub_rule) (line : string) :
  PyStr.rstrip (normalize_line re_sub subs line) = normalize_line re_sub subs line.
Proof. unfold normalize_line. apply rstrip_rstrip. Qed.

(** X21: a line that the parser places outside a banner has a text that is
    not empty and has no blank at either end, whatever the rewrite rules of
    [per_line_sub] do to the line. *)
Theorem parsed_text_stripped (opts : Options) (t : HConfig) (lines : list string)
    (st : pstate) (line : string) (subs : list sub_rule) (rules : list indent_rule) :
  parse_lines re_sub re_search opts (initial_state t) lines = (st, None) →
  in_banner st = false →
  PyStr.startswith line "banner " = false →
  per_line_sub opts = Some subs →
  indent_adjust opts = Some rules →
  PyStr.is_empty (normalize_line re_sub subs line) = false →
  let st' := (parse_line re_sub re_search opts st line).1 in
  ∃ n, node_of (tree st') (most_recent_item st') = Some n
       ∧ text n ≠ EmptyString
       ∧ PyStr.lstrip (text n) = text n
       ∧ PyStr.rstrip (text n) = text n.
Proof.
  intros Hrun Hin Hstart Hsubs Hrules Hne st'.
  pose proof (parse_lines_inv re_sub re_search opts lines _ _ _ (initial_state_inv t) Hrun)
    as Hinv.
  subst st'. unfold parse_line, normal_line. rewrite Hin, Hstart, Hsubs, Hne.
  set (line' := normalize_line re_sub subs line) in *.
  pose proof (effective_indent_nonneg st line' Hinv) as Hnn.
  set (this_indent := effective_indent st line') in *.
  destruct Hinv as [Hroot Hsv Hrv Hsl Hrl Hadj Hend].
  unfold place_line.
  destruct (walk_up_total (tree st) this_indent (current_section st)) as [section Hw];
    [done..|].
  rewrite Hw. apply walk_up_inr in Hw as [Hs Hasc].
  destruct (Hrl (most_recent_item st)) as [lvl Hlvl]; [done|]. rewrite Hlvl, Hrules.
  pstate_proj. cbn [fst]. pstate_proj.
  set (section' := if bool_decide (this_indent > lvl) then _ else _).
  assert (valid_ref (tree st) section') as Hv.
  { subst section'. case_bool_decide; [done|]. exact (valid_ref_suffix _ _ _ Hsv Hs). }
  destruct (placed_node (tree st) section' (PyStr.lstrip line') false this_indent Hv)
    as (_ & n & Hn & Htxt & Hz).
  exists n. split; [done|]. rewrite Htxt.
  destruct (rstrip_fixed_lstrip line' (normalize_line_rstrip subs line)) as [H1 H2].
  split; [|split; [apply lstrip_lstrip|done]].
  apply H2. intros Heq. by rewrite Heq in Hne.
Qed.

End ParsedText.

(** A witness of X21: a line with blanks at both ends. *)
Lemma parsed_text_stripped_witness :
  let st := (parse_lines literal_sub literal_search empty_options
               (initial_state HConfig_new) ["interface GigabitEthernet0/1"]).1 in
  let st' := (parse_line literal_sub literal_search empty_options st
                "  description   uplink  ").1 in
  ∃ n, node_of (tree st') (most_recent_item st') = Some n
       ∧ text n = "description uplink"
       ∧ PyStr.lstrip (text n) = text n
       ∧ PyStr.rstrip (text n) = text n.
Proof.
  intros st st'.
  assert (parse_lines literal_sub literal_search empty_options
            (initial_state HConfig_new) ["interface GigabitEthernet0/1"] = (st, None))
    as Hrun by (vm_compute; reflexivity).
  destruct (parsed_text_stripped literal_sub literal_search
              empty_options HConfig_new ["interface GigabitEthernet0/1"] st
              "  description   uplink  " [] [] Hrun eq_refl eq_refl eq_refl eq_refl eq_refl)
    as (n & Hn & _ & Hl & Hr).
  exists n. split; [exact Hn|]. split; [|by split].
  vm_compute in Hn. injection Hn as <-. reflexivity.
Defined.

(** ** The lines of a dump *)

Lemma all_children_sorted_below_complete (p : list nat) :
  ∀ (n0 : HConfigChild) (here : ref) (c : HConfigChild),
    node_at p (children n0) = Some c →
    (rev p ++ here, c) ∈ all_children_sorted_below here n0.
Proof.
  induction p as [|i q IH]; intros n0 here c; simpl; [done|].
  destruct (children n0 !! i) as [ci|] eqn:Hi; [|done].
  intros Hc. rewrite all_children_sorted_below_eq, concat_elem_of.
  exists ((i :: here, ci) :: all_children_sorted_below (i :: here) ci). split.
  - rewrite <- app_assoc. simpl. destruct q as [|j q].
    + injection Hc as ->. by left.
    + right. by apply (IH ci (i :: here) c).
  - apply list_elem_of_fmap.
    exists (order_weight ci, (i :: here, ci) :: all_children_sorted_below (i :: here) ci).
    split; [done|]. apply sorted_by_elem_of.
    by apply (elem_of_lookup_imap_2
                (λ i c, (order_weight c,
                         (i :: here, c) :: all_children_sorted_below (i :: here) c))).
Qed.

Lemma all_children_sorted_complete (t : HConfig) (r : ref) (c : HConfigChild) :
  node_of t r = Some c → (r, c) ∈ all_children_sorted t.
Proof.
  unfold node_of, all_children_sorted. rewrite <- (rev_involutive r) at 2.
  destruct (rev r) as [|i q]; simpl; [done|].
  destruct (root_children t !! i) as [ci|] eqn:Hi; [|done].
  intros Hc. rewrite concat_elem_of.
  exists (([i], ci) :: all_children_sorted_below [i] ci). split.
  - destruct q as [|j q].
    + injection Hc as ->. by left.
    + right. by apply (all_children_sorted_below_complete (j :: q) ci [i] c).
  - apply list_elem_of_fmap.
    exists (order_weight ci, ([i], ci) :: all_children_sorted_below [i] ci).
    split; [done|]. apply sorted_by_elem_of.
    by apply (elem_of_lookup_imap_2
                (λ i c, (order_weight c, ([i], c) :: all_children_sorted_below [i] c))).
Qed.

Section DumpLines.

Variable re_search : string → string → bool.
Variable strip_negation_of : string → string.

(** X22: [dump()], without lineage rules, has one record for each line of
    the tree: it lists the records of a list of lines without repetition,
    and a line is in that list exactly when it is a line of the tree. *)
Theorem dump_every_line_once (t : HConfig) :
  (∃ L, dump re_search strip_negation_of t None = (λ rc, item_of rc.1 rc.2) <$> L
        ∧ NoDup (fst <$> L)
        ∧ ∀ r c, (r, c) ∈ L ↔ node_of t r = Some c).
Proof.
  exists (all_children_sorted t). split; [done|]. split.
  - apply pre_order_NoDup, all_children_sorted_pre_order.
  - intros r c. split.
    + apply all_children_sorted_nodes.
    + apply all_children_sorted_complete.
Qed.

End DumpLines.

(** ** Exit lines come last *)

Lemma insert_by_app_heavy {A : Type} (key : A → Z) (x : A) (l E : list A) :
  Forall (λ e, key x ≤ key e) E →
  insert_by key x (l ++ E) = insert_by key x l ++ E.
Proof.
  intros HE. induction l as [|y l IH]; simpl.
  - destruct HE as [|e E He _]; [done|]. simpl.
    by rewrite bool_decide_eq_false_2 by lia.
  - case_bool_decide; [by rewrite IH|done].
Qed.

Lemma sorted_by_heavy_tail {A : Type} (key : A → Z) (k : Z) (l E : list A) :
  Forall (λ x, key x ≤ k) l → Forall (λ e, key e = k) E →
  sorted_by key (l ++ E) = sorted_by key l ++ E.
Proof.
  intros Hl HE. induction Hl as [|x l Hx _ IH]; simpl.
  - by apply (sorted_by_same_key key k).
  - unfold sorted_by in *. simpl. rewrite IH. apply insert_by_app_heavy.
    eapply Forall_impl; [exact HE|]. simpl. intros e ->. done.
Qed.

Section ExitLast.

Variable re_search : string → string → bool.
Variable strip_negation_of : string → string.

Lemma exit_rules_children_weights (texts : list string) (rules : list exiting_rule) :
  ∀ child : HConfigChild,
    Forall (λ c, order_weight c = 999) (children child) →
    Forall (λ c, order_weight c = 999)
      (children (fold_left (exit_rule_on re_search strip_negation_of texts) rules child)).
Proof.
  induction rules as [|r rules IH]; intros child Hcs; simpl; [done|].
  destruct (lineage_test re_search strip_negation_of (exiting_lineage r) false texts)
    eqn:Hr.
  - apply IH. rewrite exit_rule_on_match by done. simpl.
    apply Forall_app. split; [|by repeat constructor].
    unfold del_child_by_text. rewrite Forall_forall in Hcs. apply Forall_forall.
    intros c Hc. apply Hcs. by apply list_elem_of_filter in Hc as [_ ?].
  - rewrite exit_rule_on_no_match by done. by apply IH.
Qed.

Lemma exit_walk_last (rules : list exiting_rule) (fuel : nat) :
  ∀ (above : list string) (cs cs' : list HConfigChild),
    exit_walk re_search strip_negation_of fuel rules above cs = Some cs' →
    Forall (exits_last re_search strip_negation_of rules above) cs'.
Proof.
  induction fuel as [|fuel IH]; intros above cs cs'; simpl; [done|].
  intros Hwalk%mapM_Some_1.
  induction Hwalk as [|c c' cs cs' Hc Hcs IHcs]; [done|].
  constructor; [|done].
  apply fmap_Some in Hc as (cs'' & Hwalk' & ->).
  pose proof (IH _ _ _ Hwalk') as Hlast.
  apply exit_walk_ok in Hwalk' as [_ Hsame].
  set (c1 := fold_left _ rules c) in *.
  destruct (exit_rules_text re_search strip_negation_of (above ++ [text c]) rules c)
    as [Htxt _].
  fold c1 in Htxt.
  constructor; simpl; rewrite Htxt; [|done].
  intros (rule & Hin & Hm) Hw.
  pose proof (exit_rules_children_split re_search strip_negation_of
                (above ++ [text c]) rules c) as Hsplit.
  fold c1 in Hsplit.
  set (met := matching_exit_texts re_search strip_negation_of (above ++ [text c]) rules)
    in *.
  set (E := children (fold_left (exit_rule_on re_search strip_negation_of
                                   (above ++ [text c])) rules (set_children c []))) in *.
  assert (Forall (λ x, order_weight x = 999) E) as HEw.
  { apply exit_rules_children_weights. simpl. constructor. }
  assert (Forall (λ x, text x ∈ met) E) as HEt.
  { apply (exit_rules_children_texts re_search strip_negation_of (above ++ [text c]) rules
             (set_children c []) (λ s, s ∈ met)); [constructor|].
    by apply Forall_forall. }
  assert (E ≠ []) as HEne.
  { destruct (exit_rules_children re_search strip_negation_of (above ++ [text c]) rules
                (set_children c []) rule Hin Hm) as (x & Hx & _).
    fold E in Hx. intros HE. by rewrite HE in Hx. }
  rewrite Hsplit in Hsame.
  apply Forall2_app_inv_l in Hsame as (A' & E' & HA & HE & ->).
  assert (Forall (λ x, order_weight x = 999 ∧ text x ∈ met) E') as HE'.
  { clear -HE HEw HEt. induction HE as [|x y E E' [Ht Hwt] _ IHE]; [done|].
    apply Forall_cons in HEw as [? ?]. apply Forall_cons in HEt as [? ?].
    constructor; [|by apply IHE]. split; congruence. }
  apply Forall_app in Hw as [Hw _].
  rewrite (sorted_by_heavy_tail order_weight 999); [|done|].
  2:{ eapply Forall_impl; [exact HE'|]. by intros x [? _]. }
  destruct (last E') as [x|] eqn:Hx.
  - exists x. rewrite last_app, Hx. split; [done|].
    apply last_Some_elem_of in Hx. rewrite Forall_forall in HE'. by apply HE'.
  - apply last_None in Hx. subst E'. apply Forall2_nil_inv_r in HE. done.
Qed.

(** X23: [add_sectional_exiting] puts the exit lines last on output: in
    the tree it gives, a line that a rule matches and none of whose children
    has an order weight above 999 has, as the last of its children in sorted
    order, a line of order weight 999 with the exit text of a rule that
    matches it. *)
Theorem add_sectional_exiting_exits_last (opts : Options) (rules : list exiting_rule)
    (t : HConfig) :
  sectional_exiting opts = Some rules →
  ∃ t1 : HConfig,
    (∀ fuel, (exit_fuel rules t ≤ fuel)%nat →
       add_sectional_exiting re_search strip_negation_of fuel opts t = Some (t1, None))
    ∧ Forall (exits_last re_search strip_negation_of rules []) (root_children t1).
Proof.
  intros Ho. unfold add_sectional_exiting. rewrite Ho.
  destruct (root_children t) as [|c cs] eqn:Ht.
  { exists t. split; [done|]. rewrite Ht. constructor. }
  destruct (exit_walk_total re_search strip_negation_of rules t) as [cs' Hcs'].
  rewrite Ht in Hcs'.
  exists (mkRoot (root_real_indent_level t) cs'). split.
  - intros fuel Hf. by rewrite (Hcs' fuel Hf).
  - simpl. apply (exit_walk_last rules (exit_fuel rules t) [] (c :: cs)).
    by apply Hcs'.
Qed.

End ExitLast.

(** A witness of X23: the address family of [exiting_example]. *)
Lemma add_sectional_exiting_exits_last_witness :
  ∃ t1,
    add_sectional_exiting literal_search id 4 exiting_example_options exiting_example
    = Some (t1, None)
    ∧ Forall (exits_last literal_search id
                [mkExiting [mkSpec Startswith false "router bgp";
                            mkSpec Startswith false "address-family"]
                           "exit-address-family"] [])
             (root_children t1)
    ∧ text <$> last (sorted_by order_weight (children_of t1 [0%nat; 0%nat]))
      = Some "exit-address-family".
Proof.
  destruct (add_sectional_exiting_exits_last literal_search id exiting_example_options _
              exiting_example eq_refl) as (t1 & H1 & H2).
  exists t1.
  assert (4 ≤ 4)%nat as Hfuel by lia.
  pose proof (H1 4%nat Hfuel) as Hrun.
  split; [exact Hrun|]. split; [exact H2|].
  vm_compute in Hrun. injection Hrun as <-. vm_compute. reflexivity.
Defined.

(** ** Tags *)

Section Tagging.

Variable re_search : string → string → bool.
Variable strip_negation_of : string → string.














End Tagging.

